(** * libcommhistory: contact resolver and recent-contacts model

    A shallow embedding of [src/contactresolver.cpp],
    [src/recentcontactsmodel.cpp] and the two helpers of
    [src/commonutils.cpp] they rely on, followed by the properties of the
    resolver's state machine and of the model's ingestion pass.

    Conventions.  A C++ [int] is a [Z]; list sizes stay far below [2^31], so
    the sums of sizes the code computes never leave the range of [int] and
    are written without wrap-around.  A [QSet] is a [gset], a [QList] a
    [list].  Qt signals and calls into collaborators are recorded in a log
    that the operations extend. *)

From Stdlib Require Import ZArith Lia Ascii.
From stdpp Require Import base option list list_numbers sets gmap strings sorting.

#[local] Open Scope Z_scope.

(** ** Collaborators that live outside the repository *)

(** [SeasideCache::CacheItem], as far as the code reads it: the contact id
    ([iid]) and the favorite detail of the cached contact. *)
Record CacheItem := mkCacheItem {
  iid : Z;
  isFavorite : bool
}.

#[global] Instance CacheItem_eq_dec : EqDecision CacheItem.
Proof. solve_decision. Defined.

(** The part of libcontacts' [SeasideCache] the code calls.  A result of
    [None] is the null pointer: for the two [resolve*] calls it means that
    the cache could not answer at once and will call [addressResolved]
    later. *)
Record SeasideCache := mkSeasideCache {
  resolvePhoneNumber : string → option CacheItem;
  resolveOnlineAccount : string → string → option CacheItem;
  itemByPhoneNumber : string → option CacheItem;
  existingItem : Z → option CacheItem
}.

(** Constants and functions of headers and libraries that are not part of
    the sources at hand: the account prefix [RING_ACCOUNT], the phone number
    minimizer of qtcontacts-sqlite with its default length, and whether
    [Q_ASSERT] is compiled in (it is, unless [QT_NO_DEBUG] is defined). *)
Record Platform := mkPlatform {
  RING_ACCOUNT : string;
  DefaultMaximumPhoneNumberCharacters : Z;
  qtMinimizePhoneNumber : string → Z → string;
  assertionsEnabled : bool
}.

Definition isEmpty (s : string) : bool := bool_decide (s = EmptyString).

(** ** commonutils.cpp *)

Module CommonUtils.

Definition phoneNumberMatchLength (P : Platform) : Z :=
  DefaultMaximumPhoneNumberCharacters P.

Definition localUidComparesPhoneNumbers (P : Platform) (localUid : string) : bool :=
  String.prefix (RING_ACCOUNT P) localUid.

Definition minimizePhoneNumber (P : Platform) (number : string) : string :=
  qtMinimizePhoneNumber P number (phoneNumberMatchLength P).

End CommonUtils.

(** ** Recipients *)

(** Modelled from the spec: a recipient (recipient.h is missing from the
    sources).  It is identified by its [(localUid, remoteUid)] pair; two
    recipients with the same pair are equal and share their private data. *)
Record Recipient := mkRecipient {
  localUid : string;
  remoteUid : string
}.

#[global] Instance Recipient_eq_dec : EqDecision Recipient.
Proof. solve_decision. Defined.

#[global] Instance Recipient_countable : Countable Recipient.
Proof.
  refine (inj_countable' (λ r, (localUid r, remoteUid r))
                         (λ p, mkRecipient p.1 p.2) _).
  by intros [].
Defined.

(** Modelled from the spec: the shared private data of recipients
    ([RecipientPrivate], in recipient.cpp, is missing from the sources).
    The spec gives a recipient a [resolved] flag and an optional contact,
    shared by all instances of one pair.  The store maps a pair to its
    resolution: absent means not resolved, [Some None] resolved to nothing,
    [Some (Some item)] resolved to a directory item. *)
Abbreviation RecipientStore := (gmap Recipient (option CacheItem)).

Module RecipientModel.

(** Modelled from the spec: [Recipient::isContactResolved]. *)
Definition isContactResolved (store : RecipientStore) (r : Recipient) : bool :=
  bool_decide (is_Some (store !! r)).

(** Modelled from the spec: [RecipientPrivate::setResolved], which marks the
    pair resolved, to [item] or to nothing when [item] is null. *)
Definition setResolved (r : Recipient) (item : option CacheItem)
    (store : RecipientStore) : RecipientStore :=
  <[r := item]> store.

(** Modelled from the spec: [Recipient::contactId], [0] when there is no
    contact. *)
Definition contactId (store : RecipientStore) (r : Recipient) : Z :=
  match store !! r with
  | Some (Some item) => iid item
  | _ => 0
  end.

(** Modelled from the spec: [Recipient::isPhoneNumber]; a recipient is a
    phone number when its account compares phone numbers, which
    commonutils.cpp decides from the local uid. *)
Definition isPhoneNumber (P : Platform) (r : Recipient) : bool :=
  CommonUtils.localUidComparesPhoneNumbers P (localUid r).

(** Modelled from the spec: [Recipient::phoneNumberMatchDetails], the
    normalized match key of a number. *)
Definition phoneNumberMatchDetails (P : Platform) (number : string) : string :=
  CommonUtils.minimizePhoneNumber P number.

(** Modelled from the spec: [Recipient::matchesPhoneNumber]; a phone-number
    recipient matches a key when its own address has that key. *)
Definition matchesPhoneNumber (P : Platform) (r : Recipient) (key : string) : bool :=
  isPhoneNumber P r
  && bool_decide (CommonUtils.minimizePhoneNumber P (remoteUid r) = key).

End RecipientModel.

(** ** contactresolver.cpp *)

Module ContactResolver.

Import RecipientModel.

(** What the resolver does to the outside, in order. *)
Inductive Effect :=
  | ResolvePhoneNumber (number : string)
  | ResolveOnlineAccount (local remote : string)
  | Warning
  | Finished.

#[global] Instance Effect_eq_dec : EqDecision Effect.
Proof. solve_decision. Defined.

(** [ContactResolverPrivate] ([pending], [resolving], [forceResolving])
    together with what it acts on: the recipients' shared data, the number of
    [checkIfFinished] invocations waiting in the event loop, and the log of
    effects. *)
Record State := mkState {
  pending : gset Recipient;
  resolving : bool;
  forceResolving : bool;
  recipients : RecipientStore;
  queued : nat;
  log : list Effect
}.

(** The constructor: nothing pending, idle. *)
Definition init : State :=
  mkState ∅ false false ∅ 0%nat [].

Definition setForceResolving (enabled : bool) (s : State) : State :=
  mkState (pending s) (resolving s) enabled (recipients s) (queued s) (log s).

Definition markResolved (r : Recipient) (item : option CacheItem) (s : State) : State :=
  mkState (pending s) (resolving s) (forceResolving s)
          (setResolved r item (recipients s)) (queued s) (log s).

Definition insertPending (r : Recipient) (s : State) : State :=
  mkState ({[r]} ∪ pending s) (resolving s) (forceResolving s)
          (recipients s) (queued s) (log s).

Definition erasePending (r : Recipient) (s : State) : State :=
  mkState (pending s ∖ {[r]}) (resolving s) (forceResolving s)
          (recipients s) (queued s) (log s).

Definition emit (e : Effect) (s : State) : State :=
  mkState (pending s) (resolving s) (forceResolving s)
          (recipients s) (queued s) (log s ++ [e]).

(** [ContactResolverPrivate::resolve].  [None] is the process aborted by the
    failed [Q_ASSERT] on the local uid. *)
Definition resolve (P : Platform) (cache : SeasideCache) (recipient : Recipient)
    (s : State) : option State :=
  if negb (forceResolving s) && isContactResolved (recipients s) recipient then
    Some s
  else if assertionsEnabled P && isEmpty (localUid recipient) then
    None
  else if isEmpty (localUid recipient) || isEmpty (remoteUid recipient) then
    Some (markResolved recipient None s)
  else if bool_decide (recipient ∈ pending s) then
    Some s
  else if isPhoneNumber P recipient then
    let s1 := emit (ResolvePhoneNumber (remoteUid recipient)) s in
    match resolvePhoneNumber cache (remoteUid recipient) with
    | Some item => Some (markResolved recipient (Some item) s1)
    | None => Some (insertPending recipient s1)
    end
  else
    let s1 := emit (ResolveOnlineAccount (localUid recipient) (remoteUid recipient)) s in
    match resolveOnlineAccount cache (localUid recipient) (remoteUid recipient) with
    | Some item => Some (markResolved recipient (Some item) s1)
    | None => Some (insertPending recipient s1)
    end.

(** [ContactResolverPrivate::checkIfFinishedAsynchronously]: the queued
    invocation of [checkIfFinished] is one more entry in the event loop. *)
Definition checkIfFinishedAsynchronously (s : State) : State :=
  if resolving s then s
  else if bool_decide (pending s = ∅) then
    mkState (pending s) true (forceResolving s) (recipients s) (S (queued s)) (log s)
  else
    mkState (pending s) true (forceResolving s) (recipients s) (queued s) (log s).

(** [ContactResolverPrivate::checkIfFinished]. *)
Definition checkIfFinished (s : State) : bool * State :=
  if resolving s && bool_decide (pending s = ∅) then
    (true, mkState (pending s) false (forceResolving s) (recipients s) (queued s)
                   (log s ++ [Finished]))
  else (false, s).

(** The [foreach] of [ContactResolver::add]. *)
Fixpoint resolveAll (P : Platform) (cache : SeasideCache) (rs : list Recipient)
    (s : State) : option State :=
  match rs with
  | [] => Some s
  | recipient :: rest =>
      match resolve P cache recipient s with
      | Some s1 => resolveAll P cache rest s1
      | None => None
      end
  end.

(** [ContactResolver::add(const Recipient &)]. *)
Definition add1 (P : Platform) (cache : SeasideCache) (recipient : Recipient)
    (s : State) : option State :=
  match resolve P cache recipient s with
  | Some s1 => Some (checkIfFinishedAsynchronously s1)
  | None => None
  end.

(** [ContactResolver::add(const QList<Recipient> &)] and its [RecipientList]
    twin. *)
Definition add (P : Platform) (cache : SeasideCache) (rs : list Recipient)
    (s : State) : option State :=
  match resolveAll P cache rs s with
  | Some s1 => Some (checkIfFinishedAsynchronously s1)
  | None => None
  end.

(** The body of the loop over [pending] in [addressResolved]: a matching
    entry is resolved to the best match for its own number and erased. *)
Definition resolveMatching (P : Platform) (cache : SeasideCache) (phoneNumber : string)
    (s : State) (it : Recipient) : State :=
  if matchesPhoneNumber P it phoneNumber then
    erasePending it (markResolved it (itemByPhoneNumber cache (remoteUid it)) s)
  else s.

(** [ContactResolverPrivate::addressResolved]. *)
Definition addressResolved (P : Platform) (cache : SeasideCache)
    (first second : string) (item : option CacheItem) (s : State) : State :=
  if isEmpty second then
    emit Warning s
  else if isEmpty first then
    let phoneNumber := phoneNumberMatchDetails P second in
    let s1 := foldl (resolveMatching P cache phoneNumber) s (elements (pending s)) in
    (checkIfFinished s1).2
  else
    let r := mkRecipient first second in
    let s1 := if bool_decide (r ∈ pending s)
              then erasePending r (markResolved r item s) else s in
    (checkIfFinished s1).2.

(** The event loop delivers one queued invocation of [checkIfFinished]. *)
Definition deliverQueued (s : State) : State :=
  match queued s with
  | O => s
  | S n =>
      (checkIfFinished
         (mkState (pending s) (resolving s) (forceResolving s) (recipients s) n (log s))).2
  end.

(** What can happen to a resolver, one event-loop turn at a time. *)
Inductive Op :=
  | OpAdd (cache : SeasideCache) (rs : list Recipient)
  | OpAddressResolved (cache : SeasideCache) (first second : string)
                      (item : option CacheItem)
  | OpDeliverQueued
  | OpSetForceResolving (enabled : bool).

Definition step (P : Platform) (op : Op) (s : State) : option State :=
  match op with
  | OpAdd cache rs => add P cache rs s
  | OpAddressResolved cache first second item =>
      Some (addressResolved P cache first second item s)
  | OpDeliverQueued => Some (deliverQueued s)
  | OpSetForceResolving enabled => Some (setForceResolving enabled s)
  end.

Fixpoint run (P : Platform) (ops : list Op) (s : State) : option State :=
  match ops with
  | [] => Some s
  | op :: rest =>
      match step P op s with
      | Some s1 => run P rest s1
      | None => None
      end
  end.

(** Number of [finished] signals in a log. *)
Definition finishedCount (l : list Effect) : nat :=
  length (filter (λ e, e = Finished) l).

(** Number of directory queries in a log. *)
Definition isQuery (e : Effect) : bool :=
  match e with
  | ResolvePhoneNumber _ | ResolveOnlineAccount _ _ => true
  | _ => false
  end.

Definition queryCount (l : list Effect) : nat :=
  length (filter (λ e, isQuery e = true) l).

(** Number of resolving episodes a run starts: the calls of [add] that find
    the resolver idle. *)
Fixpoint episodesStarted (P : Platform) (ops : list Op) (s : State) : nat :=
  match ops with
  | [] => 0%nat
  | op :: rest =>
      match step P op s with
      | Some s1 =>
          ((match op with
            | OpAdd _ _ => if resolving s then 0 else 1
            | _ => 0
            end) + episodesStarted P rest s1)%nat
      | None => 0%nat
      end
  end.

(** [1] while an episode is open. *)
Definition resolvingBit (s : State) : nat := if resolving s then 1%nat else 0%nat.

(** An idle resolver has nothing pending, and a resolving one with nothing
    pending has a [checkIfFinished] waiting in the event loop. *)
Definition consistent (s : State) : Prop :=
  (resolving s = false → pending s = ∅)
  ∧ (resolving s = true → pending s = ∅ → (0 < queued s)%nat).

(** The directory answers the query for [r] at once. *)
Definition hits (P : Platform) (cache : SeasideCache) (r : Recipient) : Prop :=
  if isPhoneNumber P r then is_Some (resolvePhoneNumber cache (remoteUid r))
  else is_Some (resolveOnlineAccount cache (localUid r) (remoteUid r)).

(** The directory cannot answer the query for [r] at once. *)
Definition misses (P : Platform) (cache : SeasideCache) (r : Recipient) : Prop :=
  if isPhoneNumber P r then resolvePhoneNumber cache (remoteUid r) = None
  else resolveOnlineAccount cache (localUid r) (remoteUid r) = None.

(** The arguments with which the directory reports on the query for [r]:
    a phone number comes back without a local uid. *)
Definition callbackFor (P : Platform) (r : Recipient) : string * string :=
  if isPhoneNumber P r then (EmptyString, remoteUid r) else (localUid r, remoteUid r).

(** The recipient has both uids and the log holds the query for it. *)
Definition queriedFor (r : Recipient) (l : list Effect) : Prop :=
  localUid r ≠ EmptyString ∧ remoteUid r ≠ EmptyString
  ∧ (ResolvePhoneNumber (remoteUid r) ∈ l
     ∨ ResolveOnlineAccount (localUid r) (remoteUid r) ∈ l).

(** Recipients without an address are never pending and never resolved to a
    contact. *)
Definition addressless (r : Recipient) : Prop :=
  localUid r = EmptyString ∨ remoteUid r = EmptyString.

Definition addresslessUnresolved (s : State) : Prop :=
  ∀ r, addressless r →
       (r ∉ pending s) ∧ (recipients s !! r = None ∨ recipients s !! r = Some None).

End ContactResolver.

(** ** recentcontactsmodel.cpp *)

Module RecentContactsModel.

(** Modelled from the spec: the first recipient of an event as the model
    reads it (event.h and recipient.h are missing from the sources): its
    address, the contact id it resolved to ([0] for none) and its address
    capabilities.  An event in a batch or in the list keeps the resolution it
    arrived with. *)
Record EventRecipient := mkEventRecipient {
  address : Recipient;
  contactId : Z;
  capabilities : Z
}.

(** Modelled from the spec: an event, with the single recipient the spec
    gives it. *)
Record Event := mkEvent {
  id : Z;
  endTime : Z;
  category : Z;
  recipient : EventRecipient
}.

(** Declarations of headers that are not part of the sources: the category
    wildcard of event.h, the [RequiredProperty] values of
    recentcontactsmodel.h, the status flags of qtcontacts-sqlite and
    [Recipient::matchesAddressFlags]. *)
Record Declarations := mkDeclarations {
  AnyCategory : Z;
  NoPropertyRequired : Z;
  PhoneNumberRequired : Z;
  EmailAddressRequired : Z;
  AccountUriRequired : Z;
  HasPhoneNumber : Z;
  HasEmailAddress : Z;
  HasOnlineAccount : Z;
  matchesAddressFlags : EventRecipient → Z → bool
}.

(** Signals the model emits and calls it makes into its base class. *)
Inductive Signal :=
  | RemoveRows (first last : Z)
  | InsertRows (first last : Z)
  | ResolveAddedEvents (events : list Event)
  | ModelUpdatedSlot (ready : bool)
  | ResolvingChanged
  | RequiredPropertyChanged
  | ExcludeFavoritesChanged.

(** [RecentContactsModelPrivate], with the members of [EventModelPrivate] it
    uses: the category mask, the limit and the rows under [eventRootItem]. *)
Record Model := mkModel {
  eventCategoryMask : Z;
  queryLimit : Z;
  rows : list Event;
  requiredProperty : Z;
  excludeFavorites : bool;
  addressFlags : Z;
  unresolvedEvents : list Event;
  resolvedEvents : list Event;
  resolvedContactIds : gset Z
}.

(** The constructor, for a given category mask and limit. *)
Definition construct (D : Declarations) (mask limit : Z) : Model :=
  mkModel mask limit [] (NoPropertyRequired D) false 0 [] [] ∅.

(** Modelled from the spec: [eventContact], the contact id of the event's
    recipient ([RecipientList::contactIds] is missing from the sources). *)
Definition eventContact (event : Event) : Z :=
  contactId (recipient event).

(** [contactIsFavorite]; the cache is asked for the contact id cast to
    [quint32]. *)
Definition contactIsFavorite (cache : SeasideCache) (contactId : Z) : bool :=
  match existingItem cache (contactId mod 2 ^ 32) with
  | Some item => isFavorite item
  | None => false
  end.

Definition queueUnresolved (event : Event) (m : Model) : Model :=
  mkModel (eventCategoryMask m) (queryLimit m) (rows m) (requiredProperty m)
          (excludeFavorites m) (addressFlags m)
          (unresolvedEvents m ++ [event]) (resolvedEvents m) (resolvedContactIds m).

Definition acceptResolved (event : Event) (m : Model) : Model :=
  mkModel (eventCategoryMask m) (queryLimit m) (rows m) (requiredProperty m)
          (excludeFavorites m) (addressFlags m)
          (unresolvedEvents m) (resolvedEvents m ++ [event])
          ({[contactId (recipient event)]} ∪ resolvedContactIds m).

Definition setQueues (unresolved resolved : list Event) (ids : gset Z) (m : Model) : Model :=
  mkModel (eventCategoryMask m) (queryLimit m) (rows m) (requiredProperty m)
          (excludeFavorites m) (addressFlags m) unresolved resolved ids.

Definition setRows (rs : list Event) (m : Model) : Model :=
  mkModel (eventCategoryMask m) (queryLimit m) rs (requiredProperty m)
          (excludeFavorites m) (addressFlags m)
          (unresolvedEvents m) (resolvedEvents m) (resolvedContactIds m).

Definition categoryAccepted (D : Declarations) (m : Model) (event : Event) : bool :=
  (eventCategoryMask m =? AnyCategory D)
  || negb (Z.land (category event) (eventCategoryMask m) =? 0).

(** The first loop of [prependEvents], over the incoming events. *)
Fixpoint collectEvents (D : Declarations) (cache : SeasideCache) (resolved : bool)
    (events : list Event) (m : Model) : Model :=
  match events with
  | [] => m
  | event :: rest =>
      if categoryAccepted D m event then
        if negb resolved then
          collectEvents D cache resolved rest (queueUnresolved event m)
        else
          let recipient := recipient event in
          let contactId := contactId recipient in
          if negb (contactId =? 0)
             && negb (bool_decide (contactId ∈ resolvedContactIds m)) then
            if excludeFavorites m && contactIsFavorite cache contactId then
              collectEvents D cache resolved rest m
            else if (addressFlags m =? 0)
                    || matchesAddressFlags D recipient (addressFlags m) then
              let m1 := acceptResolved event m in
              if Z.of_nat (length (resolvedEvents m1)) =? queryLimit m1 then m1
              else collectEvents D cache resolved rest m1
            else collectEvents D cache resolved rest m
          else collectEvents D cache resolved rest m
      else collectEvents D cache resolved rest m
  end.

(** The loop over the existing rows that marks the superseded ones. *)
Fixpoint obsoleteRows (ids : gset Z) (existing : list Event) (row : Z)
    (removeSet : gset Z) : gset Z :=
  match existing with
  | [] => removeSet
  | e :: rest =>
      obsoleteRows ids rest (row + 1)
        (if bool_decide (eventContact e ∈ ids) then {[row]} ∪ removeSet else removeSet)
  end.

(** [while (removeSet.contains(removeIndex)) --removeIndex;].  Each turn
    meets another member of the set, so [S (size removeSet)] turns are
    enough; [None] is a loop cut short. *)
Fixpoint skipRemoved (fuel : nat) (removeSet : gset Z) (removeIndex : Z) : option Z :=
  match fuel with
  | O => None
  | S fuel' =>
      if bool_decide (removeIndex ∈ removeSet)
      then skipRemoved fuel' removeSet (removeIndex - 1)
      else Some removeIndex
  end.

(** [while (trimCount > 0) ...]: every turn that does not break decrements
    [trimCount], which is the argument of the recursion. *)
Fixpoint trimRows (trimCount : nat) (removeIndex : Z) (removeSet : gset Z)
    : option (gset Z) :=
  match trimCount with
  | O => Some removeSet
  | S trimCount' =>
      match skipRemoved (S (size removeSet)) removeSet removeIndex with
      | None => None
      | Some removeIndex1 =>
          if removeIndex1 <? 0 then Some removeSet
          else trimRows trimCount' (removeIndex1 - 1) ({[removeIndex1]} ∪ removeSet)
      end
  end.

(** [QList::at]. *)
Definition at_ (l : list Z) (i : nat) : Z := default 0 (l !! i).

(** The [for] loop that counts how many indices before the last one are
    consecutive.  [remaining] is [count - consecutiveCount], so that the
    index [count - 1 - consecutiveCount] is the predecessor of
    [remaining]. *)
Fixpoint consecutiveRun (remaining : nat) (removeIndices : list Z) (end_ : Z)
    (consecutiveCount : nat) : nat :=
  match remaining with
  | O => consecutiveCount
  | S k =>
      if bool_decide (at_ removeIndices k ≠ end_ - Z.of_nat consecutiveCount)
      then consecutiveCount
      else consecutiveRun k removeIndices end_ (S consecutiveCount)
  end.

(** [EventTreeItem::removeAt]. *)
Definition removeAt (row : Z) (rs : list Event) : list Event :=
  if row <? 0 then rs else delete (Z.to_nat row) rs.

(** [while (end >= start) { removeAt(end); --end; }], which runs
    [end - start + 1] times. *)
Fixpoint removeRange (n : nat) (end_ : Z) (rs : list Event) : list Event :=
  match n with
  | O => rs
  | S k => removeRange k (end_ - 1) (removeAt end_ rs)
  end.

(** The loop that removes the marked rows, one run of adjacent rows at a
    time, from the end.  Every turn shortens [removeIndices]; [None] is a
    loop cut short. *)
Fixpoint removeObsolete (fuel : nat) (removeIndices : list Z) (rs : list Event)
    : option (list Event * list Signal) :=
  match length removeIndices with
  | O => Some (rs, [])
  | S _ as count =>
      match fuel with
      | O => None
      | S fuel' =>
          let end_ := List.last removeIndices 0 in
          let consecutiveCount := consecutiveRun (count - 1) removeIndices end_ 1 in
          let removeIndices1 := take (count - consecutiveCount) removeIndices in
          let start := end_ - Z.of_nat consecutiveCount + 1 in
          match removeObsolete fuel' removeIndices1
                  (removeRange (Z.to_nat (end_ - start + 1)) end_ rs) with
          | Some (rs1, signals) => Some (rs1, RemoveRows start end_ :: signals)
          | None => None
          end
      end
  end.

(** [EventTreeItem::insertChildAt]. *)
Definition insertChildAt (row : nat) (e : Event) (rs : list Event) : list Event :=
  take row rs ++ e :: drop row rs.

(** The loop that inserts the new events, [insertChildAt(start++, ...)]. *)
Fixpoint insertEvents (start : nat) (events : list Event) (rs : list Event) : list Event :=
  match events with
  | [] => rs
  | e :: rest => insertEvents (S start) rest (insertChildAt start e rs)
  end.

(** The block of [prependEvents] under [if (!resolvedEvents.isEmpty())]. *)
Definition mergeResolved (m : Model) : option (Model * list Signal) :=
  match resolvedEvents m with
  | [] => Some (m, [])
  | _ :: _ =>
      let rowCount := Z.of_nat (length (rows m)) in
      let removeSet := obsoleteRows (resolvedContactIds m) (rows m) 0 ∅ in
      match
        (if queryLimit m =? 0 then Some removeSet
         else
           let trimCount := rowCount + Z.of_nat (length (resolvedEvents m))
                            - Z.of_nat (size removeSet) - queryLimit m in
           trimRows (Z.to_nat trimCount) (rowCount - 1) removeSet)
      with
      | None => None
      | Some removeSet1 =>
          let removeIndices := merge_sort Z.le (elements removeSet1) in
          match removeObsolete (length removeIndices) removeIndices (rows m) with
          | None => None
          | Some (rs1, signals) =>
              Some (setQueues (unresolvedEvents m) [] ∅
                      (setRows (insertEvents 0 (resolvedEvents m) rs1) m),
                    signals ++ [InsertRows 0 (Z.of_nat (length (resolvedEvents m)) - 1)])
          end
      end
  end.

(** The end of [prependEvents], under [if (resolved)]. *)
Definition announce (resolved : bool) : list Signal :=
  if resolved then [ModelUpdatedSlot true; ResolvingChanged] else [].

(** [RecentContactsModelPrivate::prependEvents].  The result is the model
    afterwards and the signals of the pass; [None] only if one of the loops
    above were cut short. *)
Definition prependEvents (D : Declarations) (cache : SeasideCache)
    (events : list Event) (resolved : bool) (m : Model)
    : option (Model * list Signal) :=
  let m1 := collectEvents D cache resolved events m in
  match unresolvedEvents m1 with
  | first :: others =>
      if (queryLimit m1 =? 0)
         || (Z.of_nat (length (resolvedEvents m1)) <? queryLimit m1) then
        Some (setQueues others (resolvedEvents m1) (resolvedContactIds m1) m1,
              [ResolveAddedEvents [first]])
      else
        match mergeResolved (setQueues [] (resolvedEvents m1) (resolvedContactIds m1) m1) with
        | Some (m2, signals) => Some (m2, signals ++ announce resolved)
        | None => None
        end
  | [] =>
      match mergeResolved m1 with
      | Some (m2, signals) => Some (m2, signals ++ announce resolved)
      | None => None
      end
  end.

(** [RecentContactsModelPrivate::fillModel] ignores its range, hands its
    events to [prependEvents] and returns [true]. *)
Definition fillModel (D : Declarations) (cache : SeasideCache)
    (start end_ : Z) (events : list Event) (resolved : bool) (m : Model)
    : option (bool * (Model * list Signal)) :=
  match prependEvents D cache events resolved m with
  | Some result => Some (true, result)
  | None => None
  end.

(** A batch as it reaches the model, with the state of the contact cache at
    that moment. *)
Record Batch := mkBatch {
  batchCache : SeasideCache;
  batchEvents : list Event;
  batchResolved : bool
}.

(** No two rows share a contact id other than [0]. *)
Definition uniqueContacts (rs : list Event) : Prop :=
  ∀ i j e1 e2,
    rs !! i = Some e1 → rs !! j = Some e2 →
    eventContact e1 = eventContact e2 → eventContact e1 ≠ 0 → i = j.

(** The rows that are left of [rs], whose first row has the number [row],
    when the rows numbered in [removeSet] are taken out. *)
Fixpoint keepRows (removeSet : gset Z) (rs : list Event) (row : Z) : list Event :=
  match rs with
  | [] => []
  | e :: rest =>
      if bool_decide (row ∈ removeSet) then keepRows removeSet rest (row + 1)
      else e :: keepRows removeSet rest (row + 1)
  end.

(** The row numbers of a list of [rowCount] rows. *)
Definition rowNumbers (rowCount : Z) : gset Z := list_to_set (seqZ 0 rowCount).


Definition wrap64 (x : Z) : Z := x mod 2 ^ 64.

(** The flags [setRequiredProperty] computes from its argument. *)
Definition requiredFlags (D : Declarations) (requiredProperty : Z) : Z :=
  let addressFlags := 0 in
  let addressFlags :=
    if negb (Z.land requiredProperty (PhoneNumberRequired D) =? 0)
    then wrap64 (Z.lor addressFlags (HasPhoneNumber D)) else addressFlags in
  let addressFlags :=
    if negb (Z.land requiredProperty (EmailAddressRequired D) =? 0)
    then wrap64 (Z.lor addressFlags (HasEmailAddress D)) else addressFlags in
  let addressFlags :=
    if negb (Z.land requiredProperty (AccountUriRequired D) =? 0)
    then wrap64 (Z.lor addressFlags (HasOnlineAccount D)) else addressFlags in
  addressFlags.

(** [RecentContactsModel::setRequiredProperty]. *)
Definition setRequiredProperty (D : Declarations) (requiredProperty' : Z) (m : Model)
    : Model * list Signal :=
  let m1 := mkModel (eventCategoryMask m) (queryLimit m) (rows m) (requiredProperty m)
                    (excludeFavorites m) (requiredFlags D requiredProperty')
                    (unresolvedEvents m) (resolvedEvents m) (resolvedContactIds m) in
  if bool_decide (requiredProperty m1 ≠ requiredProperty') then
    (mkModel (eventCategoryMask m1) (queryLimit m1) (rows m1) requiredProperty'
             (excludeFavorites m1) (addressFlags m1)
             (unresolvedEvents m1) (resolvedEvents m1) (resolvedContactIds m1),
     [RequiredPropertyChanged])
  else (m1, []).

(** [RecentContactsModel::setExcludeFavorites]. *)
Definition setExcludeFavorites (exclude : bool) (m : Model) : Model * list Signal :=
  if bool_decide (excludeFavorites m ≠ exclude) then
    (mkModel (eventCategoryMask m) (queryLimit m) (rows m) (requiredProperty m)
             exclude (addressFlags m)
             (unresolvedEvents m) (resolvedEvents m) (resolvedContactIds m),
     [ExcludeFavoritesChanged])
  else (m, []).

(** What the owner of a model does with it: it sets a property or hands it
    a batch. *)
Inductive Call :=
  | SetRequiredProperty (requiredProperty : Z)
  | SetExcludeFavorites (exclude : bool)
  | PrependEvents (b : Batch).

Definition call (D : Declarations) (c : Call) (m : Model) : option (Model * list Signal) :=
  match c with
  | SetRequiredProperty p => Some (setRequiredProperty D p m)
  | SetExcludeFavorites b => Some (setExcludeFavorites b m)
  | PrependEvents b => prependEvents D (batchCache b) (batchEvents b) (batchResolved b) m
  end.

(** A sequence of calls, from first to last. *)
Fixpoint calls (D : Declarations) (cs : list Call) (m : Model) : option Model :=
  match cs with
  | [] => Some m
  | c :: rest =>
      match call D c m with
      | Some (m1, _) => calls D rest m1
      | None => None
      end
  end.

(** Between passes a limited model holds fewer accepted events than its
    limit and no more rows than its limit. *)
Definition bounded (m : Model) : Prop :=
  0 < queryLimit m →
  Z.of_nat (length (resolvedEvents m)) < queryLimit m
  ∧ Z.of_nat (length (rows m)) ≤ queryLimit m.

(** The same after the first loop of a pass, which may fill the accepted
    events up to the limit. *)
Definition filled (m : Model) : Prop :=
  0 < queryLimit m →
  Z.of_nat (length (resolvedEvents m)) ≤ queryLimit m
  ∧ Z.of_nat (length (rows m)) ≤ queryLimit m.

(** The claimed contact ids are the contacts of the accepted events, which
    are distinct and not [0], and so are the contacts of the rows. *)
Definition distinct (m : Model) : Prop :=
  resolvedContactIds m = list_to_set (eventContact <$> resolvedEvents m)
  ∧ NoDup (eventContact <$> resolvedEvents m)
  ∧ Forall (λ e, eventContact e ≠ 0) (resolvedEvents m)
  ∧ NoDup (eventContact <$> rows m)
  ∧ Forall (λ e, eventContact e ≠ 0) (rows m).

(** The address flags are the ones of the required property. *)
Definition flagsCurrent (D : Declarations) (m : Model) : Prop :=
  addressFlags m = requiredFlags D (requiredProperty m).

End RecentContactsModel.

(** ** Sample collaborators and inputs *)

Module Samples.

Import ContactResolver RecentContactsModel.

(** A minimizer that drops the dashes of a number. *)
Fixpoint dropDashes (number : string) : string :=
  match number with
  | EmptyString => EmptyString
  | String c rest =>
      if Ascii.eqb c "-"%char then dropDashes rest else String c (dropDashes rest)
  end.

Definition release : Platform :=
  mkPlatform "/ring/tel" 7 (λ number _, dropDashes number) false.

Definition debug : Platform :=
  mkPlatform "/ring/tel" 7 (λ number _, dropDashes number) true.

(** A cache that knows nobody, and one that knows everybody as contact 5. *)
Definition emptyCache : SeasideCache :=
  mkSeasideCache (λ _, None) (λ _ _, None) (λ _, None) (λ _, None).

Definition alice : CacheItem := mkCacheItem 5 false.

Definition fullCache : SeasideCache :=
  mkSeasideCache (λ _, Some alice) (λ _ _, Some alice) (λ _, Some alice) (λ _, Some alice).

Definition chat : Recipient := mkRecipient "/gabble/jabber" "bob@example.org".
Definition phoneA : Recipient := mkRecipient "/ring/tel/a" "+1555".
Definition phoneB : Recipient := mkRecipient "/ring/tel/b" "+1-555".
Definition noLocal : Recipient := mkRecipient EmptyString "bob@example.org".
Definition noRemote : Recipient := mkRecipient "/gabble/jabber" EmptyString.

(** The declarations as the headers of the library give them. *)
Definition declarations : Declarations :=
  mkDeclarations (-1) 0 1 2 4 1 2 4
    (λ r flags, negb (Z.land (capabilities r) flags =? 0)).

Definition event (id endTime contact : Z) : Event :=
  mkEvent id endTime 1 (mkEventRecipient chat contact 0).

(** A batch answered at once, its queued check, and a query that stays
    pending. *)
Definition twoEpisodes : list Op :=
  [OpAdd fullCache [chat; phoneA; phoneB];
   OpDeliverQueued;
   OpAdd emptyCache [chat]].

(** Three pending queries: two numbers with one match key and a chat
    address. *)
Definition threePending : ContactResolver.State :=
  ContactResolver.mkState {[phoneA; phoneB; chat]} true false ∅ 0%nat [].

(** Three queries that the directory cannot answer at once. *)
Definition threeQueries : list ContactResolver.Op :=
  [OpAdd emptyCache [phoneA; phoneB; chat]].

(** A day of traffic for a model with a limit of two: live batches, a batch
    that needs the resolver, the resolved event coming back, and a change of
    settings in between. *)
Definition busyDay : list Call :=
  [PrependEvents (mkBatch emptyCache [event 1 10 5; event 2 9 7; event 3 8 5] true);
   SetExcludeFavorites true;
   PrependEvents (mkBatch emptyCache [event 4 20 0; event 5 21 0] false);
   PrependEvents (mkBatch emptyCache [event 4 20 9] true);
   PrependEvents (mkBatch emptyCache [event 5 21 7] true);
   PrependEvents (mkBatch emptyCache [event 6 30 11; event 7 31 12; event 8 32 13] true)].

End Samples.

(** ** Reading a diff *)

Module RecentContactsDiff.

Import RecentContactsModel.

(** The row lies in the range of a removal. *)
Definition inRange (x : Z) (signal : Signal) : Prop :=
  match signal with
  | RemoveRows first last => first ≤ x ≤ last
  | _ => False
  end.

(** The row lies in the range of one of the removals. *)
Definition removedBy (signals : list Signal) (x : Z) : Prop :=
  Exists (inRange x) signals.

(** The signals are removals of ranges of rows below [upper], each range
    below the one before it with at least one row between them. *)
Fixpoint descendingRanges (upper : Z) (signals : list Signal) : Prop :=
  match signals with
  | [] => True
  | RemoveRows first last :: rest =>
      0 ≤ first ∧ first ≤ last ∧ last < upper ∧ descendingRanges (first - 1) rest
  | _ :: _ => False
  end.

End RecentContactsDiff.

(** ** recentcontactsmodel.cpp: the slots for contact changes *)

Module RecentContactsSlots.

Import RecentContactsModel.

(** Members of the base class and of event.h that are not part of the
    sources: [EventModelPrivate::deleteFromModel], as what it does to the
    rows when it is given an event id, and whether
    [Event::contactRecipients] is empty. *)
Record EventModelBase := mkEventModelBase {
  deleteFromModel : Z → list Event → list Event;
  contactRecipientsIsEmpty : Event → bool
}.

(** What [deleteFromModel] is relied on for: among rows with distinct event
    ids, it removes the row of the event with the id it is given. *)
Definition deletesItsRow (B : EventModelBase) : Prop :=
  ∀ rs row e,
    NoDup (id <$> rs) → rs !! row = Some e →
    deleteFromModel B (id e) rs = delete row rs.

(** The calls a slot makes into the base class. *)
Inductive BaseCall :=
  | DeleteFromModel (id : Z)
  | BaseContactInfoChanged (recipients : list EventRecipient)
  | BaseContactChanged (recipients : list EventRecipient)
  | BaseContactDetailsChanged (recipients : list EventRecipient).

(** [eventRootItem->eventAt(row)]; there is nothing to read outside the
    rows. *)
Definition eventAt (rs : list Event) (row : Z) : option Event :=
  if row <? 0 then None else rs !! Z.to_nat row.

(** The first loop of [slotContactInfoChanged], over the recipients. *)
Fixpoint nonmatchingIdsOf (D : Declarations) (addressFlags : Z)
    (recipients : list EventRecipient) (nonmatchingIds : gset Z) : gset Z :=
  match recipients with
  | [] => nonmatchingIds
  | recipient :: rest =>
      nonmatchingIdsOf D addressFlags rest
        (if negb (matchesAddressFlags D recipient addressFlags)
         then {[contactId recipient]} ∪ nonmatchingIds else nonmatchingIds)
  end.

(** The loop over the rows in [slotContactInfoChanged].  [remaining] is
    [rowCount - row], which every turn decrements; [None] is a read outside
    the rows. *)
Fixpoint removeNonmatchingRows (B : EventModelBase) (remaining : nat) (row : Z)
    (nonmatchingIds : gset Z) (rs : list Event) : option (list Event * list BaseCall) :=
  match remaining with
  | O => Some (rs, [])
  | S remaining' =>
      match eventAt rs row with
      | None => None
      | Some existing =>
          let contactId := eventContact existing in
          if bool_decide (contactId ∈ nonmatchingIds) then
            let rs1 := deleteFromModel B (id existing) rs in
            let nonmatchingIds1 := nonmatchingIds ∖ {[contactId]} in
            if bool_decide (nonmatchingIds1 = ∅) then
              Some (rs1, [DeleteFromModel (id existing)])
            else
              match removeNonmatchingRows B remaining' row nonmatchingIds1 rs1 with
              | Some (rs2, calls) => Some (rs2, DeleteFromModel (id existing) :: calls)
              | None => None
              end
          else removeNonmatchingRows B remaining' (row + 1) nonmatchingIds rs
      end
  end.

(** The loop of [removeFavorites] over the recipients. *)
Fixpoint favoriteIdsOf (cache : SeasideCache) (recipients : list EventRecipient)
    (favoriteIds : list Z) : list Z :=
  match recipients with
  | [] => favoriteIds
  | recipient :: rest =>
      let contactId := contactId recipient in
      favoriteIdsOf cache rest
        (if contactIsFavorite cache contactId then favoriteIds ++ [contactId]
         else favoriteIds)
  end.

(** The loop of [removeFavorites] over the rows. *)
Fixpoint removeFavoriteRows (B : EventModelBase) (favoriteIds : list Z)
    (remaining : nat) (row : Z) (rs : list Event)
    : option (list Event * list BaseCall) :=
  match remaining with
  | O => Some (rs, [])
  | S remaining' =>
      match eventAt rs row with
      | None => None
      | Some existing =>
          if bool_decide (eventContact existing ∈ favoriteIds) then
            match removeFavoriteRows B favoriteIds remaining' row
                    (deleteFromModel B (id existing) rs) with
            | Some (rs1, calls) => Some (rs1, DeleteFromModel (id existing) :: calls)
            | None => None
            end
          else removeFavoriteRows B favoriteIds remaining' (row + 1) rs
      end
  end.

(** [RecentContactsModelPrivate::removeFavorites]. *)
Definition removeFavorites (B : EventModelBase) (cache : SeasideCache)
    (recipients : list EventRecipient) (m : Model)
    : option (Model * list BaseCall) :=
  let favoriteIds := favoriteIdsOf cache recipients [] in
  match favoriteIds with
  | [] => Some (m, [])
  | _ :: _ =>
      match removeFavoriteRows B favoriteIds (length (rows m)) 0 (rows m) with
      | Some (rs, calls) => Some (setRows rs m, calls)
      | None => None
      end
  end.

(** [RecentContactsModelPrivate::slotContactInfoChanged]. *)
Definition slotContactInfoChanged (D : Declarations) (B : EventModelBase)
    (cache : SeasideCache) (recipients : list EventRecipient) (m : Model)
    : option (Model * list BaseCall) :=
  match
    (if addressFlags m =? 0 then Some (m, [])
     else
       let nonmatchingIds := nonmatchingIdsOf D (addressFlags m) recipients ∅ in
       if bool_decide (nonmatchingIds = ∅) then Some (m, [])
       else
         match removeNonmatchingRows B (length (rows m)) 0 nonmatchingIds (rows m) with
         | Some (rs, calls) => Some (setRows rs m, calls)
         | None => None
         end)
  with
  | None => None
  | Some (m1, calls1) =>
      match (if excludeFavorites m1 then removeFavorites B cache recipients m1
             else Some (m1, [])) with
      | None => None
      | Some (m2, calls2) =>
          Some (m2, calls1 ++ calls2 ++ [BaseContactInfoChanged recipients])
      end
  end.

(** The loop of [slotContactChanged] over the rows. *)
Fixpoint removeContactlessRows (B : EventModelBase) (remaining : nat) (row : Z)
    (rs : list Event) : option (list Event * list BaseCall) :=
  match remaining with
  | O => Some (rs, [])
  | S remaining' =>
      match eventAt rs row with
      | None => None
      | Some existing =>
          if contactRecipientsIsEmpty B existing then
            match removeContactlessRows B remaining' row
                    (deleteFromModel B (id existing) rs) with
            | Some (rs1, calls) => Some (rs1, DeleteFromModel (id existing) :: calls)
            | None => None
            end
          else removeContactlessRows B remaining' (row + 1) rs
      end
  end.

(** [RecentContactsModelPrivate::slotContactChanged]. *)
Definition slotContactChanged (B : EventModelBase)
    (recipients : list EventRecipient) (m : Model)
    : option (Model * list BaseCall) :=
  match removeContactlessRows B (length (rows m)) 0 (rows m) with
  | Some (rs, calls) => Some (setRows rs m, calls ++ [BaseContactChanged recipients])
  | None => None
  end.

(** [RecentContactsModelPrivate::slotContactDetailsChanged]. *)
Definition slotContactDetailsChanged (B : EventModelBase) (cache : SeasideCache)
    (recipients : list EventRecipient) (m : Model)
    : option (Model * list BaseCall) :=
  match (if excludeFavorites m then removeFavorites B cache recipients m
         else Some (m, [])) with
  | None => None
  | Some (m1, calls) => Some (m1, calls ++ [BaseContactDetailsChanged recipients])
  end.

(** The shape that the loops of [removeFavorites] and [slotContactChanged]
    share: delete the row at hand if [p] holds of it, else move on. *)
Fixpoint sweepRows (B : EventModelBase) (p : Event → bool) (remaining : nat) (row : Z)
    (rs : list Event) : option (list Event * list BaseCall) :=
  match remaining with
  | O => Some (rs, [])
  | S remaining' =>
      match eventAt rs row with
      | None => None
      | Some existing =>
          if p existing then
            match sweepRows B p remaining' row (deleteFromModel B (id existing) rs) with
            | Some (rs1, calls) => Some (rs1, DeleteFromModel (id existing) :: calls)
            | None => None
            end
          else sweepRows B p remaining' (row + 1) rs
      end
  end.

(** The deletions of the rows of [rs] that satisfy [p], in order. *)
Definition deletionsOf (p : Event → bool) (rs : list Event) : list BaseCall :=
  (λ e, DeleteFromModel (id e)) <$> filter (λ e, p e = true) rs.

(** An event of a contact of one of [recipients] that does not match the
    address flags, when there are flags to match. *)
Definition noLongerMatches (D : Declarations) (flags : Z)
    (recipients : list EventRecipient) (e : Event) : bool :=
  negb (flags =? 0)
  && bool_decide (eventContact e ∈
       contactId <$> filter (λ r, matchesAddressFlags D r flags = false) recipients).

(** An event of a contact of one of [recipients] that the cache holds as a
    favorite. *)
Definition becameFavorite (cache : SeasideCache)
    (recipients : list EventRecipient) (e : Event) : bool :=
  bool_decide (eventContact e ∈
    contactId <$> filter (λ r, contactIsFavorite cache (contactId r) = true) recipients).

(** A base class for trying things out: [deleteFromModel] removes the first
    row with the id, and an event has contact recipients when its contact id
    is not [0]. *)
Fixpoint deleteFirst (eventId : Z) (rs : list Event) : list Event :=
  match rs with
  | [] => []
  | e :: rest => if id e =? eventId then rest else e :: deleteFirst eventId rest
  end.

Definition sampleBase : EventModelBase :=
  mkEventModelBase deleteFirst (λ e, eventContact e =? 0).

Definition favoritesCache : SeasideCache :=
  mkSeasideCache (λ _, None) (λ _ _, None) (λ _, None)
                 (λ contact, if contact =? 7 then Some (mkCacheItem 7 true) else None).

(** A model that wants phone numbers and no favorites, with three rows. *)
Definition threeRows : Model :=
  mkModel (-1) 0 [Samples.event 1 10 5; Samples.event 2 9 7; Samples.event 3 8 9]
          1 true 1 [] [] ∅.

(** The same with a row whose event has lost its contact. *)
Definition lostContact : Model :=
  mkModel (-1) 0 [Samples.event 1 10 5; Samples.event 2 9 0; Samples.event 3 8 9]
          1 true 1 [] [] ∅.

(** Contact 5 without a phone number and contact 7 with one. *)
Definition changed : list EventRecipient :=
  [mkEventRecipient Samples.chat 5 0; mkEventRecipient Samples.chat 7 1].

End RecentContactsSlots.

(** * The model watcher of the tests (tests/modelwatcher.cpp) *)

Module ModelWatcher.

Import RecentContactsModel.

(** [ModelWatcher].  An [int] counter is a [Z]: a test delivers far fewer
    than [2^31] events.  [m_model] is the address of the watched model. *)
Record Watcher := mkWatcher {
  m_model : option nat;
  m_minCommitCount : Z;
  m_minAddCount : Z;
  m_committedCount : Z;
  m_minDeleteCount : Z;
  m_addedCount : Z;
  m_updatedCount : Z;
  m_deletedCount : Z;
  m_lastAdded : list Event;
  m_lastUpdated : list Event;
  m_lastDeleted : Z;
  m_eventsCommitted : bool;
  m_dbusSignalReceived : bool;
  m_success : bool
}.

(** The constructor.  It leaves [m_minDeleteCount] and [m_success] as they
    happen to be, so they are given. *)
Definition construct (minDeleteCount : Z) (success : bool) : Watcher :=
  mkWatcher None 0 0 0 minDeleteCount 0 0 0 [] [] 0 false false success.

Definition reset (w : Watcher) : Watcher :=
  mkWatcher (m_model w) (m_minCommitCount w) (m_minAddCount w) 0 (m_minDeleteCount w)
            0 0 0 (m_lastAdded w) (m_lastUpdated w) (m_lastDeleted w)
            false false true.

(** [setModel]; the connection it makes shows as the deliveries of
    [EventsCommittedSlot]. *)
Definition setModel (model : nat) (w : Watcher) : Watcher :=
  reset (mkWatcher (Some model) (m_minCommitCount w) (m_minAddCount w)
                   (m_committedCount w) (m_minDeleteCount w) (m_addedCount w)
                   (m_updatedCount w) (m_deletedCount w) (m_lastAdded w)
                   (m_lastUpdated w) (m_lastDeleted w) (m_eventsCommitted w)
                   (m_dbusSignalReceived w) (m_success w)).

Definition isFinished (w : Watcher) : bool :=
  if (0 <=? m_minCommitCount w)
     && ((m_committedCount w =? 0) || (m_committedCount w <? m_minCommitCount w))
  then false
  else if negb (m_dbusSignalReceived w) then false
  else if (m_addedCount w <? m_minAddCount w) || (m_deletedCount w <? m_minDeleteCount w)
  then false
  else true.

Definition eventsCommittedSlot (events : list Event) (successful : bool) (w : Watcher)
    : Watcher :=
  mkWatcher (m_model w) (m_minCommitCount w) (m_minAddCount w)
            (m_committedCount w + (if successful then Z.of_nat (length events) else 0))
            (m_minDeleteCount w) (m_addedCount w) (m_updatedCount w) (m_deletedCount w)
            (m_lastAdded w) (m_lastUpdated w) (m_lastDeleted w)
            (m_eventsCommitted w) (m_dbusSignalReceived w) successful.

Definition eventsAddedSlot (events : list Event) (w : Watcher) : Watcher :=
  mkWatcher (m_model w) (m_minCommitCount w) (m_minAddCount w) (m_committedCount w)
            (m_minDeleteCount w) (m_addedCount w + Z.of_nat (length events))
            (m_updatedCount w) (m_deletedCount w)
            events (m_lastUpdated w) (m_lastDeleted w)
            (m_eventsCommitted w) true (m_success w).

Definition eventsUpdatedSlot (events : list Event) (w : Watcher) : Watcher :=
  mkWatcher (m_model w) (m_minCommitCount w) (m_minAddCount w) (m_committedCount w)
            (m_minDeleteCount w) (m_addedCount w)
            (m_updatedCount w + Z.of_nat (length events)) (m_deletedCount w)
            (m_lastAdded w) events (m_lastDeleted w)
            (m_eventsCommitted w) true (m_success w).

Definition eventDeletedSlot (id : Z) (w : Watcher) : Watcher :=
  mkWatcher (m_model w) (m_minCommitCount w) (m_minAddCount w) (m_committedCount w)
            (m_minDeleteCount w) (m_addedCount w) (m_updatedCount w)
            (m_deletedCount w + 1)
            (m_lastAdded w) (m_lastUpdated w) id
            (m_eventsCommitted w) (m_dbusSignalReceived w) (m_success w).

(** A slot invoked through one of the connections. *)
Inductive Slot :=
  | EventsAddedSlot (events : list Event)
  | EventsUpdatedSlot (events : list Event)
  | EventDeletedSlot (id : Z)
  | EventsCommittedSlot (events : list Event) (successful : bool).

Definition invoke (w : Watcher) (s : Slot) : Watcher :=
  match s with
  | EventsAddedSlot events => eventsAddedSlot events w
  | EventsUpdatedSlot events => eventsUpdatedSlot events w
  | EventDeletedSlot id => eventDeletedSlot id w
  | EventsCommittedSlot events successful => eventsCommittedSlot events successful w
  end.

(** What the event loop has for the watcher: the slots each coming call of
    [QTest::qWait] invokes, in order.  Past its end nothing arrives. *)
Abbreviation Schedule := (list (list Slot)).

Definition processEvents (w : Watcher) (slots : list Slot) : Watcher :=
  foldl invoke w slots.

Definition qWait (st : Watcher * Schedule) : Watcher * Schedule :=
  match st.2 with
  | [] => st
  | slots :: rest => (processEvents st.1 slots, rest)
  end.

(** The loop of [TRY_COUNT]; [remaining] is the number of values that [i]
    has left below [5000], which is [100] at the start. *)
Fixpoint tryLoop (value : Watcher → Z) (expected : Z) (remaining : nat)
    (st : Watcher * Schedule) : Watcher * Schedule :=
  match remaining with
  | O => st
  | S remaining' =>
      if value st.1 <? expected
      then tryLoop value expected remaining' (qWait st)
      else st
  end.

(** The macro [TRY_COUNT(value, expected)], which also updates [re]; the
    warning it prints is left out. *)
Definition TRY_COUNT (value : Watcher → Z) (expected : Z)
    (st : Watcher * Schedule * bool) : Watcher * Schedule * bool :=
  let '(ws, re) := st in
  let ws1 := if value ws.1 <? expected
             then tryLoop value expected 100 (qWait ws) else ws in
  (ws1, re && (value ws1.1 =? expected)).

(** What a wait gives back: its result, the watcher and what is left of the
    schedule. *)
Definition finish (st : Watcher * Schedule * bool) : bool * Watcher * Schedule :=
  let '(ws, re) := st in (re, reset ws.1, ws.2).

Definition waitForCommitted (count : Z) (w : Watcher) (sched : Schedule)
    : bool * Watcher * Schedule :=
  finish (TRY_COUNT m_committedCount count (w, sched, true)).

Definition waitForAdded (count committed : Z) (w : Watcher) (sched : Schedule)
    : bool * Watcher * Schedule :=
  let committed := if committed <? 0 then count else committed in
  finish (TRY_COUNT m_committedCount committed
            (TRY_COUNT m_addedCount count (w, sched, true))).

Definition waitForUpdated (count : Z) (w : Watcher) (sched : Schedule)
    : bool * Watcher * Schedule :=
  finish (TRY_COUNT m_committedCount count
            (TRY_COUNT m_updatedCount count (w, sched, true))).

Definition waitForDeleted (count : Z) (w : Watcher) (sched : Schedule)
    : bool * Watcher * Schedule :=
  finish (TRY_COUNT m_deletedCount count (w, sched, true)).

(** The watcher after the first [k] calls of [qWait]. *)
Definition turns (k : nat) (w : Watcher) (sched : Schedule) : Watcher :=
  processEvents w (concat (take k sched)).

(** What the slots of a list add to each counter. *)
Definition addedBy (s : Slot) : Z :=
  match s with EventsAddedSlot events => Z.of_nat (length events) | _ => 0 end.

Definition updatedBy (s : Slot) : Z :=
  match s with EventsUpdatedSlot events => Z.of_nat (length events) | _ => 0 end.

Definition deletedBy (s : Slot) : Z :=
  match s with EventDeletedSlot _ => 1 | _ => 0 end.

Definition committedBy (s : Slot) : Z :=
  match s with
  | EventsCommittedSlot events true => Z.of_nat (length events)
  | _ => 0
  end.

Definition total (f : Slot → Z) (slots : list Slot) : Z :=
  foldr (λ s n, f s + n) 0 slots.

(** A slot that the listener's signals for added or updated events invoke. *)
Definition isDBusSlot (s : Slot) : bool :=
  match s with EventsAddedSlot _ | EventsUpdatedSlot _ => true | _ => false end.

(** Two commits, an addition and a deletion, spread over three turns of the
    event loop. *)
Definition threeTurns : Schedule :=
  [[EventsCommittedSlot [Samples.event 1 10 5] true];
   [EventsAddedSlot [Samples.event 1 10 5; Samples.event 2 9 7];
    EventDeletedSlot 3];
   [EventsCommittedSlot [Samples.event 2 9 7] true]].

End ModelWatcher.

(** * Properties of the contact resolver *)

Module ContactResolverProofs.

Import RecipientModel ContactResolver.

Lemma finishedCount_app (l1 l2 : list Effect) :
  finishedCount (l1 ++ l2) = (finishedCount l1 + finishedCount l2)%nat.
Proof. unfold finishedCount. by rewrite filter_app, length_app. Qed.

Lemma finishedCount_snoc (l : list Effect) (e : Effect) :
  finishedCount (l ++ [e])
  = (finishedCount l + if bool_decide (e = Finished) then 1 else 0)%nat.
Proof.
  rewrite finishedCount_app. f_equal. unfold finishedCount.
  rewrite filter_cons, filter_nil. by destruct e.
Qed.

Lemma queryCount_app (l1 l2 : list Effect) :
  queryCount (l1 ++ l2) = (queryCount l1 + queryCount l2)%nat.
Proof. unfold queryCount. by rewrite filter_app, length_app. Qed.

Lemma isEmpty_true (x : string) : isEmpty x = true ↔ x = EmptyString.
Proof. unfold isEmpty. by rewrite bool_decide_eq_true. Qed.

Lemma isEmpty_false (x : string) : isEmpty x = false ↔ x ≠ EmptyString.
Proof. unfold isEmpty. by rewrite bool_decide_eq_false. Qed.

(** *** What a single [resolve] can change *)

Lemma resolve_frame P cache r s s' :
  resolve P cache r s = Some s' →
  resolving s' = resolving s ∧ forceResolving s' = forceResolving s
  ∧ queued s' = queued s ∧ pending s ⊆ pending s'
  ∧ finishedCount (log s') = finishedCount (log s).
Proof.
  unfold resolve. intros H.
  repeat (case_match; simplify_eq; simpl;
          rewrite ?finishedCount_app; simpl;
          try (split_and!; (done || lia || set_solver))).
Qed.

Lemma resolveAll_frame P cache rs : ∀ s s',
  resolveAll P cache rs s = Some s' →
  resolving s' = resolving s ∧ forceResolving s' = forceResolving s
  ∧ queued s' = queued s ∧ pending s ⊆ pending s'
  ∧ finishedCount (log s') = finishedCount (log s).
Proof.
  induction rs as [|r rs IH]; simpl; intros s s' H.
  - by simplify_eq.
  - destruct (resolve P cache r s) as [s1|] eqn:E; [|done].
    apply resolve_frame in E as (?&?&?&?&?).
    apply IH in H as (?&?&?&?&?).
    split_and!; [congruence|congruence|congruence|set_solver|congruence].
Qed.

(** *** The loop over the pending set in [addressResolved] *)

Lemma foldl_resolveMatching P cache key (l : list Recipient) : ∀ s,
  let s' := foldl (resolveMatching P cache key) s l in
  resolving s' = resolving s ∧ forceResolving s' = forceResolving s
  ∧ queued s' = queued s ∧ log s' = log s
  ∧ (∀ r, r ∈ pending s' ↔
          r ∈ pending s ∧ ¬ (r ∈ l ∧ matchesPhoneNumber P r key = true))
  ∧ (∀ r, recipients s' !! r =
          if bool_decide (r ∈ l ∧ matchesPhoneNumber P r key = true)
          then Some (itemByPhoneNumber cache (remoteUid r))
          else recipients s !! r).
Proof.
  induction l as [|x l IH]; intros s; simpl.
  { split; [done|]. split; [done|]. split; [done|]. split; [done|]. split.
    - intros r. rewrite elem_of_nil. naive_solver.
    - done. }
  destruct (IH (resolveMatching P cache key s x)) as (H1&H2&H3&H4&H5&H6).
  clear IH. unfold resolveMatching in *.
  destruct (matchesPhoneNumber P x key) eqn:Hx; simpl in *.
  - split; [done|]. split; [done|]. split; [done|]. split; [done|]. split.
    + intros r. rewrite H5, elem_of_difference, elem_of_singleton, elem_of_cons.
      split; [|naive_solver].
      intros [[? ?] ?]. split; [done|]. intros [[->|?] ?]; naive_solver.
    + intros r. rewrite H6. unfold setResolved.
      destruct (decide (r = x)) as [->|Hne].
      * rewrite lookup_insert_eq.
        rewrite (bool_decide_eq_true_2 (x ∈ x :: l ∧ _)); [|split; [left|done]].
        by case_bool_decide.
      * rewrite lookup_insert_ne by done.
        assert (Heq : (r ∈ l ∧ matchesPhoneNumber P r key = true)
                      ↔ (r ∈ x :: l ∧ matchesPhoneNumber P r key = true)).
        { rewrite elem_of_cons. naive_solver. }
        by rewrite (bool_decide_ext _ _ Heq).
  - split; [done|]. split; [done|]. split; [done|]. split; [done|]. split.
    + intros r. rewrite H5, elem_of_cons. split; [|naive_solver].
      intros [? ?]. split; [done|]. intros [[->|?] ?]; [congruence|naive_solver].
    + intros r. rewrite H6.
      assert (Heq : (r ∈ l ∧ matchesPhoneNumber P r key = true)
                    ↔ (r ∈ x :: l ∧ matchesPhoneNumber P r key = true)).
      { rewrite elem_of_cons. split; [naive_solver|].
        intros [[->|?] ?]; [congruence|naive_solver]. }
      by rewrite (bool_decide_ext _ _ Heq).
Qed.

(** *** Counting [finished] against the episodes started *)

Lemma checkIfFinished_count s :
  (finishedCount (log (checkIfFinished s).2) + resolvingBit (checkIfFinished s).2
   = finishedCount (log s) + resolvingBit s)%nat.
Proof.
  unfold checkIfFinished, resolvingBit.
  destruct (resolving s) eqn:Hr; simpl; [|by rewrite Hr].
  case_bool_decide; simpl; [|by rewrite Hr].
  rewrite finishedCount_snoc. simpl. lia.
Qed.

Lemma step_count P op s s' :
  step P op s = Some s' →
  (finishedCount (log s') + resolvingBit s'
   = finishedCount (log s) + resolvingBit s
     + match op with
       | OpAdd _ _ => if resolving s then 0 else 1
       | _ => 0
       end)%nat.
Proof.
  destruct op as [cache rs|cache first second item| |enabled]; simpl; intros H.
  - unfold add in H.
    destruct (resolveAll P cache rs s) as [s1|] eqn:E; [|done].
    apply resolveAll_frame in E as (Hr&_&_&_&Hf). simplify_eq.
    unfold checkIfFinishedAsynchronously, resolvingBit.
    rewrite Hr. destruct (resolving s) eqn:Hs; [rewrite Hr; lia|].
    case_bool_decide; simpl; lia.
  - simplify_eq. unfold addressResolved.
    destruct (isEmpty second).
    { unfold resolvingBit. simpl. rewrite finishedCount_snoc. simpl. lia. }
    destruct (isEmpty first).
    + rewrite checkIfFinished_count.
      destruct (foldl_resolveMatching P cache
                  (phoneNumberMatchDetails P second) (elements (pending s)) s)
        as (Hr&_&_&Hl&_).
      unfold resolvingBit. rewrite Hr, Hl. lia.
    + rewrite checkIfFinished_count. unfold resolvingBit.
      case_bool_decide; simpl; lia.
  - simplify_eq. unfold deliverQueued.
    destruct (queued s); [lia|].
    rewrite checkIfFinished_count. unfold resolvingBit. simpl. lia.
  - simplify_eq. unfold resolvingBit. simpl. lia.
Qed.

Lemma run_count P ops : ∀ s s',
  run P ops s = Some s' →
  (finishedCount (log s') + resolvingBit s'
   = finishedCount (log s) + resolvingBit s + episodesStarted P ops s)%nat.
Proof.
  induction ops as [|op ops IH]; simpl; intros s s' H.
  - simplify_eq. lia.
  - destruct (step P op s) as [s1|] eqn:E; [|done].
    apply step_count in E. apply IH in H. lia.
Qed.

(** *** The invariant of the state machine *)

Lemma checkIfFinished_consistent s :
  (resolving s = false → pending s = ∅) →
  consistent (checkIfFinished s).2.
Proof.
  unfold checkIfFinished, consistent. intros H.
  destruct (resolving s) eqn:Hr; simpl.
  - case_bool_decide; simpl; [done|]. rewrite Hr. naive_solver.
  - rewrite Hr. naive_solver.
Qed.

Lemma step_consistent P op s s' :
  step P op s = Some s' → consistent s → consistent s'.
Proof.
  destruct op as [cache rs|cache first second item| |enabled]; simpl;
    intros H [I1 I2].
  - unfold add in H.
    destruct (resolveAll P cache rs s) as [s1|] eqn:E; [|done].
    apply resolveAll_frame in E as (Hr&_&Hq&Hp&_). simplify_eq.
    unfold checkIfFinishedAsynchronously, consistent.
    destruct (resolving s1) eqn:H1.
    + rewrite H1. split; [done|]. intros _ He.
      rewrite Hq. apply I2; [congruence|]. set_solver.
    + case_bool_decide; simpl; split; (done || lia).
  - simplify_eq. unfold addressResolved.
    destruct (isEmpty second); [done|].
    destruct (isEmpty first).
    + apply checkIfFinished_consistent.
      destruct (foldl_resolveMatching P cache
                  (phoneNumberMatchDetails P second) (elements (pending s)) s)
        as (Hr&_&_&_&Hp&_).
      rewrite Hr. intros Hs. specialize (I1 Hs).
      apply set_eq. intros r. rewrite Hp, I1. set_solver.
    + apply checkIfFinished_consistent.
      case_bool_decide; simpl; [|done].
      intros Hs. rewrite (I1 Hs). set_solver.
  - simplify_eq. unfold deliverQueued.
    pose proof (conj I1 I2 : consistent s) as Hc. clear I2.
    destruct (queued s); [exact Hc|].
    by apply checkIfFinished_consistent.
  - by simplify_eq.
Qed.

Lemma run_consistent P ops : ∀ s s',
  run P ops s = Some s' → consistent s → consistent s'.
Proof.
  induction ops as [|op ops IH]; simpl; intros s s' H Hs.
  - by simplify_eq.
  - destruct (step P op s) as [s1|] eqn:E; [|done].
    eauto using step_consistent.
Qed.

Lemma init_consistent : consistent init.
Proof. split; [done|]. simpl. done. Qed.

(** *** A batch without misses *)

Lemma resolve_hit P cache r s :
  pending s = ∅ → localUid r ≠ EmptyString → hits P cache r →
  ∃ s1, resolve P cache r s = Some s1 ∧ pending s1 = ∅.
Proof.
  intros Hp Hl Hh. unfold resolve, hits in *.
  apply isEmpty_false in Hl. rewrite Hl, andb_false_r. simpl.
  destruct (negb (forceResolving s) && _); [by eauto|].
  destruct (isEmpty (remoteUid r)); [by eauto|].
  case_bool_decide; [by eauto|].
  destruct (isPhoneNumber P r); destruct Hh as [item ->]; eauto.
Qed.

Lemma resolveAll_hits P cache rs : ∀ s,
  pending s = ∅ →
  Forall (λ r, localUid r ≠ EmptyString ∧ hits P cache r) rs →
  ∃ s1, resolveAll P cache rs s = Some s1 ∧ pending s1 = ∅.
Proof.
  induction rs as [|r rs IH]; simpl; intros s Hp Hall; [by eauto|].
  apply Forall_cons in Hall as [[Hl Hh] Hall].
  destruct (resolve_hit P cache r s Hp Hl Hh) as (s1 & -> & Hp1).
  by apply IH.
Qed.

(** C3.  From the constructor on, every run of the resolver that is not
    aborted has emitted one [finished] per episode started (one fewer while an
    episode is open); a resolver that is resolving with nothing pending still
    has its check queued in the event loop; [add] itself never emits
    [finished]; and a batch of any size whose queries are all answered at
    once, submitted to an idle resolver, leaves one check behind whose
    delivery emits the one [finished] of the episode. *)
Theorem finished_once_per_episode P ops s :
  run P ops init = Some s →
  (finishedCount (log s) + resolvingBit s)%nat = episodesStarted P ops init
  ∧ (resolving s = true → pending s = ∅ → (0 < queued s)%nat)
  ∧ (∀ cache rs s1, add P cache rs s = Some s1 →
       finishedCount (log s1) = finishedCount (log s))
  ∧ (∀ cache rs, resolving s = false →
       Forall (λ r, localUid r ≠ EmptyString ∧ hits P cache r) rs →
       ∃ s1, add P cache rs s = Some s1
             ∧ resolving s1 = true ∧ pending s1 = ∅
             ∧ finishedCount (log s1) = finishedCount (log s)
             ∧ log (deliverQueued s1) = log s1 ++ [Finished]
             ∧ finishedCount (log (deliverQueued s1)) = S (finishedCount (log s))
             ∧ resolving (deliverQueued s1) = false).
Proof.
  intros Hrun.
  pose proof (run_count P ops init s Hrun) as Hcount.
  pose proof (run_consistent P ops init s Hrun init_consistent) as [I1 I2].
  split; [simpl in Hcount; lia|]. split; [done|]. split.
  - intros cache rs s1 Hadd. unfold add in Hadd.
    destruct (resolveAll P cache rs s) as [s0|] eqn:E; [|done].
    apply resolveAll_frame in E as (_&_&_&_&Hf). simplify_eq.
    unfold checkIfFinishedAsynchronously.
    destruct (resolving s0); [done|]. by case_bool_decide.
  - intros cache rs Hidle Hall.
    destruct (resolveAll_hits P cache rs s (I1 Hidle) Hall) as (s0 & E & Hp0).
    pose proof (resolveAll_frame P cache rs s s0 E) as (Hr&_&_&_&Hf).
    unfold add. rewrite E. eexists. split; [done|].
    unfold checkIfFinishedAsynchronously. rewrite Hr, Hidle.
    rewrite bool_decide_eq_true_2 by done. simpl.
    unfold deliverQueued, checkIfFinished. simpl.
    rewrite bool_decide_eq_true_2 by done. simpl.
    rewrite finishedCount_snoc. simpl.
    split_and!; try done. lia.
Qed.

Lemma finished_once_per_episode_witness :
  ∃ s, run Samples.release Samples.twoEpisodes init = Some s
       ∧ (finishedCount (log s) + resolvingBit s)%nat
         = episodesStarted Samples.release Samples.twoEpisodes init.
Proof.
  eexists. split; [vm_compute; reflexivity|].
  exact (proj1 (finished_once_per_episode Samples.release Samples.twoEpisodes _ eq_refl)).
Defined.

(** *** Deduplication of queries in flight *)

Lemma queryCount_snoc (l : list Effect) (e : Effect) :
  queryCount (l ++ [e]) = (queryCount l + if isQuery e then 1 else 0)%nat.
Proof.
  rewrite queryCount_app. f_equal. unfold queryCount.
  rewrite filter_cons, filter_nil. by destruct e.
Qed.

Lemma checkIfFinished_frame s :
  pending (checkIfFinished s).2 = pending s
  ∧ recipients (checkIfFinished s).2 = recipients s
  ∧ forceResolving (checkIfFinished s).2 = forceResolving s
  ∧ queued (checkIfFinished s).2 = queued s
  ∧ queryCount (log (checkIfFinished s).2) = queryCount (log s).
Proof.
  unfold checkIfFinished. destruct (resolving s && _); simpl; [|done].
  rewrite queryCount_snoc. simpl. split_and!; (done || lia).
Qed.

Lemma matches_own_number P r :
  isPhoneNumber P r = true →
  matchesPhoneNumber P r (phoneNumberMatchDetails P (remoteUid r)) = true.
Proof.
  intros H. unfold matchesPhoneNumber, phoneNumberMatchDetails.
  rewrite H. simpl. by apply bool_decide_eq_true_2.
Qed.

(** What the callback for [r] does to [r] itself. *)
Lemma addressResolved_own P cache r item s :
  remoteUid r ≠ EmptyString → localUid r ≠ EmptyString → r ∈ pending s →
  let s' := addressResolved P cache (callbackFor P r).1 (callbackFor P r).2 item s in
  (r ∉ pending s')
  ∧ recipients s' !! r
    = Some (if isPhoneNumber P r then itemByPhoneNumber cache (remoteUid r) else item)
  ∧ queryCount (log s') = queryCount (log s).
Proof.
  intros Hrem Hloc Hin. unfold callbackFor, addressResolved.
  apply isEmpty_false in Hrem, Hloc.
  destruct (isPhoneNumber P r) eqn:Hph; simpl; rewrite Hrem.
  - change (isEmpty EmptyString) with true. simpl.
    destruct (checkIfFinished_frame
                (foldl (resolveMatching P cache (phoneNumberMatchDetails P (remoteUid r)))
                       s (elements (pending s)))) as (->&->&_&_&->).
    destruct (foldl_resolveMatching P cache (phoneNumberMatchDetails P (remoteUid r))
                (elements (pending s)) s) as (_&_&_&->&Hp&Hs).
    pose proof (matches_own_number P r Hph) as Hm.
    assert (Hel : r ∈ elements (pending s)) by by apply elem_of_elements.
    split_and!; [rewrite Hp; naive_solver| |done].
    rewrite Hs. by rewrite bool_decide_eq_true_2.
  - rewrite Hloc. destruct r as [l u]; simpl in *.
    rewrite bool_decide_eq_true_2 by done.
    destruct (checkIfFinished_frame
                (erasePending (mkRecipient l u) (markResolved (mkRecipient l u) item s)))
      as (->&->&_&_&->).
    simpl. unfold setResolved. rewrite lookup_insert_eq.
    split_and!; [set_solver|done|done].
Qed.

(** C5.  A pair that is submitted while the directory cannot answer is
    queried once and becomes pending; submitting the same pair again, whatever
    the directory would say by then, changes nothing, so there is no second
    query; and the callback for the pair resolves it, for every recipient with
    that pair, to one outcome. *)
Theorem dedup_in_flight P c1 c2 c3 r item s :
  localUid r ≠ EmptyString → remoteUid r ≠ EmptyString → r ∉ pending s →
  (forceResolving s = true ∨ recipients s !! r = None) →
  misses P c1 r →
  ∃ s1, resolve P c1 r s = Some s1
        ∧ queryCount (log s1) = S (queryCount (log s))
        ∧ r ∈ pending s1
        ∧ ∀ r', localUid r' = localUid r → remoteUid r' = remoteUid r →
            resolve P c2 r' s1 = Some s1
            ∧ let s2 := addressResolved P c3 (callbackFor P r).1 (callbackFor P r).2
                          item s1 in
              (r' ∉ pending s2)
              ∧ isContactResolved (recipients s2) r' = true
              ∧ recipients s2 !! r'
                = Some (if isPhoneNumber P r
                        then itemByPhoneNumber c3 (remoteUid r) else item)
              ∧ queryCount (log s2) = S (queryCount (log s)).
Proof.
  intros Hloc Hrem Hnp Hun Hmiss.
  assert (Hfirst : (negb (forceResolving s) && isContactResolved (recipients s) r) = false).
  { destruct Hun as [->|Hn]; [done|]. unfold isContactResolved.
    rewrite Hn, bool_decide_eq_false_2, andb_false_r; [done|]. by intros [? ?]. }
  pose proof Hloc as Hl. apply isEmpty_false in Hl.
  pose proof Hrem as Hr. apply isEmpty_false in Hr.
  unfold misses in Hmiss.
  assert (Hres : ∃ e, isQuery e = true
                      ∧ resolve P c1 r s = Some (insertPending r (emit e s))).
  { unfold resolve. rewrite Hfirst, Hl, Hr, andb_false_r. simpl.
    rewrite bool_decide_eq_false_2 by done.
    destruct (isPhoneNumber P r); rewrite Hmiss;
      (eexists; split; [|reflexivity]; reflexivity). }
  destruct Hres as (e & He & Hres). eexists. split; [exact Hres|].
  split; [simpl; rewrite queryCount_snoc, He; lia|].
  split; [simpl; set_solver|].
  intros r' Hl' Hr'.
  assert (r' = r) as -> by (destruct r, r'; simpl in *; congruence).
  split.
  - unfold resolve. simpl.
    replace (negb (forceResolving s) && isContactResolved (recipients s) r) with false.
    rewrite Hl, Hr, andb_false_r. simpl.
    by rewrite bool_decide_eq_true_2 by set_solver.
  - assert (Hin : r ∈ pending (insertPending r (emit e s))) by (simpl; set_solver).
    destruct (addressResolved_own P c3 r item _ Hrem Hloc Hin) as (H1 & H2 & H3).
    split; [done|]. split.
    { unfold isContactResolved. rewrite H2. by apply bool_decide_eq_true_2. }
    split; [done|]. rewrite H3. simpl. rewrite queryCount_snoc, He. lia.
Qed.

Lemma dedup_in_flight_witness :
  ∃ s1, resolve Samples.release Samples.emptyCache Samples.phoneA init = Some s1
        ∧ queryCount (log s1) = 1%nat
        ∧ Samples.phoneA ∈ pending s1
        ∧ ∀ r', localUid r' = localUid Samples.phoneA →
                remoteUid r' = remoteUid Samples.phoneA →
            resolve Samples.release Samples.fullCache r' s1 = Some s1
            ∧ let s2 := addressResolved Samples.release Samples.fullCache
                          (callbackFor Samples.release Samples.phoneA).1
                          (callbackFor Samples.release Samples.phoneA).2
                          (Some Samples.alice) s1 in
              (r' ∉ pending s2)
              ∧ isContactResolved (recipients s2) r' = true
              ∧ recipients s2 !! r'
                = Some (if isPhoneNumber Samples.release Samples.phoneA
                        then itemByPhoneNumber Samples.fullCache
                               (remoteUid Samples.phoneA)
                        else Some Samples.alice)
              ∧ queryCount (log s2) = 1%nat.
Proof.
  apply (dedup_in_flight Samples.release Samples.emptyCache Samples.fullCache
           Samples.fullCache Samples.phoneA (Some Samples.alice) init).
  - discriminate.
  - discriminate.
  - simpl. apply not_elem_of_empty.
  - right. apply lookup_empty.
  - reflexivity.
Defined.

(** *** Resolution by match key *)

(** C6.  A callback without a local uid and with a number resolves every
    pending entry that matches the number's key to the best match for that
    entry's own number and erases it from the pending set; every other
    recipient keeps its place and its resolution. *)
Theorem phone_fan_out P cache second item s :
  second ≠ EmptyString →
  let key := phoneNumberMatchDetails P second in
  let s' := addressResolved P cache EmptyString second item s in
  ∀ r, if bool_decide (r ∈ pending s) && matchesPhoneNumber P r key
       then (r ∉ pending s')
            ∧ recipients s' !! r = Some (itemByPhoneNumber cache (remoteUid r))
       else (r ∈ pending s' ↔ r ∈ pending s)
            ∧ recipients s' !! r = recipients s !! r.
Proof.
  intros Hsec key s' r. subst s'. unfold addressResolved.
  apply isEmpty_false in Hsec. rewrite Hsec.
  change (isEmpty EmptyString) with true. simpl. fold key.
  destruct (checkIfFinished_frame
              (foldl (resolveMatching P cache key) s (elements (pending s))))
    as (->&->&_).
  destruct (foldl_resolveMatching P cache key (elements (pending s)) s)
    as (_&_&_&_&Hp&Hs).
  rewrite Hs.
  assert (Hiff : (r ∈ elements (pending s) ∧ matchesPhoneNumber P r key = true)
                 ↔ bool_decide (r ∈ pending s) && matchesPhoneNumber P r key = true).
  { rewrite elem_of_elements, andb_true_iff, bool_decide_eq_true. done. }
  destruct (bool_decide (r ∈ pending s) && matchesPhoneNumber P r key) eqn:Hb.
  - rewrite bool_decide_eq_true_2 by by apply Hiff. split; [|done].
    rewrite Hp. naive_solver.
  - rewrite bool_decide_eq_false_2 by (rewrite Hiff; congruence).
    split; [|done]. rewrite Hp, Hiff. naive_solver.
Qed.

Lemma phone_fan_out_witness :
  let s' := addressResolved Samples.release Samples.fullCache EmptyString "+1555" None
              Samples.threePending in
  ((Samples.phoneA ∉ pending s')
   ∧ recipients s' !! Samples.phoneA = Some (Some Samples.alice))
  ∧ ((Samples.phoneB ∉ pending s')
     ∧ recipients s' !! Samples.phoneB = Some (Some Samples.alice))
  ∧ ((Samples.chat ∈ pending s' ↔ Samples.chat ∈ pending Samples.threePending)
     ∧ recipients s' !! Samples.chat = recipients Samples.threePending !! Samples.chat).
Proof.
  assert (Hsec : "+1555" ≠ EmptyString) by discriminate.
  pose proof (phone_fan_out Samples.release Samples.fullCache "+1555" None
                Samples.threePending Hsec) as H.
  split; [exact (H Samples.phoneA)|].
  split; [exact (H Samples.phoneB)|exact (H Samples.chat)].
Defined.

(** *** Recipients without an address *)

Lemma resolve_addressless P cache r0 s s' :
  resolve P cache r0 s = Some s' →
  addresslessUnresolved s → addresslessUnresolved s'.
Proof.
  unfold resolve, addresslessUnresolved, addressless. intros H Hs r Hr.
  destruct (Hs r Hr) as [Hp Hn].
  destruct (negb (forceResolving s) && _); [by simplify_eq|].
  destruct (assertionsEnabled P && _); [done|].
  destruct (isEmpty (localUid r0) || isEmpty (remoteUid r0)) eqn:He.
  { simplify_eq. simpl. split; [done|]. unfold setResolved.
    destruct (decide (r0 = r)) as [->|Hne].
    - rewrite lookup_insert_eq. by right.
    - by rewrite lookup_insert_ne. }
  apply orb_false_iff in He as [H1 H2].
  apply isEmpty_false in H1, H2.
  assert (r0 ≠ r) by (intros ->; naive_solver).
  case_bool_decide; [by simplify_eq|].
  destruct (isPhoneNumber P r0).
  - destruct (resolvePhoneNumber cache (remoteUid r0)); simplify_eq; simpl;
      unfold setResolved; rewrite ?lookup_insert_ne by done;
      (split; [set_solver|done]).
  - destruct (resolveOnlineAccount cache (localUid r0) (remoteUid r0));
      simplify_eq; simpl;
      unfold setResolved; rewrite ?lookup_insert_ne by done;
      (split; [set_solver|done]).
Qed.

Lemma resolveAll_addressless P cache rs : ∀ s s',
  resolveAll P cache rs s = Some s' →
  addresslessUnresolved s → addresslessUnresolved s'.
Proof.
  induction rs as [|r rs IH]; simpl; intros s s' H Hs; [by simplify_eq|].
  destruct (resolve P cache r s) as [s1|] eqn:E; [|done].
  eauto using resolve_addressless.
Qed.

Lemma frame_addressless s s' :
  pending s' = pending s → recipients s' = recipients s →
  addresslessUnresolved s → addresslessUnresolved s'.
Proof. unfold addresslessUnresolved. intros -> ->. done. Qed.

Lemma step_addressless P op s s' :
  step P op s = Some s' → addresslessUnresolved s → addresslessUnresolved s'.
Proof.
  destruct op as [cache rs|cache first second item| |enabled]; simpl; intros H Hs.
  - unfold add in H.
    destruct (resolveAll P cache rs s) as [s1|] eqn:E; [|done]. simplify_eq.
    apply resolveAll_addressless in E; [|done].
    revert E. apply frame_addressless;
      unfold checkIfFinishedAsynchronously;
      destruct (resolving s1); try done; by case_bool_decide.
  - simplify_eq. unfold addressResolved.
    destruct (isEmpty second) eqn:Hsec; [by apply (frame_addressless s)|].
    destruct (isEmpty first).
    + destruct (checkIfFinished_frame
                  (foldl (resolveMatching P cache (phoneNumberMatchDetails P second))
                         s (elements (pending s)))) as (Hp&Hr&_).
      eapply frame_addressless; [exact Hp|exact Hr|].
      destruct (foldl_resolveMatching P cache (phoneNumberMatchDetails P second)
                  (elements (pending s)) s) as (_&_&_&_&Hp'&Hs').
      intros r Hr'. destruct (Hs r Hr') as [Hnp Hn].
      rewrite Hp', Hs'. split; [naive_solver|].
      rewrite bool_decide_eq_false_2; [done|].
      rewrite elem_of_elements. naive_solver.
    + match goal with |- addresslessUnresolved (checkIfFinished ?x).2 =>
        destruct (checkIfFinished_frame x) as (Hp&Hr&_);
        eapply frame_addressless; [exact Hp|exact Hr|] end.
      case_bool_decide as Hin; [|done].
      intros r Hr'. destruct (Hs r Hr') as [Hnp Hn]. simpl.
      assert (mkRecipient first second ≠ r) by (intros <-; done).
      unfold setResolved. rewrite lookup_insert_ne by done.
      split; [set_solver|done].
  - simplify_eq. unfold deliverQueued. destruct (queued s); [done|].
    match goal with |- addresslessUnresolved (checkIfFinished ?x).2 =>
      destruct (checkIfFinished_frame x) as (Hp&Hr&_);
      eapply frame_addressless; [exact Hp|exact Hr|] end.
    done.
  - by simplify_eq.
Qed.

Lemma run_addressless P ops : ∀ s s',
  run P ops s = Some s' → addresslessUnresolved s → addresslessUnresolved s'.
Proof.
  induction ops as [|op ops IH]; simpl; intros s s' H Hs; [by simplify_eq|].
  destruct (step P op s) as [s1|] eqn:E; [|done].
  eauto using step_addressless.
Qed.

Lemma init_addressless : addresslessUnresolved init.
Proof. intros r _. simpl. split; [set_solver|]. left. apply lookup_empty. Qed.

Lemma resolve_keeps_others P cache r0 r s s' :
  resolve P cache r0 s = Some s' → r ≠ r0 →
  recipients s' !! r = recipients s !! r.
Proof.
  unfold resolve. intros H Hne.
  repeat case_match; simplify_eq; simpl; unfold setResolved;
    by rewrite ?lookup_insert_ne.
Qed.

Lemma resolve_asserts P cache r t :
  assertionsEnabled P = true → localUid r = EmptyString →
  (forceResolving t = true ∨ isContactResolved (recipients t) r = false) →
  resolve P cache r t = None.
Proof.
  intros Hassert Hl Hun. unfold resolve.
  apply isEmpty_true in Hl. rewrite Hassert, Hl. simpl.
  destruct Hun as [-> | ->]; [done|]. by rewrite andb_false_r.
Qed.

Lemma resolveAll_asserts P cache r rs : ∀ t,
  assertionsEnabled P = true → localUid r = EmptyString →
  (forceResolving t = true ∨ isContactResolved (recipients t) r = false) →
  r ∈ rs →
  resolveAll P cache rs t = None.
Proof.
  induction rs as [|r0 rs IH]; intros t Hassert Hl Hun Hin; simpl.
  { by apply elem_of_nil in Hin. }
  destruct (resolve P cache r0 t) as [t1|] eqn:Hres; [|done].
  destruct (decide (r = r0)) as [->|Hne].
  { by rewrite (resolve_asserts P cache r0 t Hassert Hl Hun) in Hres. }
  apply elem_of_cons in Hin as [?|Hin]; [done|].
  apply IH; [done|done| |done].
  destruct (resolve_frame P cache r0 t t1 Hres) as (_ & Hforce & _).
  rewrite Hforce. unfold isContactResolved.
  by rewrite (resolve_keeps_others P cache r0 r t t1 Hres Hne).
Qed.

(** C7, as far as the code goes.  In every state the resolver reaches, a
    recipient without a local or without a remote uid is resolved to nothing
    by [resolve], with no query and no pending entry, and the submit
    succeeds, provided the local uid is there or assertions are compiled
    out.  With assertions compiled in, a recipient without a local uid that
    is not resolved yet (or is submitted while resolving is forced) trips the
    assertion in whatever state it is submitted, alone or anywhere in a
    batch: the submit does not return. *)
Theorem addressless_resolves_to_nothing P ops s cache r :
  run P ops init = Some s →
  addressless r →
  ((assertionsEnabled P = false ∨ localUid r ≠ EmptyString) →
   ∃ s', resolve P cache r s = Some s'
         ∧ recipients s' !! r = Some None
         ∧ contactId (recipients s') r = 0
         ∧ log s' = log s
         ∧ pending s' = pending s
         ∧ (r ∉ pending s')
         ∧ add P cache [r] s = Some (checkIfFinishedAsynchronously s'))
  ∧ (assertionsEnabled P = true → localUid r = EmptyString →
     ∀ t, (forceResolving t = true ∨ isContactResolved (recipients t) r = false) →
          resolve P cache r t = None
          ∧ add1 P cache r t = None
          ∧ ∀ rs, r ∈ rs → add P cache rs t = None).
Proof.
  intros Hrun Hr. split.
  - intros Hok.
    destruct (run_addressless P ops init s Hrun init_addressless r Hr) as [Hnp Hn].
    assert (Hassert : assertionsEnabled P && isEmpty (localUid r) = false).
    { destruct Hok as [->|Hl]; [done|].
      apply isEmpty_false in Hl. by rewrite Hl, andb_false_r. }
    assert (Hempty : isEmpty (localUid r) || isEmpty (remoteUid r) = true).
    { destruct Hr as [Hl|Hl]; apply isEmpty_true in Hl; rewrite Hl;
        by rewrite ?orb_true_r. }
    assert (Hres : ∃ s', resolve P cache r s = Some s'
                         ∧ recipients s' !! r = Some None
                         ∧ log s' = log s ∧ pending s' = pending s).
    { unfold resolve. rewrite Hassert, Hempty.
      destruct (negb (forceResolving s) && isContactResolved (recipients s) r) eqn:Hf.
      - eexists. split; [done|]. split; [|done].
        apply andb_true_iff in Hf as [_ Hf]. unfold isContactResolved in Hf.
        apply bool_decide_eq_true in Hf as [x Hx].
        destruct Hn; congruence.
      - eexists. split; [done|]. simpl. unfold setResolved.
        by rewrite lookup_insert_eq. }
    destruct Hres as (s' & Hres & Hst & Hlog & Hp).
    exists s'. split; [done|]. split; [done|].
    split; [by unfold contactId; rewrite Hst|].
    split; [done|]. split; [done|]. split; [by rewrite Hp|].
    unfold add. simpl. by rewrite Hres.
  - intros Hassert Hl t Hun.
    split; [by apply resolve_asserts|].
    split; [unfold add1; by rewrite resolve_asserts|].
    intros rs Hin. unfold add. by rewrite (resolveAll_asserts P cache r rs t).
Qed.

Lemma addressless_resolves_to_nothing_witness :
  (∃ s s', run Samples.debug Samples.threeQueries init = Some s
         ∧ resolve Samples.debug Samples.fullCache Samples.noRemote s = Some s'
         ∧ recipients s' !! Samples.noRemote = Some None
         ∧ contactId (recipients s') Samples.noRemote = 0
         ∧ log s' = log s
         ∧ pending s' = pending s
         ∧ (Samples.noRemote ∉ pending s')
         ∧ add Samples.debug Samples.fullCache [Samples.noRemote] s
           = Some (checkIfFinishedAsynchronously s'))
  ∧ (resolve Samples.debug Samples.fullCache Samples.noLocal init = None
     ∧ add1 Samples.debug Samples.fullCache Samples.noLocal init = None
     ∧ ∀ rs, Samples.noLocal ∈ rs →
             add Samples.debug Samples.fullCache rs init = None).
Proof.
  destruct (run Samples.debug Samples.threeQueries init) as [s|] eqn:Hrun;
    [|vm_compute in Hrun; discriminate].
  split.
  - destruct (proj1 (addressless_resolves_to_nothing Samples.debug Samples.threeQueries s
                Samples.fullCache Samples.noRemote Hrun (or_intror eq_refl))
                (or_intror (λ H : localUid Samples.noRemote = EmptyString,
                              eq_ind "/gabble/jabber"
                                (λ x, match x with EmptyString => False | _ => True end)
                                I _ H)))
      as (s' & H).
    exists s, s'. split; [reflexivity|exact H].
  - apply (proj2 (addressless_resolves_to_nothing Samples.debug Samples.threeQueries s
             Samples.fullCache Samples.noLocal Hrun (or_introl eq_refl))
             eq_refl eq_refl init).
    right. reflexivity.
Defined.

(** C7 as the spec states it fails where assertions are compiled in: a
    recipient without a local uid trips the assertion of [resolve], and the
    submit does not return. *)
Lemma empty_localUid_trips_assertion :
  addressless Samples.noLocal
  ∧ resolve Samples.debug Samples.emptyCache Samples.noLocal init = None
  ∧ add1 Samples.debug Samples.emptyCache Samples.noLocal init = None
  ∧ add Samples.debug Samples.emptyCache [Samples.noLocal] init = None.
Proof. split; [by left|]. by vm_compute. Qed.

(** *** The check after a callback *)

(** C8, as far as the code goes.  A callback without a remote uid only logs a
    warning.  After every other callback the check runs: the resolver is
    resolving afterwards exactly if it was resolving and something is still
    pending, and [finished] is emitted exactly if it was resolving and nothing
    is pending any more. *)
Theorem finished_check_after_callback P cache first second item s :
  let s' := addressResolved P cache first second item s in
  if isEmpty second then s' = emit Warning s
  else resolving s' = resolving s && negb (bool_decide (pending s' = ∅))
       ∧ log s' = log s ++ (if resolving s && bool_decide (pending s' = ∅)
                            then [Finished] else []).
Proof.
  simpl. unfold addressResolved.
  destruct (isEmpty second); [done|].
  assert (Hcheck : ∀ s1, resolving s1 = resolving s → log s1 = log s →
            resolving (checkIfFinished s1).2
            = resolving s && negb (bool_decide (pending (checkIfFinished s1).2 = ∅))
            ∧ log (checkIfFinished s1).2
              = log s ++ (if resolving s
                             && bool_decide (pending (checkIfFinished s1).2 = ∅)
                          then [Finished] else [])).
  { intros s1 Hr Hl. unfold checkIfFinished. rewrite Hr.
    destruct (resolving s) eqn:Hs; simpl.
    - case_bool_decide as Hp; simpl.
      + rewrite bool_decide_eq_true_2 by done. by rewrite Hl.
      + rewrite bool_decide_eq_false_2 by done. by rewrite Hr, Hl, app_nil_r.
    - by rewrite Hr, Hl, app_nil_r. }
  destruct (isEmpty first).
  - destruct (foldl_resolveMatching P cache (phoneNumberMatchDetails P second)
                (elements (pending s)) s) as (Hr&_&_&Hl&_).
    by apply Hcheck.
  - apply Hcheck; by case_bool_decide.
Qed.

(** C8 as the spec states it fails for the malformed callback: a resolver
    that is resolving with nothing pending stays so, and no [finished] is
    emitted, because the function returns before the check. *)
Lemma malformed_callback_skips_check :
  ∃ s, add Samples.release Samples.fullCache [Samples.chat] init = Some s
       ∧ resolving s = true ∧ pending s = ∅
       ∧ let s' := addressResolved Samples.release Samples.fullCache
                     "/gabble/jabber" EmptyString None s in
         pending s' = ∅ ∧ resolving s' = true ∧ log s' = log s ++ [Warning]
         ∧ finishedCount (log s') = 0%nat.
Proof. eexists. split; [by vm_compute|]. by vm_compute. Qed.

End ContactResolverProofs.

(** * Properties of the recent-contacts model *)

Module RecentContactsModelProofs.

Import RecentContactsModel.

(** *** The first loop *)


(** *** A worked ingestion *)



(** *** What the first loop leaves alone *)

Lemma collectEvents_frame D cache resolved events : ∀ m,
  let m1 := collectEvents D cache resolved events m in
  eventCategoryMask m1 = eventCategoryMask m ∧ queryLimit m1 = queryLimit m
  ∧ rows m1 = rows m ∧ requiredProperty m1 = requiredProperty m
  ∧ excludeFavorites m1 = excludeFavorites m ∧ addressFlags m1 = addressFlags m.
Proof.
  induction events as [|e events IH]; intros m; simpl; [done|].
  repeat case_match; try apply IH; try done.
  - destruct (IH (queueUnresolved e m)) as (?&?&?&?&?&?). done.
  - destruct (IH (acceptResolved e m)) as (?&?&?&?&?&?). done.
Qed.

Lemma collectEvents_unresolved D cache events : ∀ m,
  let m1 := collectEvents D cache false events m in
  resolvedEvents m1 = resolvedEvents m
  ∧ resolvedContactIds m1 = resolvedContactIds m.
Proof.
  induction events as [|e events IH]; intros m; simpl; [done|].
  case_match; [|apply IH].
  destruct (IH (queueUnresolved e m)) as [? ?]. done.
Qed.

Lemma collectEvents_grows D cache resolved events : ∀ m,
  let m1 := collectEvents D cache resolved events m in
  resolvedEvents m `prefix_of` resolvedEvents m1
  ∧ resolvedContactIds m ⊆ resolvedContactIds m1.
Proof.
  induction events as [|e events IH]; intros m; simpl; [done|].
  assert (Hacc : resolvedEvents m `prefix_of` resolvedEvents (acceptResolved e m)
                 ∧ resolvedContactIds m ⊆ resolvedContactIds (acceptResolved e m)).
  { simpl. split; [by apply prefix_app_r|set_solver]. }
  repeat case_match;
    first [ apply IH
          | exact Hacc
          | apply (IH (queueUnresolved e m))
          | destruct (IH (acceptResolved e m)) as [Hp Hs], Hacc as [Hp' Hs'];
            split; [by etrans|by etrans] ].
Qed.

(** *** A pass that waits for the resolver *)

(** C9.  When the first loop leaves unresolved events queued and the accepted
    events do not reach the limit, or there is no limit, the pass takes the
    first queued event, hands it to the resolver and returns: that hand-over
    is its only signal, the rows and the configuration are as before, the
    rest of the queue and the accepted events with their contact ids stay for
    the next pass, and they still begin with what earlier passes had
    accepted. *)
Theorem unresolved_pass_defers_merge D cache events resolved m first others :
  unresolvedEvents (collectEvents D cache resolved events m) = first :: others →
  (queryLimit m = 0
   ∨ Z.of_nat (length (resolvedEvents (collectEvents D cache resolved events m)))
     < queryLimit m) →
  let m1 := collectEvents D cache resolved events m in
  prependEvents D cache events resolved m
  = Some (setQueues others (resolvedEvents m1) (resolvedContactIds m1) m,
          [ResolveAddedEvents [first]])
  ∧ rows (setQueues others (resolvedEvents m1) (resolvedContactIds m1) m) = rows m
  ∧ resolvedEvents m `prefix_of` resolvedEvents m1
  ∧ resolvedContactIds m ⊆ resolvedContactIds m1
  ∧ (if resolved then True
     else resolvedEvents m1 = resolvedEvents m
          ∧ resolvedContactIds m1 = resolvedContactIds m).
Proof.
  intros Hq Hlimit m1.
  destruct (collectEvents_frame D cache resolved events m) as (H1&H2&H3&H4&H5&H6).
  fold m1 in Hq, Hlimit, H1, H2, H3, H4, H5, H6.
  split.
  - unfold prependEvents. fold m1. rewrite Hq, H2.
    assert ((queryLimit m =? 0)
            || (Z.of_nat (length (resolvedEvents m1)) <? queryLimit m) = true) as ->.
    { apply orb_true_iff. destruct Hlimit; [left|right]; lia. }
    do 2 f_equal. unfold setQueues. by rewrite H1, H2, H3, H4, H5, H6.
  - split; [done|].
    destruct (collectEvents_grows D cache resolved events m) as [? ?].
    split; [done|]. split; [done|].
    destruct resolved; [done|]. apply collectEvents_unresolved.
Qed.

Lemma unresolved_pass_defers_merge_witness :
  let m := mkModel (-1) 2 [Samples.event 1 10 5] 0 false 0 [] [Samples.event 2 9 7]
                   {[7]} in
  prependEvents Samples.declarations Samples.emptyCache
    [Samples.event 3 20 0; Samples.event 4 21 0] false m
  = Some (mkModel (-1) 2 [Samples.event 1 10 5] 0 false 0 [Samples.event 4 21 0]
                  [Samples.event 2 9 7] {[7]},
          [ResolveAddedEvents [Samples.event 3 20 0]]).
Proof.
  intros m.
  assert (Hq : unresolvedEvents
                 (collectEvents Samples.declarations Samples.emptyCache false
                    [Samples.event 3 20 0; Samples.event 4 21 0] m)
               = Samples.event 3 20 0 :: [Samples.event 4 21 0]) by reflexivity.
  assert (Hlimit : queryLimit m = 0
                   ∨ Z.of_nat (length (resolvedEvents
                        (collectEvents Samples.declarations Samples.emptyCache false
                           [Samples.event 3 20 0; Samples.event 4 21 0] m)))
                     < queryLimit m) by (right; reflexivity).
  exact (proj1 (unresolved_pass_defers_merge Samples.declarations Samples.emptyCache
                  _ false m _ _ Hq Hlimit)).
Defined.

(** *** The setters *)

Lemma call_flagsCurrent D c m m' signals :
  call D c m = Some (m', signals) → flagsCurrent D m → flagsCurrent D m'.
Proof.
  unfold flagsCurrent. destruct c as [p|b|b]; simpl; intros H Hm.
  - unfold setRequiredProperty in H. simpl in H.
    destruct (decide (requiredProperty m = p)) as [Hp|Hp].
    + rewrite bool_decide_eq_false_2 in H by (intros Hn; by apply Hn).
      simplify_eq. simpl. done.
    + rewrite bool_decide_eq_true_2 in H by done. by simplify_eq.
  - unfold setExcludeFavorites in H.
    destruct (bool_decide (excludeFavorites m ≠ b)); by simplify_eq.
  - unfold prependEvents in H.
    destruct (collectEvents_frame D (batchCache b) (batchResolved b) (batchEvents b) m)
      as (_&_&_&Hp&_&Hf).
    revert H. generalize dependent (collectEvents D (batchCache b) (batchResolved b)
                                      (batchEvents b) m).
    intros m1 Hp Hf H.
    assert (Hmerge : ∀ m2 m3 sg, mergeResolved m2 = Some (m3, sg) →
              requiredProperty m3 = requiredProperty m2
              ∧ addressFlags m3 = addressFlags m2).
    { intros m2 m3 sg. unfold mergeResolved.
      repeat case_match; intros; by simplify_eq. }
    repeat case_match; simplify_eq; simpl; try congruence;
      match goal with
      | Hm : mergeResolved _ = Some _ |- _ => apply Hmerge in Hm as [-> ->]
      end; simpl; congruence.
Qed.

Lemma calls_flagsCurrent D cs : ∀ m m',
  calls D cs m = Some m' → flagsCurrent D m → flagsCurrent D m'.
Proof.
  induction cs as [|c cs IH]; simpl; intros m m' H Hm; [by simplify_eq|].
  destruct (call D c m) as [[m1 sg]|] eqn:E; [|done].
  eauto using call_flagsCurrent.
Qed.

(** C10.  In a model that was constructed and then used, setting the required
    property or the favorite exclusion to the value it has changes nothing
    and emits nothing; in general each setter emits its signal exactly when
    the argument differs from the stored value, and stores the argument.
    The flags of [NoPropertyRequired] are assumed empty, as the constructor
    assumes. *)
Theorem setters_idempotent D mask limit cs m :
  requiredFlags D (NoPropertyRequired D) = 0 →
  calls D cs (construct D mask limit) = Some m →
  setRequiredProperty D (requiredProperty m) m = (m, [])
  ∧ setExcludeFavorites (excludeFavorites m) m = (m, [])
  ∧ (∀ p, (setRequiredProperty D p m).2
          = (if bool_decide (requiredProperty m ≠ p)
             then [RequiredPropertyChanged] else [])
          ∧ requiredProperty (setRequiredProperty D p m).1 = p
          ∧ addressFlags (setRequiredProperty D p m).1 = requiredFlags D p)
  ∧ (∀ b, (setExcludeFavorites b m).2
          = (if bool_decide (excludeFavorites m ≠ b)
             then [ExcludeFavoritesChanged] else [])
          ∧ excludeFavorites (setExcludeFavorites b m).1 = b).
Proof.
  intros Hnone Hcalls.
  assert (Hm : flagsCurrent D m).
  { eapply calls_flagsCurrent; [exact Hcalls|].
    unfold flagsCurrent. simpl. by rewrite Hnone. }
  unfold flagsCurrent in Hm.
  split; [|split; [|split]].
  - unfold setRequiredProperty. simpl.
    rewrite bool_decide_eq_false_2 by (intros H; by apply H).
    rewrite <- Hm. by destruct m.
  - unfold setExcludeFavorites.
    by rewrite bool_decide_eq_false_2 by (intros H; by apply H).
  - intros p. unfold setRequiredProperty. simpl.
    case_bool_decide as Hp; simpl; done.
  - intros b. unfold setExcludeFavorites.
    case_bool_decide as Hb; simpl; done.
Qed.

Lemma setters_idempotent_witness :
  ∃ m, calls Samples.declarations
         [SetRequiredProperty 3; SetExcludeFavorites true;
          PrependEvents (mkBatch Samples.emptyCache [Samples.event 1 10 5] true)]
         (construct Samples.declarations (-1) 2) = Some m
       ∧ setRequiredProperty Samples.declarations (requiredProperty m) m = (m, [])
       ∧ setExcludeFavorites (excludeFavorites m) m = (m, []).
Proof.
  eexists. split; [vm_compute; reflexivity|].
  pose proof (setters_idempotent Samples.declarations (-1) 2
                [SetRequiredProperty 3; SetExcludeFavorites true;
                 PrependEvents (mkBatch Samples.emptyCache [Samples.event 1 10 5] true)]
                _ eq_refl eq_refl) as (H1 & H2 & _).
  split; [exact H1|exact H2].
Defined.

(** *** Removing the marked rows *)

Lemma removeRange_foldr n : ∀ end_ rs,
  removeRange n end_ rs = foldr removeAt rs (seqZ (end_ - Z.of_nat n + 1) (Z.of_nat n)).
Proof.
  induction n as [|n IH]; intros end_ rs; [done|].
  rewrite seqZ_S, foldr_app. simpl. rewrite IH.
  replace (end_ - Z.of_nat (S n) + 1 + Z.of_nat n) with end_ by lia.
  do 2 f_equal. lia.
Qed.

Lemma drop_pred_last (l : list Z) :
  l ≠ [] → drop (length l - 1) l = [List.last l 0].
Proof.
  induction l as [|a [|b l] IH]; intros Hne; [done|done|].
  specialize (IH ltac:(done)). simpl length in *.
  replace (S (S (length l)) - 1)%nat with (S (length l)) by lia.
  replace (S (length l) - 1)%nat with (length l) in IH by lia.
  exact IH.
Qed.

Lemma consecutiveRun_spec (l : list Z) end_ : ∀ k c,
  (k + c)%nat = length l →
  drop k l = seqZ (end_ - Z.of_nat c + 1) (Z.of_nat c) →
  let cc := consecutiveRun k l end_ c in
  (c ≤ cc ≤ length l)%nat
  ∧ drop (length l - cc) l = seqZ (end_ - Z.of_nat cc + 1) (Z.of_nat cc).
Proof.
  induction k as [|k IH]; intros c Hlen Hdrop; simpl.
  - split; [lia|]. by replace (length l - c)%nat with 0%nat by lia.
  - case_bool_decide as Hat.
    + split; [lia|]. by replace (length l - c)%nat with (S k) by lia.
    + destruct (lookup_lt_is_Some_2 l k) as [v Hv]; [lia|].
      unfold at_ in Hat. rewrite Hv in Hat. simpl in Hat. subst v.
      destruct (IH (S c)) as [H1 H2]; [lia| |split; [lia|done]].
      rewrite (drop_S _ _ _ Hv), Hdrop.
      rewrite (seqZ_cons (end_ - Z.of_nat (S c) + 1)) by lia.
      f_equal; [lia|]. f_equal; lia.
Qed.

Lemma removeObsolete_foldr fuel : ∀ l rs,
  (length l ≤ fuel)%nat →
  ∃ signals, removeObsolete fuel l rs = Some (foldr removeAt rs l, signals).
Proof.
  induction fuel as [|fuel IH]; intros l rs Hfuel.
  - destruct l; [|simpl in Hfuel; lia]. by eexists.
  - destruct l as [|a l']; [by eexists|].
    set (l := a :: l') in *.
    assert (Hne : l ≠ []) by done.
    unfold removeObsolete; fold removeObsolete.
    change (length l) with (S (length l')).
    cbv zeta.
    set (end_ := List.last l 0).
    replace (S (length l') - 1)%nat with (length l - 1)%nat by (simpl; lia).
    destruct (consecutiveRun_spec l end_ (length l - 1) 1) as [Hcc Hdrop].
    { simpl. lia. }
    { rewrite drop_pred_last by done. rewrite seqZ_cons, seqZ_nil by lia.
      f_equal. lia. }
    replace (S (length l')) with (length l) by done.
    set (cc := consecutiveRun (length l - 1) l end_ 1) in *.
    replace (Z.to_nat (end_ - (end_ - Z.of_nat cc + 1) + 1)) with cc by lia.
    destruct (IH (take (length l - cc) l) (removeRange cc end_ rs)) as [sg Hsg].
    { rewrite length_take. simpl in *. lia. }
    rewrite Hsg. eexists. do 2 f_equal.
    rewrite removeRange_foldr, <- Hdrop, <- foldr_app.
    by rewrite take_drop.
Qed.

(** *** The rows that are left *)

Lemma keepRows_ext X Y rs : ∀ row,
  (∀ x, row ≤ x → x ∈ X ↔ x ∈ Y) →
  keepRows X rs row = keepRows Y rs row.
Proof.
  induction rs as [|e rs IH]; intros row H; simpl; [done|].
  rewrite (IH (row + 1)) by (intros; apply H; lia).
  rewrite (bool_decide_ext _ _ (H row (Z.le_refl row))). done.
Qed.

Lemma keepRows_none X rs : ∀ row,
  (∀ x, row ≤ x → x ∉ X) → keepRows X rs row = rs.
Proof.
  induction rs as [|e rs IH]; intros row H; simpl; [done|].
  rewrite bool_decide_eq_false_2 by (apply H; lia).
  f_equal. apply IH. intros; apply H; lia.
Qed.

Lemma removeAt_keepRows X a rs : ∀ row,
  row ≤ a → (∀ x, x ∈ X → a < x) →
  removeAt (a - row) (keepRows X rs row) = keepRows ({[a]} ∪ X) rs row.
Proof.
  induction rs as [|e rs IH]; intros row Hrow Hlt; simpl.
  { unfold removeAt. by case_match. }
  rewrite bool_decide_eq_false_2 by (intros Hin; apply Hlt in Hin; lia).
  destruct (decide (a = row)) as [->|Hne].
  - rewrite bool_decide_eq_true_2 by set_solver.
    replace (row - row) with 0 by lia. unfold removeAt. simpl.
    apply keepRows_ext. intros x Hx. rewrite elem_of_union, elem_of_singleton.
    split; [by right|]. intros [->|?]; [lia|done].
  - rewrite bool_decide_eq_false_2.
    2:{ rewrite elem_of_union, elem_of_singleton.
        intros [->|Hin]; [done|]. apply Hlt in Hin. lia. }
    rewrite <- (IH (row + 1)) by (done || lia).
    unfold removeAt.
    replace (a - row <? 0) with false by lia.
    replace (a - (row + 1) <? 0) with false by lia.
    replace (Z.to_nat (a - row)) with (S (Z.to_nat (a - (row + 1)))) by lia.
    done.
Qed.

Lemma foldr_removeAt_keepRows (l : list Z) rs :
  StronglySorted Z.lt l → Forall (λ x, 0 ≤ x) l →
  foldr removeAt rs l = keepRows (list_to_set l) rs 0.
Proof.
  induction 1 as [|a l Hsorted IH Hlt]; intros Hpos; simpl.
  - symmetry. apply keepRows_none. set_solver.
  - apply Forall_cons in Hpos as [Ha Hpos].
    rewrite IH by done.
    rewrite <- (removeAt_keepRows _ a rs 0); [by rewrite Z.sub_0_r|done|].
    intros x Hx. apply elem_of_list_to_set in Hx.
    rewrite Forall_forall in Hlt. by apply Hlt.
Qed.

Lemma StronglySorted_le_lt (l : list Z) :
  StronglySorted Z.le l → NoDup l → StronglySorted Z.lt l.
Proof.
  induction 1 as [|a l Hsorted IH Hle]; intros Hnd; constructor.
  - apply IH. by apply NoDup_cons in Hnd as [_ ?].
  - apply NoDup_cons in Hnd as [Hnotin _].
    rewrite Forall_forall in *. intros x Hx.
    specialize (Hle x Hx). assert (a ≠ x) by (intros ->; done). lia.
Qed.

(** Sorting the members of the set and removing them from the end leaves
    the rows whose number is not in the set. *)
Lemma removeObsolete_spec (X : gset Z) rs :
  (∀ x, x ∈ X → 0 ≤ x) →
  let removeIndices := merge_sort Z.le (elements X) in
  ∃ signals,
    removeObsolete (length removeIndices) removeIndices rs
    = Some (keepRows X rs 0, signals).
Proof.
  intros Hpos l.
  destruct (removeObsolete_foldr (length l) l rs) as [sg Hsg]; [done|].
  exists sg. rewrite Hsg. do 2 f_equal.
  assert (Hperm : l ≡ₚ elements X) by apply merge_sort_Permutation.
  rewrite foldr_removeAt_keepRows.
  - apply keepRows_ext. intros x _.
    by rewrite elem_of_list_to_set, Hperm, elem_of_elements.
  - apply StronglySorted_le_lt.
    + apply StronglySorted_merge_sort; apply _.
    + rewrite Hperm. apply NoDup_elements.
  - rewrite Forall_forall. intros x Hx. apply Hpos.
    by rewrite Hperm, elem_of_elements in Hx.
Qed.

Lemma keepRows_elem X rs e : ∀ row,
  e ∈ keepRows X rs row →
  ∃ i, rs !! i = Some e ∧ row + Z.of_nat i ∉ X.
Proof.
  induction rs as [|e' rs IH]; intros row; simpl; [by rewrite elem_of_nil|].
  assert (Hrest : e ∈ keepRows X rs (row + 1) →
                  ∃ i, (e' :: rs) !! i = Some e ∧ row + Z.of_nat i ∉ X).
  { intros Hin. destruct (IH _ Hin) as (i & Hi & Hn).
    exists (S i). split; [done|].
    by replace (row + Z.of_nat (S i)) with (row + 1 + Z.of_nat i) by lia. }
  case_bool_decide as Hrow; [done|].
  rewrite elem_of_cons. intros [->|Hin]; [|by auto].
  exists 0%nat. split; [done|]. by rewrite Z.add_0_r.
Qed.

Lemma keepRows_sublist X rs : ∀ row, keepRows X rs row `sublist_of` rs.
Proof.
  induction rs as [|e rs IH]; intros row; simpl; [done|].
  case_bool_decide; [by apply sublist_cons|by apply sublist_skip].
Qed.

Lemma keepRows_length X rs : ∀ row,
  (∀ x, x ∈ X → row ≤ x < row + Z.of_nat (length rs)) →
  (length (keepRows X rs row) + size X)%nat = length rs.
Proof.
  revert X. induction rs as [|e rs IH]; intros X row H; simpl.
  - assert (X = ∅) as ->.
    { apply set_eq. intros x. split; [|set_solver].
      intros Hx. apply H in Hx. simpl in Hx. lia. }
    by rewrite size_empty.
  - case_bool_decide as Hrow.
    + rewrite (keepRows_ext X (X ∖ {[row]})) by (intros x Hx; set_solver by lia).
      assert (Hsize : size X = S (size (X ∖ {[row]}))).
      { assert (HX : X = {[row]} ∪ X ∖ {[row]}).
        { apply set_eq. intros x.
          rewrite elem_of_union, elem_of_singleton, elem_of_difference,
            elem_of_singleton.
          destruct (decide (x = row)); naive_solver. }
        rewrite HX at 1. rewrite size_union by set_solver.
        by rewrite size_singleton. }
      rewrite Hsize, <- (IH (X ∖ {[row]}) (row + 1)); [lia|].
      intros x Hx. apply elem_of_difference in Hx as [Hx Hne].
      rewrite elem_of_singleton in Hne. apply H in Hx. simpl in Hx. lia.
    + simpl. rewrite <- (IH X (row + 1)); [lia|].
      intros x Hx. assert (x ≠ row) by (intros ->; done).
      apply H in Hx. simpl in Hx. lia.
Qed.

(** *** Marking the rows *)

Lemma elem_of_rowNumbers rowCount x : x ∈ rowNumbers rowCount ↔ 0 ≤ x < rowCount.
Proof.
  unfold rowNumbers. rewrite elem_of_list_to_set, elem_of_seqZ. lia.
Qed.

Lemma size_rowNumbers rowCount : size (rowNumbers rowCount) = Z.to_nat rowCount.
Proof.
  unfold rowNumbers. rewrite size_list_to_set by apply NoDup_seqZ.
  apply length_seqZ.
Qed.

Lemma elem_of_obsoleteRows ids rs x : ∀ row X,
  x ∈ obsoleteRows ids rs row X ↔
  x ∈ X ∨ ∃ i e, rs !! i = Some e ∧ x = row + Z.of_nat i ∧ eventContact e ∈ ids.
Proof.
  induction rs as [|e rs IH]; intros row X; simpl.
  - split; [by left|]. intros [?|(i & e & Hi & _)]; [done|].
    by rewrite lookup_nil in Hi.
  - rewrite IH. split.
    + intros [Hx|(i & e' & Hi & -> & Hin)].
      * case_bool_decide as Hc; [|by left].
        apply elem_of_union in Hx as [Hx|Hx]; [|by left].
        apply elem_of_singleton in Hx as ->.
        right. exists 0%nat, e. split; [done|]. split; [lia|done].
      * right. exists (S i), e'. split; [done|]. split; [lia|done].
    + intros [Hx|(i & e' & Hi & -> & Hin)].
      * left. case_bool_decide; set_solver.
      * destruct i as [|i]; simpl in Hi.
        -- simplify_eq. left. rewrite bool_decide_eq_true_2 by done.
           rewrite Z.add_0_r. set_solver.
        -- right. exists i, e'. split; [done|]. split; [lia|done].
Qed.

Lemma skipRemoved_total (X : gset Z) : ∀ fuel (i : Z),
  (size (filter (λ x : Z, (x ≤ i)%Z) X) < fuel)%nat →
  ∃ j, skipRemoved fuel X i = Some j
       ∧ j ≤ i ∧ (j ∉ X) ∧ ∀ k, j < k ≤ i → k ∈ X.
Proof.
  induction fuel as [|fuel IH]; intros i Hsize; [lia|]. simpl.
  case_bool_decide as Hin.
  - destruct (IH (i - 1)) as (j & Hj & Hle & Hnot & Hbetween).
    + assert (filter (λ x : Z, x ≤ i - 1) X ⊂ filter (λ x : Z, x ≤ i) X) as Hsub.
      { split.
        - intros x. rewrite !elem_of_filter. intros [? ?]. split; [lia|done].
        - intros Hsup. specialize (Hsup i). rewrite !elem_of_filter in Hsup.
          destruct Hsup as [? _]; [split; [lia|done]|lia]. }
      apply subset_size in Hsub. lia.
    + exists j. split; [done|]. split; [lia|]. split; [done|].
      intros k Hk. destruct (decide (k = i)) as [->|]; [done|]. apply Hbetween. lia.
  - exists i. split; [done|]. split; [lia|]. split; [done|]. intros k Hk. lia.
Qed.

Lemma trimRows_spec rowCount : ∀ n idx X,
  X ⊆ rowNumbers rowCount →
  -1 ≤ idx < rowCount →
  (∀ k, idx < k < rowCount → k ∈ X) →
  ∃ X', trimRows n idx X = Some X'
        ∧ X ⊆ X' ∧ X' ⊆ rowNumbers rowCount
        ∧ size X' = ((size X + n) `min` Z.to_nat rowCount)%nat.
Proof.
  induction n as [|n IH]; intros idx X Hsub Hidx Habove.
  - exists X. split; [done|]. split; [done|]. split; [done|].
    apply subseteq_size in Hsub. rewrite size_rowNumbers in Hsub. lia.
  - cbn [trimRows].
    destruct (skipRemoved_total X (S (size X)) idx) as (j & -> & Hle & Hnot & Hbetween).
    { assert (filter (λ x : Z, x ≤ idx) X ⊆ X) as Hf
        by (intros x; rewrite elem_of_filter; naive_solver).
      apply subseteq_size in Hf. lia. }
    destruct (j <? 0) eqn:Hj.
    + exists X. split; [done|]. split; [done|]. split; [done|].
      assert (X = rowNumbers rowCount) as ->.
      { apply set_eq. intros x. split; [apply Hsub|].
        rewrite elem_of_rowNumbers. intros Hx.
        destruct (decide (x ≤ idx)); [apply Hbetween|apply Habove]; lia. }
      rewrite size_rowNumbers. lia.
    + assert (Hj0 : 0 ≤ j) by lia.
      destruct (IH (j - 1) ({[j]} ∪ X)) as (X' & HX' & H1 & H2 & H3).
      * intros x. rewrite elem_of_union, elem_of_singleton, elem_of_rowNumbers.
        intros [->|Hx]; [lia|]. apply Hsub in Hx. by apply elem_of_rowNumbers in Hx.
      * lia.
      * intros k Hk. rewrite elem_of_union, elem_of_singleton.
        destruct (decide (k = j)); [by left|right].
        destruct (decide (k ≤ idx)); [apply Hbetween|apply Habove]; lia.
      * exists X'. split; [done|]. split; [set_solver|]. split; [done|].
        rewrite H3, size_union by set_solver. rewrite size_singleton. lia.
Qed.

(** *** Inserting the accepted events *)

Lemma insertEvents_spec events : ∀ start rs,
  (start ≤ length rs)%nat →
  insertEvents start events rs = take start rs ++ events ++ drop start rs.
Proof.
  induction events as [|e events IH]; intros start rs Hstart; simpl.
  - by rewrite take_drop.
  - unfold insertChildAt. rewrite IH.
    2:{ rewrite length_app, length_take. simpl. rewrite length_drop. lia. }
    assert (Hlen : length (take start rs) = start) by (rewrite length_take; lia).
    replace (S start) with (length (take start rs) + 1)%nat at 1 by lia.
    rewrite take_app_add. simpl. rewrite take_0.
    replace (S start) with (length (take start rs) + 1)%nat by lia.
    rewrite drop_app_add. simpl. rewrite drop_0.
    by rewrite <- app_assoc.
Qed.

(** *** The merge *)

Lemma mergeResolved_spec m :
  resolvedEvents m ≠ [] →
  ∃ X signals m',
    mergeResolved m = Some (m', signals)
    ∧ rows m' = resolvedEvents m ++ keepRows X (rows m) 0
    ∧ resolvedEvents m' = [] ∧ resolvedContactIds m' = ∅
    ∧ unresolvedEvents m' = unresolvedEvents m
    ∧ queryLimit m' = queryLimit m
    ∧ (∀ i e, rows m !! i = Some e →
              eventContact e ∈ resolvedContactIds m → Z.of_nat i ∈ X)
    ∧ (queryLimit m ≠ 0 →
       Z.of_nat (length (resolvedEvents m)) ≤ queryLimit m →
       Z.of_nat (length (rows m')) ≤ queryLimit m).
Proof.
  intros Hne. unfold mergeResolved.
  destruct (resolvedEvents m) as [|e0 res0] eqn:Hres; [done|].
  rewrite <- Hres. clear Hne.
  set (rowCount := Z.of_nat (length (rows m))).
  set (X0 := obsoleteRows (resolvedContactIds m) (rows m) 0 ∅).
  assert (HX0 : X0 ⊆ rowNumbers rowCount).
  { intros x Hx. apply elem_of_obsoleteRows in Hx as [Hx|(i & e & Hi & -> & _)];
      [set_solver|].
    apply lookup_lt_Some in Hi. apply elem_of_rowNumbers. unfold rowCount. lia. }
  assert (Hcover : ∀ i e, rows m !! i = Some e →
            eventContact e ∈ resolvedContactIds m → Z.of_nat i ∈ X0).
  { intros i e Hi Hin. apply elem_of_obsoleteRows. right. by exists i, e. }
  assert (Htrim : ∃ X, (if queryLimit m =? 0 then Some X0
                        else trimRows
                               (Z.to_nat (rowCount + Z.of_nat (length (resolvedEvents m))
                                          - Z.of_nat (size X0) - queryLimit m))
                               (rowCount - 1) X0) = Some X
                       ∧ X0 ⊆ X ∧ X ⊆ rowNumbers rowCount
                       ∧ (queryLimit m ≠ 0 →
                          size X
                          = ((size X0
                              + Z.to_nat (rowCount + Z.of_nat (length (resolvedEvents m))
                                          - Z.of_nat (size X0) - queryLimit m))
                             `min` Z.to_nat rowCount)%nat)).
  { destruct (queryLimit m =? 0) eqn:Hlimit.
    - exists X0. split; [done|]. split; [done|]. split; [done|]. lia.
    - destruct (trimRows_spec rowCount
                  (Z.to_nat (rowCount + Z.of_nat (length (resolvedEvents m))
                             - Z.of_nat (size X0) - queryLimit m))
                  (rowCount - 1) X0) as (X & HX & H1 & H2 & H3);
        [done|unfold rowCount; lia|intros k Hk; lia|].
      exists X. by rewrite HX. }
  destruct Htrim as (X & -> & HX0X & HX & Hsize).
  destruct (removeObsolete_spec X (rows m)) as [sg Hsg].
  { intros x Hx. apply HX in Hx. by apply elem_of_rowNumbers in Hx as [? _]. }
  cbv zeta in Hsg. rewrite Hsg.
  exists X. eexists. eexists. split; [done|]. simpl.
  rewrite insertEvents_spec by lia. rewrite take_0, drop_0. simpl.
  split; [done|]. split; [done|]. split; [done|]. split; [done|]. split; [done|].
  split; [intros i e Hi Hin; apply HX0X; by eapply Hcover|].
  intros Hlimit Hlen. specialize (Hsize Hlimit).
  pose proof (keepRows_length X (rows m) 0) as Hkeep.
  rewrite length_app.
  assert (HsX0 : (size X0 ≤ Z.to_nat rowCount)%nat).
  { apply subseteq_size in HX0. by rewrite size_rowNumbers in HX0. }
  assert ((length (keepRows X (rows m) 0) + size X)%nat = length (rows m)) as Hk.
  { apply Hkeep. intros x Hx. apply HX in Hx. apply elem_of_rowNumbers in Hx.
    unfold rowCount in Hx. lia. }
  unfold rowCount in *. lia.
Qed.

(** *** What the first loop does to the accepted events *)

Lemma collectEvents_bound D cache resolved events : ∀ m,
  0 < queryLimit m →
  Z.of_nat (length (resolvedEvents m)) < queryLimit m →
  Z.of_nat (length (resolvedEvents (collectEvents D cache resolved events m)))
  ≤ queryLimit m.
Proof.
  induction events as [|e events IH]; intros m Hpos Hlen; simpl; [lia|].
  repeat case_match;
    first [ by apply IH
          | by apply (IH (queueUnresolved e m))
          | simpl in *; rewrite ?length_app in *; simpl in *; lia
          | pose proof (IH (acceptResolved e m)) as IH';
            simpl in *; rewrite ?length_app in *; simpl in *;
            match goal with
            | H : (Z.of_nat _ =? _) = false |- _ => apply Z.eqb_neq in H
            end;
            apply IH'; lia ].
Qed.

Lemma collectEvents_distinct D cache resolved events : ∀ m,
  distinct m → distinct (collectEvents D cache resolved events m).
Proof.
  induction events as [|e events IH]; intros m Hm; simpl; [done|].
  assert (Hacc : contactId (recipient e) ≠ 0 →
                 contactId (recipient e) ∉ resolvedContactIds m →
                 distinct (acceptResolved e m)).
  { intros Hnz Hnew. destruct Hm as (Hids & Hnd & Hz & Hrows & Hrz).
    unfold distinct. simpl. rewrite fmap_app. simpl.
    split; [|split; [|split; [|done]]].
    - rewrite Hids, list_to_set_app_L. simpl. unfold eventContact at 3. set_solver.
    - apply NoDup_app. split; [done|]. split; [|apply NoDup_singleton].
      intros c Hc Hc'. apply list_elem_of_singleton in Hc'. subst c.
      apply Hnew. rewrite Hids. by apply elem_of_list_to_set.
    - apply Forall_app. split; [done|]. by apply Forall_singleton. }
  assert (Hnew : ∀ b,
            negb (contactId (recipient e) =? 0)
            && negb (bool_decide (contactId (recipient e) ∈ resolvedContactIds m)) = true →
            b = true → distinct (acceptResolved e m)).
  { intros b Hc _. apply andb_true_iff in Hc as [Hz Hn].
    apply negb_true_iff in Hz, Hn.
    apply Z.eqb_neq in Hz. apply bool_decide_eq_false in Hn. by apply Hacc. }
  repeat case_match;
    first [ by apply IH
          | by apply (IH (queueUnresolved e m))
          | by eapply (Hnew true)
          | apply IH; by eapply (Hnew true) ].
Qed.

(** *** Every pass completes and keeps the invariants *)

Lemma mergeResolved_inv m :
  ∃ m' signals,
    mergeResolved m = Some (m', signals)
    ∧ queryLimit m' = queryLimit m
    ∧ (filled m → bounded m')
    ∧ (distinct m → distinct m').
Proof.
  destruct (resolvedEvents m) as [|e0 res0] eqn:Hres.
  - exists m, []. unfold mergeResolved. rewrite Hres.
    split; [done|]. split; [done|]. split; [|done].
    intros Hm Hpos. rewrite Hres. simpl. split; [lia|]. by apply Hm.
  - destruct (mergeResolved_spec m) as
      (X & sg & m' & Hmerge & Hrows & Hres' & Hids' & _ & Hlimit & Hcover & Hlen);
      [by rewrite Hres|].
    exists m', sg. split; [done|]. split; [done|]. split.
    + intros Hm Hpos. rewrite Hlimit in Hpos. rewrite Hres', Hlimit. simpl.
      split; [lia|]. apply Hlen; [lia|]. by apply Hm.
    + intros (Hids & Hnd & Hnz & Hrnd & Hrnz). unfold distinct.
      rewrite Hres', Hids', Hrows, fmap_app. simpl.
      split; [done|]. split; [apply NoDup_nil_2|]. split; [done|].
      assert (Hkept : ∀ e, e ∈ keepRows X (rows m) 0 →
                e ∈ rows m ∧ eventContact e ∉ resolvedContactIds m).
      { intros e He. apply keepRows_elem in He as (i & Hi & Hn).
        split; [by eapply list_elem_of_lookup_2|].
        intros Hin. apply Hn. rewrite Z.add_0_l. by eapply Hcover. }
      split.
      * apply NoDup_app. split; [done|]. split.
        -- intros c Hc Hc'. apply list_elem_of_fmap in Hc' as (e & -> & He).
           apply Hkept in He as [_ He]. apply He.
           rewrite Hids. by apply elem_of_list_to_set.
        -- eapply sublist_NoDup; [exact Hrnd|].
           apply fmap_sublist, keepRows_sublist.
      * apply Forall_app. split; [done|].
        rewrite Forall_forall in *. intros e He. apply Hrnz. by apply Hkept.
Qed.

Lemma prependEvents_inv D cache events resolved m :
  ∃ m' signals,
    prependEvents D cache events resolved m = Some (m', signals)
    ∧ queryLimit m' = queryLimit m
    ∧ (bounded m → bounded m')
    ∧ (distinct m → distinct m').
Proof.
  unfold prependEvents.
  destruct (collectEvents_frame D cache resolved events m) as (_&Hlimit&Hrows&_).
  pose proof (collectEvents_bound D cache resolved events m) as Hbound.
  pose proof (collectEvents_distinct D cache resolved events m) as Hdistinct.
  set (m1 := collectEvents D cache resolved events m) in *.
  assert (Hfilled : bounded m → filled m1).
  { intros Hm Hpos. rewrite Hlimit in *. destruct (Hm Hpos) as [H1 H2].
    split; [by apply Hbound|by rewrite Hrows]. }
  assert (Hmerge : ∀ m2,
            queryLimit m2 = queryLimit m1 → rows m2 = rows m1 →
            resolvedEvents m2 = resolvedEvents m1 →
            resolvedContactIds m2 = resolvedContactIds m1 →
            ∃ m' signals,
              match mergeResolved m2 with
              | Some (m3, sg) => Some (m3, sg ++ announce resolved)
              | None => None
              end = Some (m', signals)
              ∧ queryLimit m' = queryLimit m
              ∧ (bounded m → bounded m') ∧ (distinct m → distinct m')).
  { intros m2 E1 E2 E3 E4.
    destruct (mergeResolved_inv m2) as (m' & sg & -> & Hl & Hb & Hd).
    exists m', (sg ++ announce resolved). split; [done|].
    split; [congruence|]. split.
    - intros Hm. apply Hb. unfold filled. rewrite E1, E2, E3. by apply Hfilled.
    - intros Hm. apply Hd. unfold distinct. rewrite E2, E3, E4. by apply Hdistinct. }
  destruct (unresolvedEvents m1) as [|first others] eqn:Hun; [by apply Hmerge|].
  destruct ((queryLimit m1 =? 0)
            || (Z.of_nat (length (resolvedEvents m1)) <? queryLimit m1)) eqn:Hcond;
    [|by apply Hmerge].
  eexists. eexists. split; [done|]. simpl. split; [done|]. split.
  - intros Hm Hpos. simpl in *. rewrite Hlimit in *. rewrite Hrows.
    apply orb_true_iff in Hcond as [Hc|Hc]; [lia|].
    split; [lia|]. by apply Hm.
  - intros Hm. apply Hdistinct in Hm. done.
Qed.

Lemma call_inv D c m :
  ∃ m' signals,
    call D c m = Some (m', signals)
    ∧ queryLimit m' = queryLimit m
    ∧ (bounded m → bounded m')
    ∧ (distinct m → distinct m').
Proof.
  destruct c as [p|b|b]; simpl.
  - unfold setRequiredProperty. case_bool_decide; by eexists _, _.
  - unfold setExcludeFavorites. case_bool_decide; by eexists _, _.
  - apply prependEvents_inv.
Qed.

Lemma calls_inv D cs : ∀ m,
  ∃ m', calls D cs m = Some m'
        ∧ queryLimit m' = queryLimit m
        ∧ (bounded m → bounded m')
        ∧ (distinct m → distinct m').
Proof.
  induction cs as [|c cs IH]; intros m; simpl; [by exists m|].
  destruct (call_inv D c m) as (m1 & sg & -> & Hl & Hb & Hd).
  destruct (IH m1) as (m' & Hcalls & Hl' & Hb' & Hd').
  exists m'. split; [done|]. split; [congruence|]. split; auto.
Qed.

(** C1.  With a limit above zero, every sequence of calls on a constructed
    model runs to its end, and the model then has no more rows than the
    limit. *)
Theorem capacity_bound D mask N cs :
  0 < N →
  ∃ m, calls D cs (construct D mask N) = Some m
       ∧ Z.of_nat (length (rows m)) ≤ N.
Proof.
  intros HN.
  destruct (calls_inv D cs (construct D mask N)) as (m & Hcalls & Hl & Hb & _).
  exists m. split; [done|].
  assert (Hm : bounded m).
  { apply Hb. intros _. simpl. lia. }
  simpl in Hl. rewrite <- Hl. apply Hm. lia.
Qed.

Lemma capacity_bound_witness :
  ∃ m, calls Samples.declarations Samples.busyDay
         (construct Samples.declarations (-1) 2) = Some m
       ∧ Z.of_nat (length (rows m)) ≤ 2.
Proof.
  apply (capacity_bound Samples.declarations (-1) 2 Samples.busyDay).
  reflexivity.
Defined.

Lemma NoDup_uniqueContacts rs :
  NoDup (eventContact <$> rs) → uniqueContacts rs.
Proof.
  intros Hnd i j e1 e2 Hi Hj Heq _.
  apply (proj1 (NoDup_alt _) Hnd i j (eventContact e1));
    rewrite list_lookup_fmap; [by rewrite Hi|by rewrite Hj, Heq].
Qed.

(** C2.  Every sequence of calls on a constructed model runs to its end, and
    then no two rows of the model have the same contact id; none has the
    contact id [0]. *)
Theorem contact_uniqueness D mask limit cs :
  ∃ m, calls D cs (construct D mask limit) = Some m
       ∧ uniqueContacts (rows m)
       ∧ Forall (λ e, eventContact e ≠ 0) (rows m).
Proof.
  destruct (calls_inv D cs (construct D mask limit)) as (m & Hcalls & _ & _ & Hd).
  exists m. split; [done|].
  destruct Hd as (_ & _ & _ & Hnd & Hnz).
  { unfold distinct. simpl. split_and!; (done || constructor). }
  split; [by apply NoDup_uniqueContacts|done].
Qed.

End RecentContactsModelProofs.

(** * More about the contact resolver *)

Module ContactResolverFacts.

Import RecipientModel ContactResolver.

(** *** Callbacks that address nothing *)

(** X1.  A callback that addresses no pending entry, because its pair is not
    pending or because no pending entry matches its number, leaves the pending
    set and every resolution as they are: all it does is the check. *)
Theorem stale_callback_ignored P cache first second item s :
  second ≠ EmptyString →
  (if isEmpty first
   then ∀ r, r ∈ pending s →
             matchesPhoneNumber P r (phoneNumberMatchDetails P second) = false
   else mkRecipient first second ∉ pending s) →
  addressResolved P cache first second item s = (checkIfFinished s).2.
Proof.
  intros Hsec Hstale. unfold addressResolved.
  apply ContactResolverProofs.isEmpty_false in Hsec. rewrite Hsec.
  destruct (isEmpty first).
  - f_equal. f_equal.
    assert (Hl : ∀ r, r ∈ elements (pending s) →
              matchesPhoneNumber P r (phoneNumberMatchDetails P second) = false).
    { intros r Hr. apply Hstale. by apply elem_of_elements. }
    revert Hl. generalize (elements (pending s)). intros l. revert s Hstale.
    induction l as [|x l IH]; intros s Hstale Hl; [done|]. simpl.
    unfold resolveMatching at 2. rewrite (Hl x) by left.
    apply IH; [done|]. intros r Hr. apply Hl. by right.
  - by rewrite bool_decide_eq_false_2.
Qed.

Lemma stale_callback_ignored_witness :
  addressResolved Samples.release Samples.fullCache "/gabble/jabber" "carol@example.org"
    (Some Samples.alice) Samples.threePending
  = (checkIfFinished Samples.threePending).2.
Proof.
  apply stale_callback_ignored; [discriminate|].
  vm_compute. intros H. discriminate H.
Defined.

(** *** What a submission touches *)

Lemma resolve_others P cache r s s' r' :
  resolve P cache r s = Some s' → r' ≠ r →
  recipients s' !! r' = recipients s !! r'
  ∧ (r' ∈ pending s' ↔ r' ∈ pending s).
Proof.
  unfold resolve. intros H Hne.
  repeat (case_match; simplify_eq; simpl; unfold setResolved;
          rewrite ?lookup_insert_ne by done;
          try (split; [done|set_solver])).
Qed.

(** X2.  Submitting a batch changes neither the resolution nor the pending state
    of a recipient that is not in the batch. *)
Theorem add_leaves_others P cache rs s s' r' :
  add P cache rs s = Some s' → r' ∉ rs →
  recipients s' !! r' = recipients s !! r'
  ∧ (r' ∈ pending s' ↔ r' ∈ pending s).
Proof.
  unfold add. intros H Hnot.
  destruct (resolveAll P cache rs s) as [s1|] eqn:E; [|done]. simplify_eq.
  assert (Hall : recipients s1 !! r' = recipients s !! r'
                 ∧ (r' ∈ pending s1 ↔ r' ∈ pending s)).
  { revert s E. induction rs as [|r rs IH]; simpl; intros s E; [by simplify_eq|].
    destruct (resolve P cache r s) as [s0|] eqn:E0; [|done].
    apply not_elem_of_cons in Hnot as [Hne Hnot].
    destruct (resolve_others P cache r s s0 r' E0 Hne) as [H1 H2].
    destruct (IH Hnot s0 E) as [H3 H4].
    split; [congruence|]. by rewrite H4. }
  unfold checkIfFinishedAsynchronously.
  destruct (resolving s1); [done|]. by case_bool_decide.
Qed.

Lemma add_leaves_others_witness :
  ∃ s', add Samples.release Samples.emptyCache [Samples.phoneA; Samples.chat] init = Some s'
        ∧ recipients s' !! Samples.phoneB = recipients init !! Samples.phoneB
        ∧ (Samples.phoneB ∈ pending s' ↔ Samples.phoneB ∈ pending init).
Proof.
  eexists. split; [vm_compute; reflexivity|].
  apply (add_leaves_others Samples.release Samples.emptyCache
           [Samples.phoneA; Samples.chat] init _ Samples.phoneB eq_refl).
  intros H. apply elem_of_cons in H as [H|H]; [discriminate H|].
  apply elem_of_cons in H as [H|H]; [discriminate H|].
  by apply elem_of_nil in H.
Defined.

(** *** What a submission costs *)

Lemma resolve_bounds P cache r s s' :
  resolve P cache r s = Some s' →
  (queryCount (log s') ≤ S (queryCount (log s)))%nat
  ∧ pending s' ⊆ {[r]} ∪ pending s
  ∧ log s `prefix_of` log s'.
Proof.
  unfold resolve. intros H.
  repeat (case_match; simplify_eq; simpl;
          rewrite ?ContactResolverProofs.queryCount_snoc; simpl;
          try (split_and!; [lia|set_solver|(done || by apply prefix_app_r)])).
Qed.

(** X3.  After a submission the resolver is resolving; it has asked the directory
    at most once per submitted recipient, only submitted recipients have
    become pending, and nothing was taken from the log. *)
Theorem add_bounds P cache rs s s' :
  add P cache rs s = Some s' →
  resolving s' = true
  ∧ (queryCount (log s') ≤ queryCount (log s) + length rs)%nat
  ∧ pending s' ⊆ list_to_set rs ∪ pending s
  ∧ log s `prefix_of` log s'.
Proof.
  unfold add. intros H.
  destruct (resolveAll P cache rs s) as [s1|] eqn:E; [|done]. simplify_eq.
  assert (Hall : (queryCount (log s1) ≤ queryCount (log s) + length rs)%nat
                 ∧ pending s1 ⊆ list_to_set rs ∪ pending s
                 ∧ log s `prefix_of` log s1).
  { revert s E. induction rs as [|r rs IH]; simpl; intros s E.
    - simplify_eq. split_and!; [lia|set_solver|done].
    - destruct (resolve P cache r s) as [s0|] eqn:E0; [|done].
      destruct (resolve_bounds P cache r s s0 E0) as (H1 & H2 & H3).
      destruct (IH s0 E) as (H4 & H5 & H6).
      split_and!; [lia|set_solver|by etrans]. }
  unfold checkIfFinishedAsynchronously.
  destruct (resolving s1) eqn:Hr; [by rewrite Hr|].
  by case_bool_decide.
Qed.

Lemma add_bounds_witness :
  ∃ s', add Samples.release Samples.emptyCache
          [Samples.phoneA; Samples.phoneA; Samples.noRemote] init = Some s'
        ∧ resolving s' = true
        ∧ (queryCount (log s') ≤ queryCount (log init) + 3)%nat.
Proof.
  eexists. split; [vm_compute; reflexivity|].
  pose proof (add_bounds Samples.release Samples.emptyCache
                [Samples.phoneA; Samples.phoneA; Samples.noRemote] init _ eq_refl)
    as (H1 & H2 & _).
  split; [exact H1|exact H2].
Defined.

(** *** Splitting a batch *)

Lemma resolve_core P cache r s t s' :
  pending t = pending s → recipients t = recipients s →
  forceResolving t = forceResolving s → log t = log s →
  resolve P cache r s = Some s' →
  ∃ t', resolve P cache r t = Some t'
        ∧ pending t' = pending s' ∧ recipients t' = recipients s'
        ∧ forceResolving t' = forceResolving s' ∧ log t' = log s'
        ∧ resolving t' = resolving t ∧ queued t' = queued t.
Proof.
  intros Hp Hr Hf Hl H. unfold resolve in *. rewrite Hp, Hr, Hf.
  repeat (case_match; simplify_eq);
    (eexists; split; [reflexivity|]; simpl; rewrite ?Hp, ?Hr, ?Hf, ?Hl; done).
Qed.

Lemma resolveAll_core P cache rs : ∀ s t s',
  pending t = pending s → recipients t = recipients s →
  forceResolving t = forceResolving s → log t = log s →
  resolveAll P cache rs s = Some s' →
  ∃ t', resolveAll P cache rs t = Some t'
        ∧ pending t' = pending s' ∧ recipients t' = recipients s'
        ∧ forceResolving t' = forceResolving s' ∧ log t' = log s'
        ∧ resolving t' = resolving t ∧ queued t' = queued t.
Proof.
  induction rs as [|r rs IH]; simpl; intros s t s' Hp Hr Hf Hl H.
  - simplify_eq. by exists t.
  - destruct (resolve P cache r s) as [s0|] eqn:E; [|done].
    destruct (resolve_core P cache r s t s0 Hp Hr Hf Hl E)
      as (t0 & -> & Hp0 & Hr0 & Hf0 & Hl0 & Hres & Hq).
    destruct (IH s0 t0 s' Hp0 Hr0 Hf0 Hl0 H) as (t' & Ht' & ? & ? & ? & ? & ? & ?).
    exists t'. split_and!; congruence.
Qed.

Lemma resolveAll_app P cache rs1 rs2 s :
  resolveAll P cache (rs1 ++ rs2) s
  = match resolveAll P cache rs1 s with
    | Some s1 => resolveAll P cache rs2 s1
    | None => None
    end.
Proof.
  revert s. induction rs1 as [|r rs1 IH]; intros s; simpl; [done|].
  by destruct (resolve P cache r s).
Qed.

(** X4.  Submitting a batch in two parts, one right after the other, resolves and
    queries exactly as submitting it whole; the only trace of the split can be
    one more check waiting in the event loop. *)
Theorem add_split P cache rs1 rs2 s s1 s2 :
  add P cache rs1 s = Some s1 →
  add P cache rs2 s1 = Some s2 →
  ∃ s', add P cache (rs1 ++ rs2) s = Some s'
        ∧ pending s' = pending s2 ∧ recipients s' = recipients s2
        ∧ resolving s' = resolving s2 ∧ forceResolving s' = forceResolving s2
        ∧ log s' = log s2
        ∧ (queued s' ≤ queued s2 ≤ S (queued s'))%nat.
Proof.
  unfold add. intros H1 H2.
  destruct (resolveAll P cache rs1 s) as [a|] eqn:Ea; [|done]. simplify_eq.
  destruct (resolveAll P cache rs2 (checkIfFinishedAsynchronously a)) as [b|] eqn:Eb;
    [|done]. simplify_eq.
  assert (Hcore : pending a = pending (checkIfFinishedAsynchronously a)
                  ∧ recipients a = recipients (checkIfFinishedAsynchronously a)
                  ∧ forceResolving a = forceResolving (checkIfFinishedAsynchronously a)
                  ∧ log a = log (checkIfFinishedAsynchronously a)).
  { unfold checkIfFinishedAsynchronously.
    destruct (resolving a); [done|]. by case_bool_decide. }
  destruct Hcore as (Hp & Hr & Hf & Hl).
  destruct (resolveAll_core P cache rs2 _ a b Hp Hr Hf Hl Eb)
    as (b' & Eb' & Hp' & Hr' & Hf' & Hl' & Hres' & Hq').
  destruct (ContactResolverProofs.resolveAll_frame P cache rs2 _ b Eb)
    as (Hres & _ & Hq & Hsub & _).
  rewrite resolveAll_app, Ea, Eb'. eexists. split; [reflexivity|].
  assert (Htrue : resolving (checkIfFinishedAsynchronously a) = true).
  { unfold checkIfFinishedAsynchronously.
    destruct (resolving a) eqn:Hra; [done|]. by case_bool_decide. }
  rewrite Htrue in Hres.
  assert (Hb : checkIfFinishedAsynchronously b = b).
  { unfold checkIfFinishedAsynchronously. by rewrite Hres. }
  rewrite Hb. clear Hb Htrue Eb Eb' Ea.
  unfold checkIfFinishedAsynchronously in *.
  destruct (resolving a) eqn:Hra; rewrite Hres'.
  - split_and!; (congruence || lia).
  - rewrite Hp'.
    destruct (bool_decide (pending b = ∅)) eqn:Hpb;
      destruct (bool_decide (pending a = ∅)) eqn:Hpa; simpl in *;
      split_and!; try congruence; try lia.
    apply bool_decide_eq_true in Hpb. apply bool_decide_eq_false in Hpa.
    exfalso. apply Hpa. set_solver.
Qed.

Lemma add_split_witness :
  ∃ s1 s2 s',
    add Samples.release Samples.fullCache [Samples.chat] init = Some s1
    ∧ add Samples.release Samples.fullCache [Samples.phoneA] s1 = Some s2
    ∧ add Samples.release Samples.fullCache ([Samples.chat] ++ [Samples.phoneA]) init
      = Some s'
    ∧ log s' = log s2
    ∧ (queued s' ≤ queued s2 ≤ S (queued s'))%nat.
Proof.
  destruct (add Samples.release Samples.fullCache [Samples.chat] init)
    as [s1|] eqn:E1; [|vm_compute in E1; discriminate].
  destruct (add Samples.release Samples.fullCache [Samples.phoneA] s1)
    as [s2|] eqn:E2.
  2:{ vm_compute in E1. injection E1 as <-. vm_compute in E2. discriminate. }
  destruct (add_split Samples.release Samples.fullCache
              [Samples.chat] [Samples.phoneA] init s1 s2 E1 E2)
    as (s' & E & _ & _ & _ & _ & Hl & Hq).
  exists s1, s2, s'. split; [reflexivity|]. split; [exact E2|].
  split; [exact E|]. split; [exact Hl|exact Hq].
Defined.

(** *** What is pending was asked for *)

Lemma resolve_queried P cache r0 s s' :
  resolve P cache r0 s = Some s' →
  (∀ r, r ∈ pending s → queriedFor r (log s)) →
  ∀ r, r ∈ pending s' → queriedFor r (log s').
Proof.
  unfold resolve. intros H Hs r Hr.
  assert (Hkeep : ∀ e, queriedFor r (log s) → queriedFor r (log s ++ [e])).
  { intros e (H1 & H2 & H3). split; [done|]. split; [done|].
    rewrite !elem_of_app. tauto. }
  destruct (negb (forceResolving s) && _); [simplify_eq; by apply Hs|].
  destruct (assertionsEnabled P && _); [done|].
  destruct (isEmpty (localUid r0) || isEmpty (remoteUid r0)) eqn:He;
    [simplify_eq; by apply Hs|].
  apply orb_false_iff in He as [H1 H2].
  apply ContactResolverProofs.isEmpty_false in H1, H2.
  case_bool_decide; [simplify_eq; by apply Hs|].
  destruct (isPhoneNumber P r0).
  - destruct (resolvePhoneNumber cache (remoteUid r0)); simplify_eq; simpl in *.
    + by apply Hkeep, Hs.
    + apply elem_of_union in Hr as [Hr|Hr]; [|by apply Hkeep, Hs].
      apply elem_of_singleton in Hr as ->. split; [done|]. split; [done|].
      left. apply elem_of_app. right. by left.
  - destruct (resolveOnlineAccount cache (localUid r0) (remoteUid r0));
      simplify_eq; simpl in *.
    + by apply Hkeep, Hs.
    + apply elem_of_union in Hr as [Hr|Hr]; [|by apply Hkeep, Hs].
      apply elem_of_singleton in Hr as ->. split; [done|]. split; [done|].
      right. apply elem_of_app. right. by left.
Qed.

Lemma shrink_queried s s' :
  pending s' ⊆ pending s → log s `prefix_of` log s' →
  (∀ r, r ∈ pending s → queriedFor r (log s)) →
  ∀ r, r ∈ pending s' → queriedFor r (log s').
Proof.
  intros Hp [k Hk] Hs r Hr. destruct (Hs r (Hp r Hr)) as (H1 & H2 & H3).
  split; [done|]. split; [done|]. rewrite Hk, !elem_of_app. tauto.
Qed.

Lemma checkIfFinished_shrinks s :
  pending (checkIfFinished s).2 = pending s
  ∧ log s `prefix_of` log (checkIfFinished s).2.
Proof.
  unfold checkIfFinished. destruct (resolving s && _); simpl; [|done].
  split; [done|]. by apply prefix_app_r.
Qed.

Lemma step_queried P op s s' :
  step P op s = Some s' →
  (∀ r, r ∈ pending s → queriedFor r (log s)) →
  ∀ r, r ∈ pending s' → queriedFor r (log s').
Proof.
  destruct op as [cache rs|cache first second item| |enabled]; simpl; intros H Hs.
  - unfold add in H.
    destruct (resolveAll P cache rs s) as [s1|] eqn:E; [|done]. simplify_eq.
    assert (H1 : ∀ r, r ∈ pending s1 → queriedFor r (log s1)).
    { revert s E Hs. induction rs as [|r0 rs IH]; simpl; intros s E Hs;
        [by simplify_eq|].
      destruct (resolve P cache r0 s) as [s0|] eqn:E0; [|done].
      eapply IH; [exact E|]. by eapply resolve_queried. }
    unfold checkIfFinishedAsynchronously.
    destruct (resolving s1); [done|]. by case_bool_decide.
  - simplify_eq. unfold addressResolved.
    destruct (isEmpty second).
    { apply (shrink_queried s); [done|by apply prefix_app_r|done]. }
    destruct (isEmpty first).
    + match goal with |- ∀ r, r ∈ pending (checkIfFinished ?x).2 → _ =>
        destruct (checkIfFinished_shrinks x) as [Hp Hl];
        apply (shrink_queried x); [by rewrite Hp|done|] end.
      destruct (ContactResolverProofs.foldl_resolveMatching P cache
                  (phoneNumberMatchDetails P second) (elements (pending s)) s)
        as (_&_&_&Hlog&Hpend&_).
      apply (shrink_queried s); [|by rewrite Hlog|done].
      intros r Hr. by apply Hpend in Hr as [? _].
    + match goal with |- ∀ r, r ∈ pending (checkIfFinished ?x).2 → _ =>
        destruct (checkIfFinished_shrinks x) as [Hp Hl];
        apply (shrink_queried x); [by rewrite Hp|done|] end.
      apply (shrink_queried s); [|by case_bool_decide|done].
      case_bool_decide; simpl; set_solver.
  - simplify_eq. unfold deliverQueued. destruct (queued s); [done|].
    match goal with |- ∀ r, r ∈ pending (checkIfFinished ?x).2 → _ =>
      destruct (checkIfFinished_shrinks x) as [Hp Hl];
      apply (shrink_queried x); [by rewrite Hp|done|] end.
    done.
  - by simplify_eq.
Qed.

(** X5.  In every state the resolver reaches, a pending recipient has both uids
    and the directory has been asked about it. *)
Theorem pending_were_queried P ops s r :
  run P ops init = Some s →
  r ∈ pending s →
  queriedFor r (log s).
Proof.
  intros Hrun. revert r.
  assert (Hgen : ∀ s0, run P ops s0 = Some s →
            (∀ r, r ∈ pending s0 → queriedFor r (log s0)) →
            ∀ r, r ∈ pending s → queriedFor r (log s)).
  { clear Hrun. induction ops as [|op ops IH]; simpl; intros s0 H Hs0;
      [by simplify_eq|].
    destruct (step P op s0) as [s1|] eqn:E; [|done].
    eapply IH; [exact H|]. by eapply step_queried. }
  apply (Hgen init Hrun). intros r Hr. simpl in Hr. set_solver.
Qed.

Lemma pending_were_queried_witness :
  ∃ s, run Samples.release Samples.threeQueries init = Some s
       ∧ queriedFor Samples.phoneB (log s).
Proof.
  eexists. split; [vm_compute; reflexivity|].
  apply (pending_were_queried Samples.release Samples.threeQueries _ Samples.phoneB eq_refl).
  vm_compute. reflexivity.
Defined.

(** *** When [finished] is emitted *)

(** X6.  One turn emits [finished] at most once, and only by ending an episode:
    the resolver was resolving, is idle afterwards with nothing pending, and
    the turn was not a submission. *)
Theorem finished_ends_episode P op s s' :
  step P op s = Some s' →
  finishedCount (log s') = finishedCount (log s)
  ∨ (finishedCount (log s') = S (finishedCount (log s))
     ∧ resolving s = true ∧ resolving s' = false ∧ pending s' = ∅
     ∧ ∀ cache rs, op ≠ OpAdd cache rs).
Proof.
  assert (Hcheck : ∀ x, resolving x = resolving s →
            finishedCount (log x) = finishedCount (log s) →
            finishedCount (log (checkIfFinished x).2) = finishedCount (log s)
            ∨ (finishedCount (log (checkIfFinished x).2) = S (finishedCount (log s))
               ∧ resolving s = true ∧ resolving (checkIfFinished x).2 = false
               ∧ pending (checkIfFinished x).2 = ∅)).
  { intros x Hr Hl. unfold checkIfFinished.
    destruct (resolving x) eqn:Hx; simpl; [|by left].
    case_bool_decide; simpl; [|by left].
    right. rewrite ContactResolverProofs.finishedCount_snoc. simpl.
    split_and!; (done || lia). }
  destruct op as [cache rs|cache first second item| |enabled]; simpl; intros H.
  - left. unfold add in H.
    destruct (resolveAll P cache rs s) as [s1|] eqn:E; [|done]. simplify_eq.
    apply ContactResolverProofs.resolveAll_frame in E as (_&_&_&_&Hf).
    unfold checkIfFinishedAsynchronously.
    destruct (resolving s1); [done|]. by case_bool_decide.
  - simplify_eq. unfold addressResolved.
    destruct (isEmpty second).
    { left. simpl. rewrite ContactResolverProofs.finishedCount_snoc. simpl. lia. }
    destruct (isEmpty first).
    + destruct (ContactResolverProofs.foldl_resolveMatching P cache
                  (phoneNumberMatchDetails P second) (elements (pending s)) s)
        as (Hr&_&_&Hl&_).
      match goal with |- context [checkIfFinished ?x] =>
        destruct (Hcheck x) as [?|(?&?&?&?)]; [done|by rewrite Hl|by left|] end.
      right. split_and!; done.
    + match goal with |- context [checkIfFinished ?x] =>
        destruct (Hcheck x) as [?|(?&?&?&?)];
          [by case_bool_decide|by case_bool_decide|by left|] end.
      right. split_and!; done.
  - simplify_eq. unfold deliverQueued. destruct (queued s); [by left|].
    match goal with |- context [checkIfFinished ?x] =>
      destruct (Hcheck x) as [?|(?&?&?&?)]; [done|done|by left|] end.
    right. split_and!; done.
  - simplify_eq. by left.
Qed.

Lemma finished_ends_episode_witness :
  ∃ s s', add Samples.release Samples.fullCache [Samples.chat] init = Some s
          ∧ step Samples.release OpDeliverQueued s = Some s'
          ∧ (finishedCount (log s') = finishedCount (log s)
             ∨ (finishedCount (log s') = S (finishedCount (log s))
                ∧ resolving s = true ∧ resolving s' = false ∧ pending s' = ∅
                ∧ ∀ cache rs, OpDeliverQueued ≠ OpAdd cache rs)).
Proof.
  eexists. eexists. split; [vm_compute; reflexivity|].
  split; [vm_compute; reflexivity|].
  apply (finished_ends_episode Samples.release OpDeliverQueued). reflexivity.
Defined.

(** *** Resolved recipients and forced resolving *)

Lemma resolveAll_resolved P cache rs s :
  forceResolving s = false →
  (∀ r, r ∈ rs → isContactResolved (recipients s) r = true) →
  resolveAll P cache rs s = Some s.
Proof.
  intros Hforce. induction rs as [|r rs IH]; intros Hres; simpl; [done|].
  unfold resolve. rewrite Hforce, (Hres r) by (by left). simpl.
  apply IH. intros r' Hr'. apply Hres. by right.
Qed.

(** X20.  Unless resolving is forced, submitting recipients that are all resolved
    asks the directory nothing and changes no resolution; this holds for a
    resolved recipient without a local uid too, which the assertion never
    sees.  All the submission does is what the asynchronous check does: it
    starts an episode if the resolver was idle. *)
Theorem resolved_batch_is_free P cache rs s :
  forceResolving s = false →
  (∀ r, r ∈ rs → isContactResolved (recipients s) r = true) →
  add P cache rs s = Some (checkIfFinishedAsynchronously s).
Proof.
  intros Hforce Hres. unfold add. by rewrite resolveAll_resolved.
Qed.

Lemma resolved_batch_is_free_witness :
  add Samples.debug Samples.emptyCache [Samples.noLocal; Samples.chat]
    (mkState ∅ false false
       (<[Samples.noLocal := None]> (<[Samples.chat := Some Samples.alice]> ∅)) 0%nat [])
  = Some (mkState ∅ true false
       (<[Samples.noLocal := None]> (<[Samples.chat := Some Samples.alice]> ∅)) 1%nat []).
Proof.
  apply (resolved_batch_is_free Samples.debug Samples.emptyCache
           [Samples.noLocal; Samples.chat]).
  - reflexivity.
  - intros r Hr.
    apply elem_of_cons in Hr as [->|Hr];
      [|apply list_elem_of_singleton in Hr as ->]; vm_compute; reflexivity.
Defined.

Lemma resolve_forced P cache r s :
  forceResolving s = true →
  localUid r ≠ EmptyString → remoteUid r ≠ EmptyString → r ∉ pending s →
  ∃ s', resolve P cache r s = Some s'
        ∧ forceResolving s' = true
        ∧ queryCount (log s') = S (queryCount (log s))
        ∧ pending s' ⊆ {[r]} ∪ pending s
        ∧ (r ∈ pending s' ∨ is_Some (recipients s' !! r)).
Proof.
  intros Hforce Hl Hr Hnp. unfold resolve. rewrite Hforce. simpl.
  apply ContactResolverProofs.isEmpty_false in Hl, Hr. rewrite Hl, Hr.
  rewrite andb_false_r. simpl.
  rewrite bool_decide_eq_false_2 by done.
  destruct (isPhoneNumber P r).
  - destruct (resolvePhoneNumber cache (remoteUid r)); eexists; (split; [done|]);
      simpl; rewrite ContactResolverProofs.queryCount_snoc; simpl;
      (split; [done|]); (split; [lia|]); (split; [set_solver|]).
    + right. unfold setResolved. rewrite lookup_insert_eq. by eexists.
    + left. set_solver.
  - destruct (resolveOnlineAccount cache (localUid r) (remoteUid r)); eexists;
      (split; [done|]);
      simpl; rewrite ContactResolverProofs.queryCount_snoc; simpl;
      (split; [done|]); (split; [lia|]); (split; [set_solver|]).
    + right. unfold setResolved. rewrite lookup_insert_eq. by eexists.
    + left. set_solver.
Qed.

Lemma resolveAll_forced P cache rs : ∀ s,
  forceResolving s = true → NoDup rs →
  (∀ r, r ∈ rs →
        localUid r ≠ EmptyString ∧ remoteUid r ≠ EmptyString ∧ r ∉ pending s) →
  ∃ s', resolveAll P cache rs s = Some s'
        ∧ queryCount (log s') = (queryCount (log s) + length rs)%nat.
Proof.
  induction rs as [|r rs IH]; intros s Hforce Hnd Hok; simpl.
  { exists s. split; [done|lia]. }
  apply NoDup_cons in Hnd as [Hnotin Hnd].
  destruct (Hok r) as (Hl & Hr & Hnp); [by left|].
  destruct (resolve_forced P cache r s Hforce Hl Hr Hnp)
    as (s1 & Hres & Hforce1 & Hcount & Hpend & _).
  rewrite Hres.
  destruct (IH s1 Hforce1 Hnd) as (s' & Hrun & Hcount').
  - intros r' Hr'. destruct (Hok r') as (Hl' & Hr'' & Hnp'); [by right|].
    split; [done|]. split; [done|].
    intros Hin. apply Hpend in Hin. set_solver.
  - exists s'. split; [done|]. lia.
Qed.

(** X21.  When resolving is forced, a submission asks the directory once for
    each of its recipients, resolved or not, as long as they are distinct,
    have both uids and are not pending. *)
Theorem forced_batch_requeries P cache rs s :
  forceResolving s = true → NoDup rs →
  (∀ r, r ∈ rs →
        localUid r ≠ EmptyString ∧ remoteUid r ≠ EmptyString ∧ r ∉ pending s) →
  ∃ s', add P cache rs s = Some s'
        ∧ queryCount (log s') = (queryCount (log s) + length rs)%nat.
Proof.
  intros Hforce Hnd Hok. unfold add.
  destruct (resolveAll_forced P cache rs s Hforce Hnd Hok) as (s1 & Hrun & Hcount).
  rewrite Hrun. eexists. split; [done|].
  rewrite <- Hcount. unfold checkIfFinishedAsynchronously.
  by repeat case_match.
Qed.

Lemma forced_batch_requeries_witness :
  ∃ s', add Samples.release Samples.fullCache [Samples.chat; Samples.phoneA]
          (mkState ∅ false true (<[Samples.chat := Some Samples.alice]> ∅) 0%nat [])
        = Some s'
        ∧ queryCount (log s') = 2%nat.
Proof.
  apply (forced_batch_requeries Samples.release Samples.fullCache
           [Samples.chat; Samples.phoneA]
           (mkState ∅ false true (<[Samples.chat := Some Samples.alice]> ∅) 0%nat [])).
  - reflexivity.
  - apply (bool_decide_unpack _). vm_compute. reflexivity.
  - intros r Hr. simpl.
    apply elem_of_cons in Hr as [->|Hr];
      [|apply list_elem_of_singleton in Hr as ->];
      (split; [done|]); (split; [done|]); apply not_elem_of_empty.
Defined.

End ContactResolverFacts.




(** * More about the ingestion pass *)

Module IngestionFacts.

Import RecentContactsModel RecentContactsDiff.

(** *** The queue of unresolved events *)

Lemma collectEvents_queue D cache events : ∀ m,
  unresolvedEvents (collectEvents D cache false events m)
  = unresolvedEvents m ++ filter (λ e, categoryAccepted D m e = true) events.
Proof.
  induction events as [|e events IH]; intros m; simpl; [by rewrite app_nil_r|].
  rewrite filter_cons.
  destruct (categoryAccepted D m e) eqn:Hc.
  - rewrite IH. simpl. rewrite <- app_assoc. reflexivity.
  - rewrite IH. reflexivity.
Qed.

(** X7.  An unresolved batch joins the queue behind what is waiting, in its own
    order and without the events outside the category mask; as long as the
    limit is not reached the pass hands the head of the queue to the resolver
    and keeps the rest. *)
Theorem unresolved_queue_fifo D cache events m first others :
  unresolvedEvents m ++ filter (λ e, categoryAccepted D m e = true) events
  = first :: others →
  (queryLimit m = 0 ∨ Z.of_nat (length (resolvedEvents m)) < queryLimit m) →
  prependEvents D cache events false m
  = Some (setQueues others (resolvedEvents m) (resolvedContactIds m) m,
          [ResolveAddedEvents [first]]).
Proof.
  intros Hq Hlimit. unfold prependEvents.
  destruct (RecentContactsModelProofs.collectEvents_frame D cache false events m)
    as (H1&H2&H3&H4&H5&H6).
  destruct (RecentContactsModelProofs.collectEvents_unresolved D cache events m)
    as [Hr Hi].
  rewrite collectEvents_queue, Hq, H2, Hr, Hi.
  assert ((queryLimit m =? 0)
          || (Z.of_nat (length (resolvedEvents m)) <? queryLimit m) = true) as ->.
  { apply orb_true_iff. destruct Hlimit; [left|right]; lia. }
  do 2 f_equal. unfold setQueues. by rewrite H1, H2, H3, H4, H5, H6.
Qed.

Lemma unresolved_queue_fifo_witness :
  prependEvents Samples.declarations Samples.emptyCache
    [Samples.event 3 20 0; Samples.event 4 21 0] false
    (mkModel 1 2 [] 0 false 0 [Samples.event 2 9 0] [] ∅)
  = Some (mkModel 1 2 [] 0 false 0 [Samples.event 3 20 0; Samples.event 4 21 0] [] ∅,
          [ResolveAddedEvents [Samples.event 2 9 0]]).
Proof.
  apply (unresolved_queue_fifo Samples.declarations Samples.emptyCache
           [Samples.event 3 20 0; Samples.event 4 21 0]
           (mkModel 1 2 [] 0 false 0 [Samples.event 2 9 0] [] ∅)).
  - reflexivity.
  - right. reflexivity.
Defined.

(** *** The events a resolved batch contributes *)

(** X8.  The events the first loop accepts from a resolved batch are a subsequence
    of the batch, in the order of the batch; each is in the category mask,
    has a contact that is not [0] and was not claimed before, is no favorite
    when favorites are excluded and matches the address flags when there are
    any; their contacts are distinct and are exactly what is newly claimed. *)
Theorem accepted_in_order D cache events : ∀ m,
  ∃ acc,
    resolvedEvents (collectEvents D cache true events m) = resolvedEvents m ++ acc
    ∧ acc `sublist_of` events
    ∧ Forall (λ e, categoryAccepted D m e = true
                   ∧ eventContact e ≠ 0
                   ∧ (eventContact e ∉ resolvedContactIds m)
                   ∧ (excludeFavorites m && contactIsFavorite cache (eventContact e))
                     = false
                   ∧ ((addressFlags m =? 0)
                      || matchesAddressFlags D (recipient e) (addressFlags m)) = true)
             acc
    ∧ NoDup (eventContact <$> acc)
    ∧ resolvedContactIds (collectEvents D cache true events m)
      = list_to_set (eventContact <$> acc) ∪ resolvedContactIds m.
Proof.
  induction events as [|e events IH]; intros m.
  { exists []. simpl. rewrite app_nil_r.
    split_and!; try done; [constructor|set_solver]. }
  assert (Hskip : (∃ acc,
      resolvedEvents (collectEvents D cache true events m) = resolvedEvents m ++ acc
      ∧ acc `sublist_of` e :: events
      ∧ Forall (λ e, categoryAccepted D m e = true
                     ∧ eventContact e ≠ 0
                     ∧ (eventContact e ∉ resolvedContactIds m)
                     ∧ (excludeFavorites m && contactIsFavorite cache (eventContact e))
                       = false
                     ∧ ((addressFlags m =? 0)
                        || matchesAddressFlags D (recipient e) (addressFlags m)) = true)
               acc
      ∧ NoDup (eventContact <$> acc)
      ∧ resolvedContactIds (collectEvents D cache true events m)
        = list_to_set (eventContact <$> acc) ∪ resolvedContactIds m)).
  { destruct (IH m) as (acc & H1 & H2 & H3 & H4 & H5).
    exists acc. split_and!; try done. by apply sublist_cons. }
  simpl.
  destruct (categoryAccepted D m e) eqn:Hcat; [|exact Hskip]. simpl.
  destruct (negb (contactId (recipient e) =? 0)
            && negb (bool_decide (contactId (recipient e) ∈ resolvedContactIds m)))
    eqn:Hnew; [|exact Hskip].
  destruct (excludeFavorites m && contactIsFavorite cache (contactId (recipient e)))
    eqn:Hfav; [exact Hskip|].
  destruct ((addressFlags m =? 0)
            || matchesAddressFlags D (recipient e) (addressFlags m))
    eqn:Hflags; [|exact Hskip].
  apply andb_true_iff in Hnew as [Hnz Hni].
  apply negb_true_iff in Hnz, Hni.
  apply Z.eqb_neq in Hnz. apply bool_decide_eq_false in Hni.
  assert (Hthis : Forall (λ e, categoryAccepted D m e = true
                     ∧ eventContact e ≠ 0
                     ∧ (eventContact e ∉ resolvedContactIds m)
                     ∧ (excludeFavorites m && contactIsFavorite cache (eventContact e))
                       = false
                     ∧ ((addressFlags m =? 0)
                        || matchesAddressFlags D (recipient e) (addressFlags m)) = true)
                  [e]).
  { apply Forall_singleton. by split_and!. }
  case_match.
  - exists [e]. simpl. split_and!; try done.
    + apply sublist_skip, sublist_nil_l.
    + apply NoDup_singleton.
    + unfold eventContact. set_solver.
  - destruct (IH (acceptResolved e m)) as (acc & H1 & H2 & H3 & H4 & H5).
    exists (e :: acc). simpl in *.
    split; [by rewrite H1, <- app_assoc|].
    split; [by apply sublist_skip|].
    split.
    { apply Forall_cons. split; [by apply Forall_singleton in Hthis|].
      eapply Forall_impl; [exact H3|]. simpl.
      intros e' (?&?&Hn&?&?). split_and!; try done. set_solver. }
    split.
    { apply NoDup_cons. split; [|done].
      intros Hin. apply list_elem_of_fmap in Hin as (e' & Heq & He').
      rewrite Forall_forall in H3. destruct (H3 e' He') as (_&_&Hn&_).
      apply Hn. rewrite <- Heq. unfold eventContact. set_solver. }
    rewrite H5. unfold eventContact at 2. set_solver.
Qed.

(** *** The ranges of a diff *)

Lemma consecutiveRun_stop (l : list Z) end_ : ∀ k c,
  (k + c)%nat = length l →
  let cc := consecutiveRun k l end_ c in
  cc = length l
  ∨ ((cc < length l)%nat ∧ at_ l (length l - cc - 1) ≠ end_ - Z.of_nat cc).
Proof.
  induction k as [|k IH]; intros c Hlen; simpl; [left; lia|].
  case_bool_decide as Hat.
  - right. split; [lia|]. by replace (length l - c - 1)%nat with k by lia.
  - apply IH. lia.
Qed.

Lemma removeObsolete_ranges fuel : ∀ (l : list Z) rs upper,
  (length l ≤ fuel)%nat →
  StronglySorted Z.lt l →
  Forall (λ x, 0 ≤ x < upper) l →
  ∃ rs' signals,
    removeObsolete fuel l rs = Some (rs', signals)
    ∧ descendingRanges upper signals
    ∧ ∀ x, x ∈ l ↔ removedBy signals x.
Proof.
  induction fuel as [|fuel IH]; intros l rs upper Hfuel Hsorted Hrange.
  { destruct l; [|simpl in Hfuel; lia].
    exists rs, []. split; [done|]. split; [done|].
    intros x. unfold removedBy. rewrite Exists_nil. by rewrite elem_of_nil. }
  destruct l as [|a l'].
  { exists rs, []. split; [done|]. split; [done|].
    intros x. unfold removedBy. rewrite Exists_nil. by rewrite elem_of_nil. }
  set (l := a :: l') in *.
  assert (Hne : l ≠ []) by done.
  unfold removeObsolete; fold removeObsolete.
  change (length l) with (S (length l')). cbv zeta.
  set (end_ := List.last l 0).
  replace (S (length l') - 1)%nat with (length l - 1)%nat by (simpl; lia).
  assert (Hinit : drop (length l - 1) l = seqZ (end_ - Z.of_nat 1 + 1) (Z.of_nat 1)).
  { rewrite RecentContactsModelProofs.drop_pred_last by done.
    rewrite seqZ_cons, seqZ_nil by lia. f_equal. lia. }
  destruct (RecentContactsModelProofs.consecutiveRun_spec l end_ (length l - 1) 1)
    as [Hcc Hdrop]; [simpl; lia|done|].
  destruct (consecutiveRun_stop l end_ (length l - 1) 1) as [Hstop|Hstop];
    [simpl; lia| |];
    replace (S (length l')) with (length l) by done;
    set (cc := consecutiveRun (length l - 1) l end_ 1) in *;
    set (start := end_ - Z.of_nat cc + 1) in *;
    replace (Z.to_nat (end_ - start + 1)) with cc by lia;
    pose proof (take_drop (length l - cc) l) as Hsplit;
    rewrite Hdrop in Hsplit;
    (assert (Hstart : start ∈ l)
       by (rewrite <- Hsplit, elem_of_app, elem_of_seqZ; right; lia));
    (assert (Hend : end_ ∈ l)
       by (rewrite <- Hsplit, elem_of_app, elem_of_seqZ; right; lia));
    rewrite Forall_forall in Hrange;
    pose proof (Hrange _ Hstart) as Hs; pose proof (Hrange _ Hend) as He; simpl in Hs, He;
    (assert (Hse : start ≤ end_) by (unfold start; lia)).
  - (* the run is the whole list *)
    replace (length l - cc)%nat with 0%nat in * by lia.
    rewrite take_0 in *. simpl in Hsplit.
    destruct fuel; simpl;
      (eexists; eexists; split; [reflexivity|]; split; [simpl; lia|];
       intros x; unfold removedBy; rewrite Exists_cons, Exists_nil; simpl;
       rewrite <- Hsplit, elem_of_seqZ; unfold start; lia).
  - (* there are rows left below the run *)
    destruct Hstop as [Hlt Hat].
    remember (length l - cc - 1)%nat as k eqn:Hk.
    destruct (lookup_lt_is_Some_2 l k) as [z Hz]; [lia|].
    unfold at_ in Hat. rewrite Hz in Hat. simpl in Hat.
    assert (Htake : take (length l - cc) l = take k l ++ [z]).
    { replace (length l - cc)%nat with (S k) by lia. by apply take_S_r. }
    rewrite <- Hsplit in Hsorted.
    apply StronglySorted_app in Hsorted as (Hcross & Hs1 & _).
    assert (Hbelow : Forall (λ x, 0 ≤ x < start - 1) (take (length l - cc) l)).
    { rewrite Forall_forall. intros x Hx.
      assert (Hxl : x ∈ l) by (rewrite <- Hsplit, elem_of_app; by left).
      pose proof (Hrange _ Hxl) as Hx0. simpl in Hx0.
      assert (Hzlt : z < start).
      { apply Hcross; [rewrite Htake, elem_of_app; right; by left|].
        rewrite elem_of_seqZ. lia. }
      rewrite Htake in Hx, Hs1.
      apply elem_of_app in Hx as [Hx|Hx].
      - apply StronglySorted_app in Hs1 as (Hc & _ & _).
        specialize (Hc x z Hx ltac:(by left)). lia.
      - apply list_elem_of_singleton in Hx as ->. lia. }
    destruct (IH (take (length l - cc) l) (removeRange cc end_ rs) (start - 1))
      as (rs' & sg & Hsg & Hdesc & Hcover); [|done|done|].
    { rewrite length_take. simpl in *. lia. }
    rewrite Hsg. exists rs', (RemoveRows start end_ :: sg).
    split; [done|]. split; [simpl; split_and!; (done || lia)|].
    intros x. unfold removedBy in *. rewrite Exists_cons. simpl.
    rewrite <- Hcover. rewrite <- Hsplit at 1. rewrite elem_of_app, elem_of_seqZ.
    unfold start. split; intros [?|?]; [by right|left; lia|right; lia|by left].
Qed.

(** *** The rows a merge trims *)

Lemma trimRows_tail rowCount : ∀ n idx X X',
  X ⊆ rowNumbers rowCount →
  -1 ≤ idx < rowCount →
  (∀ k, idx < k < rowCount → k ∈ X) →
  trimRows n idx X = Some X' →
  ∃ b, 0 ≤ b ≤ rowCount ∧ ∀ x, x ∈ X' ↔ x ∈ X ∨ b ≤ x < rowCount.
Proof.
  induction n as [|n IH]; intros idx X X' Hsub Hidx Habove Htrim.
  { simpl in Htrim. simplify_eq. exists rowCount. split; [lia|].
    intros x. split; [by left|]. intros [?|?]; [done|lia]. }
  cbn [trimRows] in Htrim.
  destruct (RecentContactsModelProofs.skipRemoved_total X (S (size X)) idx)
    as (j & Hj & Hle & Hnot & Hbetween).
  { assert (filter (λ x : Z, x ≤ idx) X ⊆ X) as Hf
      by (intros x; rewrite elem_of_filter; naive_solver).
    apply subseteq_size in Hf. lia. }
  rewrite Hj in Htrim.
  destruct (j <? 0) eqn:Hneg.
  { simplify_eq. exists rowCount. split; [lia|].
    intros x. split; [by left|]. intros [?|?]; [done|lia]. }
  destruct (IH (j - 1) ({[j]} ∪ X) X') as (b' & Hb' & HX'); [| | |done|].
  - intros x. rewrite elem_of_union, elem_of_singleton.
    rewrite RecentContactsModelProofs.elem_of_rowNumbers.
    intros [->|Hx]; [lia|]. apply Hsub in Hx.
    by apply RecentContactsModelProofs.elem_of_rowNumbers in Hx.
  - lia.
  - intros k Hk. rewrite elem_of_union, elem_of_singleton.
    destruct (decide (k = j)); [by left|right].
    destruct (decide (k ≤ idx)); [apply Hbetween|apply Habove]; lia.
  - exists (Z.min j b'). split; [lia|].
    intros x. rewrite HX', elem_of_union, elem_of_singleton. split.
    + intros [[->|?]|?]; [right; lia|by left|right; lia].
    + intros [?|Hx]; [left; by right|].
      destruct (decide (b' ≤ x)); [right; lia|].
      destruct (decide (x = j)); [left; by left|].
      left. right.
      destruct (decide (x ≤ idx)); [apply Hbetween|apply Habove]; lia.
Qed.


Lemma mergeResolved_detail m :
  resolvedEvents m ≠ [] →
  ∃ X b removals,
    mergeResolved m
    = Some (setQueues (unresolvedEvents m) [] ∅
              (setRows (resolvedEvents m ++ keepRows X (rows m) 0) m),
            removals ++ [InsertRows 0 (Z.of_nat (length (resolvedEvents m)) - 1)])
    ∧ descendingRanges (Z.of_nat (length (rows m))) removals
    ∧ (∀ x, x ∈ X ↔ removedBy removals x)
    ∧ (b ≤ length (rows m))%nat
    ∧ (∀ i e, rows m !! i = Some e →
              Z.of_nat i ∈ X ↔ eventContact e ∈ resolvedContactIds m ∨ (b ≤ i)%nat)
    ∧ X ⊆ rowNumbers (Z.of_nat (length (rows m)))
    ∧ (queryLimit m = 0 → b = length (rows m))
    ∧ (queryLimit m ≠ 0 →
       size X
       = ((size (obsoleteRows (resolvedContactIds m) (rows m) 0 ∅)
           + Z.to_nat (Z.of_nat (length (rows m))
                       + Z.of_nat (length (resolvedEvents m))
                       - Z.of_nat (size (obsoleteRows (resolvedContactIds m)
                                           (rows m) 0 ∅))
                       - queryLimit m))
          `min` length (rows m))%nat).
Proof.
  intros Hne. unfold mergeResolved.
  destruct (resolvedEvents m) as [|e0 res0] eqn:Hres; [done|].
  rewrite <- Hres. clear Hne.
  set (rowCount := Z.of_nat (length (rows m))).
  set (X0 := obsoleteRows (resolvedContactIds m) (rows m) 0 ∅).
  assert (HX0 : X0 ⊆ rowNumbers rowCount).
  { intros x Hx.
    apply RecentContactsModelProofs.elem_of_obsoleteRows in Hx
      as [Hx|(i & e & Hi & -> & _)]; [set_solver|].
    apply lookup_lt_Some in Hi.
    apply RecentContactsModelProofs.elem_of_rowNumbers. unfold rowCount. lia. }
  assert (HX0in : ∀ i e, rows m !! i = Some e →
            Z.of_nat i ∈ X0 ↔ eventContact e ∈ resolvedContactIds m).
  { intros i e Hi. unfold X0.
    rewrite RecentContactsModelProofs.elem_of_obsoleteRows. split.
    - intros [?|(i' & e' & Hi' & Heq & Hin)]; [set_solver|].
      assert (i' = i) as -> by lia. by simplify_eq.
    - intros Hin. right. exists i, e. split; [done|]. split; [lia|done]. }
  assert (Htrim : ∃ X b,
    (if queryLimit m =? 0 then Some X0
     else trimRows
            (Z.to_nat (rowCount + Z.of_nat (length (resolvedEvents m))
                       - Z.of_nat (size X0) - queryLimit m))
            (rowCount - 1) X0) = Some X
    ∧ X ⊆ rowNumbers rowCount
    ∧ 0 ≤ b ≤ rowCount ∧ (∀ x, x ∈ X ↔ x ∈ X0 ∨ b ≤ x < rowCount)
    ∧ (queryLimit m = 0 → b = rowCount)
    ∧ (queryLimit m ≠ 0 →
       size X
       = ((size X0
           + Z.to_nat (rowCount + Z.of_nat (length (resolvedEvents m))
                       - Z.of_nat (size X0) - queryLimit m))
          `min` Z.to_nat rowCount)%nat)).
  { destruct (queryLimit m =? 0) eqn:Hlimit.
    - exists X0, rowCount. split; [done|]. split; [done|]. split; [unfold rowCount; lia|].
      split; [intros x; split; [by left|intros [?|?]; [done|lia]]|].
      split; [done|lia].
    - destruct (RecentContactsModelProofs.trimRows_spec rowCount
                  (Z.to_nat (rowCount + Z.of_nat (length (resolvedEvents m))
                             - Z.of_nat (size X0) - queryLimit m))
                  (rowCount - 1) X0) as (X & HX & H1 & H2 & H3);
        [done|unfold rowCount; lia|intros k Hk; lia|].
      destruct (trimRows_tail rowCount
                  (Z.to_nat (rowCount + Z.of_nat (length (resolvedEvents m))
                             - Z.of_nat (size X0) - queryLimit m))
                  (rowCount - 1) X0 X) as (b & Hb & Hchar);
        [done|unfold rowCount; lia|intros k Hk; lia|done|].
      exists X, b. split; [done|]. split; [done|]. split; [done|].
      split; [done|]. split; [lia|done]. }
  destruct Htrim as (X & b & -> & HX & Hb & Hchar & Hb0 & Hsize).
  assert (Hpos : ∀ x, x ∈ X → 0 ≤ x).
  { intros x Hx. apply HX in Hx.
    by apply RecentContactsModelProofs.elem_of_rowNumbers in Hx as [? _]. }
  destruct (RecentContactsModelProofs.removeObsolete_spec X (rows m) Hpos) as [sg Hsg].
  cbv zeta in Hsg.
  destruct (removeObsolete_ranges (length (merge_sort Z.le (elements X)))
              (merge_sort Z.le (elements X)) (rows m) rowCount)
    as (rs' & sg' & Hsg' & Hdesc & Hcover).
  { done. }
  { apply RecentContactsModelProofs.StronglySorted_le_lt.
    - apply StronglySorted_merge_sort; apply _.
    - rewrite merge_sort_Permutation. apply NoDup_elements. }
  { rewrite Forall_forall. intros x Hx.
    rewrite merge_sort_Permutation, elem_of_elements in Hx.
    apply HX in Hx. by apply RecentContactsModelProofs.elem_of_rowNumbers in Hx. }
  rewrite Hsg in Hsg'. simplify_eq. rewrite Hsg.
  exists X, (Z.to_nat b), sg'.
  rewrite RecentContactsModelProofs.insertEvents_spec by (simpl; lia).
  rewrite take_0, drop_0. simpl.
  split; [done|]. split; [done|].
  split.
  { intros x. rewrite <- Hcover, merge_sort_Permutation, elem_of_elements. done. }
  split; [unfold rowCount in Hb; lia|].
  split.
  { intros i e Hi. rewrite Hchar, (HX0in i e Hi).
    apply lookup_lt_Some in Hi. unfold rowCount. split; intros [?|?]; auto; right; lia. }
  split; [done|].
  split; [intros H0; specialize (Hb0 H0); unfold rowCount in Hb0; lia|].
  intros H0. rewrite (Hsize H0). unfold rowCount. by rewrite Nat2Z.id.
Qed.

(** *** A pass that merges *)

Lemma collectEvents_resolved_queue D cache events : ∀ m,
  unresolvedEvents (collectEvents D cache true events m) = unresolvedEvents m.
Proof.
  induction events as [|e events IH]; intros m; simpl; [done|].
  repeat case_match; first [ by apply IH | done | by rewrite IH ].
Qed.

Lemma completed_pass D cache events resolved m :
  let m1 := collectEvents D cache resolved events m in
  unresolvedEvents m1 = []
  ∨ (queryLimit m ≠ 0 ∧ queryLimit m ≤ Z.of_nat (length (resolvedEvents m1))) →
  resolvedEvents m1 ≠ [] →
  ∃ X b removals,
    prependEvents D cache events resolved m
    = Some (setQueues [] [] ∅
              (setRows (resolvedEvents m1 ++ keepRows X (rows m) 0) m),
            (removals ++ [InsertRows 0 (Z.of_nat (length (resolvedEvents m1)) - 1)])
            ++ announce resolved)
    ∧ descendingRanges (Z.of_nat (length (rows m))) removals
    ∧ (∀ x, x ∈ X ↔ removedBy removals x)
    ∧ (b ≤ length (rows m))%nat
    ∧ (∀ i e, rows m !! i = Some e →
              Z.of_nat i ∈ X ↔ eventContact e ∈ resolvedContactIds m1 ∨ (b ≤ i)%nat)
    ∧ X ⊆ rowNumbers (Z.of_nat (length (rows m)))
    ∧ (queryLimit m = 0 → b = length (rows m))
    ∧ (queryLimit m ≠ 0 →
       size X
       = ((size (obsoleteRows (resolvedContactIds m1) (rows m) 0 ∅)
           + Z.to_nat (Z.of_nat (length (rows m))
                       + Z.of_nat (length (resolvedEvents m1))
                       - Z.of_nat (size (obsoleteRows (resolvedContactIds m1)
                                           (rows m) 0 ∅))
                       - queryLimit m))
          `min` length (rows m))%nat).
Proof.
  intros m1 Hdone Hne.
  destruct (RecentContactsModelProofs.collectEvents_frame D cache resolved events m)
    as (H1&H2&H3&H4&H5&H6).
  fold m1 in H1, H2, H3, H4, H5, H6.
  assert (Hmerge : ∀ m2,
            eventCategoryMask m2 = eventCategoryMask m1 → queryLimit m2 = queryLimit m1 →
            rows m2 = rows m1 → requiredProperty m2 = requiredProperty m1 →
            excludeFavorites m2 = excludeFavorites m1 → addressFlags m2 = addressFlags m1 →
            unresolvedEvents m2 = [] →
            resolvedEvents m2 = resolvedEvents m1 →
            resolvedContactIds m2 = resolvedContactIds m1 →
            prependEvents D cache events resolved m
            = match mergeResolved m2 with
              | Some (m3, sg) => Some (m3, sg ++ announce resolved)
              | None => None
              end →
            ∃ X b removals,
              prependEvents D cache events resolved m
              = Some (setQueues [] [] ∅
                        (setRows (resolvedEvents m1 ++ keepRows X (rows m) 0) m),
                      (removals
                       ++ [InsertRows 0 (Z.of_nat (length (resolvedEvents m1)) - 1)])
                      ++ announce resolved)
              ∧ descendingRanges (Z.of_nat (length (rows m))) removals
              ∧ (∀ x, x ∈ X ↔ removedBy removals x)
              ∧ (b ≤ length (rows m))%nat
              ∧ (∀ i e, rows m !! i = Some e →
                        Z.of_nat i ∈ X
                        ↔ eventContact e ∈ resolvedContactIds m1 ∨ (b ≤ i)%nat)
              ∧ X ⊆ rowNumbers (Z.of_nat (length (rows m)))
              ∧ (queryLimit m = 0 → b = length (rows m))
              ∧ (queryLimit m ≠ 0 →
                 size X
                 = ((size (obsoleteRows (resolvedContactIds m1) (rows m) 0 ∅)
                     + Z.to_nat (Z.of_nat (length (rows m))
                                 + Z.of_nat (length (resolvedEvents m1))
                                 - Z.of_nat (size (obsoleteRows (resolvedContactIds m1)
                                                     (rows m) 0 ∅))
                                 - queryLimit m))
                    `min` length (rows m))%nat)).
  { intros m2 E1 E2 E3 E4 E5 E6 E7 E8 E9 Hpre.
    destruct (mergeResolved_detail m2)
      as (X & b & removals & Hm & Hd & Hc & Hb & Hi & HX & H0 & Hs);
      [by rewrite E8|].
    rewrite Hm in Hpre. rewrite Hpre.
    rewrite E3, H3, E8, E9, E2, H2 in *.
    exists X, b, removals. split; [|done].
    do 2 f_equal. unfold setQueues, setRows. simpl.
    f_equal; congruence. }
  unfold prependEvents in Hmerge |- *. fold m1 in Hmerge |- *.
  destruct (unresolvedEvents m1) as [|first others] eqn:Hun.
  - by apply (Hmerge m1).
  - destruct Hdone as [?|[Hnz Hfull]]; [done|].
    rewrite H2 in *.
    assert ((queryLimit m =? 0)
            || (Z.of_nat (length (resolvedEvents m1)) <? queryLimit m) = false) as Hc.
    { apply orb_false_iff. split; lia. }
    rewrite Hc in Hmerge |- *.
    by apply (Hmerge (setQueues [] (resolvedEvents m1) (resolvedContactIds m1) m1)).
Qed.



Lemma descendingRanges_removals signals : ∀ upper,
  descendingRanges upper signals →
  Forall (λ signal, ∀ evs, signal ≠ ResolveAddedEvents evs) signals.
Proof.
  induction signals as [|sg signals IH]; intros upper H; [constructor|].
  destruct sg; simpl in H; try done.
  destruct H as (_ & _ & _ & H). constructor; [done|]. by eapply IH.
Qed.

(** X10.  The diff of a pass that merges: removals of ranges of old rows, from the
    end of the list to its start and never two ranges that touch, then one
    insertion at the head for the accepted events.  Every row whose contact was
    claimed is in a range, and the rows left are the accepted events followed
    by the old rows outside the ranges. *)
Theorem completed_pass_diff D cache events resolved m :
  unresolvedEvents (collectEvents D cache resolved events m) = []
  ∨ (queryLimit m ≠ 0
     ∧ queryLimit m
       ≤ Z.of_nat (length (resolvedEvents (collectEvents D cache resolved events m)))) →
  resolvedEvents (collectEvents D cache resolved events m) ≠ [] →
  let m1 := collectEvents D cache resolved events m in
  ∃ m' removals X,
    prependEvents D cache events resolved m
    = Some (m', removals
                ++ InsertRows 0 (Z.of_nat (length (resolvedEvents m1)) - 1)
                   :: announce resolved)
    ∧ descendingRanges (Z.of_nat (length (rows m))) removals
    ∧ (∀ x, x ∈ X ↔ removedBy removals x)
    ∧ rows m' = resolvedEvents m1 ++ keepRows X (rows m) 0
    ∧ (∀ i e, rows m !! i = Some e →
              eventContact e ∈ resolvedContactIds m1 →
              removedBy removals (Z.of_nat i)).
Proof.
  intros Hdone Hne m1.
  destruct (completed_pass D cache events resolved m Hdone Hne)
    as (X & b & removals & Hpre & Hdesc & Hcover & _ & Hi & _).
  fold m1 in Hpre, Hi.
  eexists. exists removals, X. rewrite <- app_assoc in Hpre. simpl in Hpre.
  split; [exact Hpre|]. split; [done|]. split; [done|]. split; [done|].
  intros i e Hie Hin. apply Hcover, (Hi i e Hie). by left.
Qed.

Lemma completed_pass_diff_witness :
  ∃ m' removals X,
    prependEvents Samples.declarations Samples.emptyCache
      [Samples.event 3 20 9; Samples.event 5 21 5] true
      (mkModel (-1) 3
         [Samples.event 1 10 5; Samples.event 2 9 7; Samples.event 4 3 9]
         0 false 0 [] [] ∅)
    = Some (m', removals ++ InsertRows 0 (Z.of_nat 2 - 1) :: announce true)
    ∧ descendingRanges (Z.of_nat 3) removals
    ∧ (∀ x, x ∈ X ↔ removedBy removals x)
    ∧ rows m'
      = [Samples.event 3 20 9; Samples.event 5 21 5]
        ++ keepRows X [Samples.event 1 10 5; Samples.event 2 9 7; Samples.event 4 3 9] 0.
Proof.
  destruct (completed_pass_diff Samples.declarations Samples.emptyCache
              [Samples.event 3 20 9; Samples.event 5 21 5] true
              (mkModel (-1) 3
                 [Samples.event 1 10 5; Samples.event 2 9 7; Samples.event 4 3 9]
                 0 false 0 [] [] ∅))
    as (m' & removals & X & H1 & H2 & H3 & H4 & _).
  - left. reflexivity.
  - discriminate.
  - exists m', removals, X. split; [exact H1|]. split; [exact H2|].
    split; [exact H3|exact H4].
Defined.

(** *** Queued events that cannot be shown *)

(** X11.  Once the accepted events fill the limit, the pass hands nothing to the
    resolver any more: it merges, and whatever was queued for resolution is
    dropped. *)
Theorem unreachable_queue_dropped D cache events resolved m :
  0 < queryLimit m →
  queryLimit m
  ≤ Z.of_nat (length (resolvedEvents (collectEvents D cache resolved events m))) →
  ∃ m' signals,
    prependEvents D cache events resolved m = Some (m', signals)
    ∧ unresolvedEvents m' = []
    ∧ Forall (λ signal, ∀ evs, signal ≠ ResolveAddedEvents evs) signals.
Proof.
  intros Hpos Hfull.
  destruct (completed_pass D cache events resolved m)
    as (X & b & removals & Hpre & Hdesc & _).
  { right. split; [lia|done]. }
  { intros Hnil. rewrite Hnil in Hfull. simpl in Hfull. lia. }
  eexists. eexists. split; [exact Hpre|]. split; [done|].
  apply Forall_app. split.
  - apply Forall_app. split; [by eapply descendingRanges_removals|].
    by apply Forall_singleton.
  - unfold announce. destruct resolved; [|constructor].
    repeat constructor; done.
Qed.

Lemma unreachable_queue_dropped_witness :
  ∃ m' signals,
    prependEvents Samples.declarations Samples.emptyCache
      [Samples.event 3 20 9] true
      (mkModel (-1) 2 [] 0 false 0 [Samples.event 6 1 0] [Samples.event 2 9 7] {[7]})
    = Some (m', signals)
    ∧ unresolvedEvents m' = []
    ∧ Forall (λ signal, ∀ evs, signal ≠ ResolveAddedEvents evs) signals.
Proof.
  apply (unreachable_queue_dropped Samples.declarations Samples.emptyCache
           [Samples.event 3 20 9] true
           (mkModel (-1) 2 [] 0 false 0 [Samples.event 6 1 0] [Samples.event 2 9 7] {[7]})).
  - reflexivity.
  - vm_compute. discriminate.
Defined.

(** *** Events outside the category mask *)

Lemma collectEvents_filter D cache resolved events : ∀ m,
  collectEvents D cache resolved
    (filter (λ e, categoryAccepted D m e = true) events) m
  = collectEvents D cache resolved events m.
Proof.
  induction events as [|e events IH]; intros m; [done|].
  rewrite filter_cons.
  destruct (categoryAccepted D m e) eqn:Hcat.
  - rewrite decide_True by done. simpl. rewrite Hcat.
    repeat case_match;
      first [ done
            | exact (IH m)
            | exact (IH (queueUnresolved e m))
            | exact (IH (acceptResolved e m)) ].
  - rewrite decide_False by done. simpl. rewrite Hcat. exact (IH m).
Qed.

(** X12.  Events outside the category mask take no part in a pass: the pass does
    the same with and without them, and a batch that holds nothing else
    changes nothing in a model with empty queues. *)
Theorem category_mask_filters D cache events resolved m :
  prependEvents D cache events resolved m
  = prependEvents D cache
      (filter (λ e, categoryAccepted D m e = true) events) resolved m
  ∧ (if bool_decide (filter (λ e, categoryAccepted D m e = true) events = []
                     ∧ unresolvedEvents m = [] ∧ resolvedEvents m = [])
     then prependEvents D cache events resolved m = Some (m, announce resolved)
     else True).
Proof.
  assert (Heq : prependEvents D cache events resolved m
                = prependEvents D cache
                    (filter (λ e, categoryAccepted D m e = true) events) resolved m).
  { unfold prependEvents. by rewrite collectEvents_filter. }
  split; [done|].
  case_bool_decide as H; [|done].
  destruct H as (Hnone & Hun & Hres).
  rewrite Heq, Hnone. unfold prependEvents. simpl. rewrite Hun.
  unfold mergeResolved. by rewrite Hres.
Qed.

End IngestionFacts.





(** * The slots for contact changes *)

Module SlotFacts.

Import RecentContactsModel RecentContactsSlots.

(** *** The sample base class keeps the contract *)

Lemma deleteFirst_deletesItsRow : deletesItsRow sampleBase.
Proof.
  intros rs. induction rs as [|e0 rs IH]; intros row e Hnd Hrow; [done|].
  simpl in *. apply NoDup_cons in Hnd as [Hnotin Hnd].
  destruct row as [|row]; simpl in *.
  - simplify_eq. by rewrite Z.eqb_refl.
  - destruct (id e0 =? id e) eqn:Heq.
    + apply Z.eqb_eq in Heq. exfalso. apply Hnotin. rewrite Heq.
      apply list_elem_of_fmap. exists e. split; [done|].
      by eapply list_elem_of_lookup_2.
    + f_equal. by apply IH.
Qed.

(** *** The loops that sweep the rows *)

Lemma removeFavoriteRows_sweep B favoriteIds remaining : ∀ row rs,
  removeFavoriteRows B favoriteIds remaining row rs
  = sweepRows B (λ e, bool_decide (eventContact e ∈ favoriteIds)) remaining row rs.
Proof.
  induction remaining as [|k IH]; intros row rs; simpl; [done|].
  destruct (eventAt rs row); [|done]. by rewrite !IH.
Qed.

Lemma removeContactlessRows_sweep B remaining : ∀ row rs,
  removeContactlessRows B remaining row rs
  = sweepRows B (contactRecipientsIsEmpty B) remaining row rs.
Proof.
  induction remaining as [|k IH]; intros row rs; simpl; [done|].
  destruct (eventAt rs row); [|done]. by rewrite !IH.
Qed.

Lemma eventAt_lookup rs (r : nat) : eventAt rs (Z.of_nat r) = rs !! r.
Proof.
  unfold eventAt. destruct (Z.ltb_spec (Z.of_nat r) 0); [lia|].
  by rewrite Nat2Z.id.
Qed.

Lemma NoDup_fmap_delete {A B} (f : A → B) (l : list A) i :
  NoDup (f <$> l) → NoDup (f <$> delete i l).
Proof.
  intros H. eapply sublist_NoDup; [exact H|].
  apply fmap_sublist, sublist_delete.
Qed.

Lemma sweepRows_spec B p :
  deletesItsRow B →
  ∀ remaining r rs,
    NoDup (id <$> rs) → (remaining + r)%nat = length rs →
    sweepRows B p remaining (Z.of_nat r) rs
    = Some (take r rs ++ filter (λ e, p e = false) (drop r rs),
            deletionsOf p (drop r rs)).
Proof.
  intros HB. unfold deletionsOf.
  induction remaining as [|k IH]; intros r rs Hnd Hlen; simpl.
  { rewrite drop_ge by lia. rewrite filter_nil, app_nil_r, take_ge by lia. done. }
  rewrite eventAt_lookup.
  destruct (lookup_lt_is_Some_2 rs r) as [e He]; [lia|].
  rewrite He. rewrite (drop_S _ _ _ He), !filter_cons.
  destruct (p e) eqn:Hp.
  - rewrite (HB rs r e Hnd He).
    rewrite IH; [|by apply NoDup_fmap_delete|rewrite length_delete by eauto; lia].
    rewrite delete_take_drop.
    assert (Hr : length (take r rs) = r) by (rewrite length_take; lia).
    rewrite take_app_length', drop_app_length' by done.
    rewrite decide_False by done. rewrite decide_True by done. done.
  - replace (Z.of_nat r + 1) with (Z.of_nat (S r)) by lia.
    rewrite IH by (done || lia).
    rewrite (take_S_r _ _ _ He), <- app_assoc. by simpl.
Qed.

Lemma filter_ext_in {A} (P Q : A → Prop) `{!∀ x, Decision (P x), !∀ x, Decision (Q x)}
    (l : list A) :
  (∀ x, x ∈ l → P x ↔ Q x) → filter P l = filter Q l.
Proof.
  induction l as [|a l IH]; intros Hext; [done|].
  rewrite !filter_cons.
  rewrite IH by (intros x Hx; apply Hext; by right).
  destruct (Hext a (list_elem_of_here _ _)).
  repeat case_decide; naive_solver.
Qed.

Lemma filter_all {A} (P : A → Prop) `{!∀ x, Decision (P x)} (l : list A) :
  (∀ x, x ∈ l → P x) → filter P l = l.
Proof.
  induction l as [|a l IH]; intros Hext; [done|].
  rewrite filter_cons, decide_True by (apply Hext; by left).
  f_equal. apply IH. intros x Hx. apply Hext. by right.
Qed.

Lemma filter_none {A} (P : A → Prop) `{!∀ x, Decision (P x)} (l : list A) :
  (∀ x, x ∈ l → ¬ P x) → filter P l = [].
Proof.
  induction l as [|a l IH]; intros Hext; [done|].
  rewrite filter_cons, decide_False by (apply Hext; by left).
  apply IH. intros x Hx. apply Hext. by right.
Qed.

Lemma removeNonmatchingRows_spec B :
  deletesItsRow B →
  ∀ remaining r (ids : gset Z) rs,
    NoDup (id <$> rs) → NoDup (eventContact <$> rs) →
    (remaining + r)%nat = length rs →
    removeNonmatchingRows B remaining (Z.of_nat r) ids rs
    = Some (take r rs ++ filter (λ e, eventContact e ∉ ids) (drop r rs),
            (λ e, DeleteFromModel (id e))
              <$> filter (λ e, eventContact e ∈ ids) (drop r rs)).
Proof.
  intros HB.
  induction remaining as [|k IH]; intros r ids rs Hnd Hnc Hlen; simpl.
  { rewrite drop_ge by lia. rewrite !filter_nil, app_nil_r, take_ge by lia. done. }
  rewrite eventAt_lookup.
  destruct (lookup_lt_is_Some_2 rs r) as [e He]; [lia|].
  rewrite He. rewrite (drop_S _ _ _ He), !filter_cons.
  assert (Hrest : ∀ x, x ∈ drop (S r) rs → eventContact x ≠ eventContact e).
  { intros x Hx Heq.
    assert (Hs : NoDup (eventContact <$> drop r rs)).
    { eapply sublist_NoDup; [exact Hnc|]. apply fmap_sublist, sublist_drop. }
    rewrite (drop_S _ _ _ He), fmap_cons in Hs.
    apply NoDup_cons in Hs as [Hnotin _]. apply Hnotin.
    rewrite <- Heq. apply list_elem_of_fmap. by exists x. }
  case_bool_decide as Hin.
  - rewrite (HB rs r e Hnd He).
    rewrite decide_False by (intros Hn; by apply Hn).
    rewrite decide_True by done.
    case_bool_decide as Hlast.
    + rewrite delete_take_drop. rewrite filter_all, filter_none; [done| |].
      * intros x Hx Hxin. apply (Hrest x Hx). set_solver.
      * intros x Hx Hxin. apply (Hrest x Hx). set_solver.
    + rewrite IH;
        [|by apply NoDup_fmap_delete|by apply NoDup_fmap_delete
         |rewrite length_delete by eauto; lia].
      rewrite delete_take_drop.
      assert (Hr : length (take r rs) = r) by (rewrite length_take; lia).
      rewrite take_app_length', drop_app_length' by done.
      rewrite (filter_ext_in (λ e0, eventContact e0 ∉ ids ∖ {[eventContact e]})
                             (λ e0, eventContact e0 ∉ ids)).
      2:{ intros x Hx. specialize (Hrest x Hx). set_solver. }
      rewrite (filter_ext_in (λ e0, eventContact e0 ∈ ids ∖ {[eventContact e]})
                             (λ e0, eventContact e0 ∈ ids)).
      2:{ intros x Hx. specialize (Hrest x Hx). set_solver. }
      done.
  - replace (Z.of_nat r + 1) with (Z.of_nat (S r)) by lia.
    rewrite IH by (done || lia).
    rewrite decide_True by done. rewrite decide_False by done.
    rewrite (take_S_r _ _ _ He), <- app_assoc. by simpl.
Qed.

Lemma favoriteIdsOf_spec cache recipients : ∀ favoriteIds,
  favoriteIdsOf cache recipients favoriteIds
  = favoriteIds
    ++ (contactId <$> filter (λ r, contactIsFavorite cache (contactId r) = true) recipients).
Proof.
  induction recipients as [|r rest IH]; intros acc; simpl.
  { by rewrite app_nil_r. }
  rewrite IH, filter_cons.
  destruct (contactIsFavorite cache (contactId r)) eqn:Hf.
  - rewrite decide_True by done. by rewrite <- app_assoc.
  - by rewrite decide_False by done.
Qed.

Lemma nonmatchingIdsOf_spec D flags recipients : ∀ ids,
  nonmatchingIdsOf D flags recipients ids
  = list_to_set
      (contactId <$> filter (λ r, matchesAddressFlags D r flags = false) recipients)
    ∪ ids.
Proof.
  induction recipients as [|r rest IH]; intros acc; simpl.
  { set_solver. }
  rewrite IH, filter_cons.
  destruct (matchesAddressFlags D r flags) eqn:Hf; simpl; [done|].
  change (list_fmap _ _ contactId) with (fmap (M:=list) contactId). set_solver.
Qed.

Lemma setRows_same m : setRows (rows m) m = m.
Proof. by destruct m. Qed.

(** What [removeFavorites] comes to. *)
Lemma removeFavorites_spec B cache recipients m :
  deletesItsRow B → NoDup (id <$> rows m) →
  removeFavorites B cache recipients m
  = Some (setRows (filter (λ e, becameFavorite cache recipients e = false) (rows m)) m,
          deletionsOf (becameFavorite cache recipients) (rows m)).
Proof.
  intros HB Hnd. unfold removeFavorites.
  rewrite favoriteIdsOf_spec, app_nil_l.
  destruct (contactId <$> filter _ recipients) as [|c favs] eqn:Hfavs.
  - unfold deletionsOf, becameFavorite. rewrite Hfavs.
    rewrite filter_all, filter_none, setRows_same; [done| |].
    + intros x _. rewrite bool_decide_eq_true. apply not_elem_of_nil.
    + intros x _. rewrite bool_decide_eq_false. apply not_elem_of_nil.
  - rewrite removeFavoriteRows_sweep.
    rewrite (sweepRows_spec B _ HB (length (rows m)) 0 (rows m) Hnd) by lia.
    rewrite take_0, drop_0, app_nil_l. unfold becameFavorite. by rewrite Hfavs.
Qed.

(** What [slotContactChanged] comes to. *)
Lemma slotContactChanged_spec B recipients m :
  deletesItsRow B → NoDup (id <$> rows m) →
  slotContactChanged B recipients m
  = Some (setRows (filter (λ e, contactRecipientsIsEmpty B e = false) (rows m)) m,
          deletionsOf (contactRecipientsIsEmpty B) (rows m)
          ++ [BaseContactChanged recipients]).
Proof.
  intros HB Hnd. unfold slotContactChanged.
  rewrite removeContactlessRows_sweep.
  rewrite (sweepRows_spec B _ HB (length (rows m)) 0 (rows m) Hnd) by lia.
  by rewrite take_0, drop_0, app_nil_l.
Qed.

(** What [slotContactDetailsChanged] comes to. *)
Lemma slotContactDetailsChanged_spec B cache recipients m :
  deletesItsRow B → NoDup (id <$> rows m) →
  slotContactDetailsChanged B cache recipients m
  = Some (if excludeFavorites m
          then setRows (filter (λ e, becameFavorite cache recipients e = false) (rows m)) m
          else m,
          (if excludeFavorites m
           then deletionsOf (becameFavorite cache recipients) (rows m) else [])
          ++ [BaseContactDetailsChanged recipients]).
Proof.
  intros HB Hnd. unfold slotContactDetailsChanged.
  destruct (excludeFavorites m); [|done].
  by rewrite removeFavorites_spec.
Qed.

(** The first half of [slotContactInfoChanged]. *)
Lemma nonmatching_spec D B recipients m :
  deletesItsRow B → NoDup (id <$> rows m) → NoDup (eventContact <$> rows m) →
  (if addressFlags m =? 0 then Some (m, [])
   else
     let nonmatchingIds := nonmatchingIdsOf D (addressFlags m) recipients ∅ in
     if bool_decide (nonmatchingIds = ∅) then Some (m, [])
     else
       match removeNonmatchingRows B (length (rows m)) 0 nonmatchingIds (rows m) with
       | Some (rs, calls) => Some (setRows rs m, calls)
       | None => None
       end)
  = Some (setRows (filter (λ e, noLongerMatches D (addressFlags m) recipients e = false)
                          (rows m)) m,
          deletionsOf (noLongerMatches D (addressFlags m) recipients) (rows m)).
Proof.
  intros HB Hnd Hnc. unfold deletionsOf, noLongerMatches.
  destruct (addressFlags m =? 0) eqn:Hflags; simpl.
  { rewrite filter_all, filter_none, setRows_same; done. }
  rewrite nonmatchingIdsOf_spec, union_empty_r_L.
  set (ids := list_to_set _ : gset Z).
  assert (Hids : ∀ e : Event, eventContact e ∈ ids ↔
            bool_decide (eventContact e ∈ contactId <$>
              filter (λ r, matchesAddressFlags D r (addressFlags m) = false) recipients)
            = true).
  { intros e. unfold ids. rewrite elem_of_list_to_set, bool_decide_eq_true. done. }
  case_bool_decide as Hempty.
  - rewrite filter_all, filter_none, setRows_same; [done| |].
    + intros x _. rewrite <- Hids, Hempty. set_solver.
    + intros x _. apply not_true_iff_false.
      rewrite <- Hids, Hempty. set_solver.
  - pose proof (removeNonmatchingRows_spec B HB (length (rows m)) 0 ids (rows m)
                  Hnd Hnc ltac:(lia)) as Hloop.
    change (Z.of_nat 0) with 0 in Hloop. rewrite Hloop.
    rewrite take_0, drop_0, app_nil_l.
    f_equal. f_equal; [f_equal|f_equal]; apply list_filter_iff; intros e; rewrite Hids;
      [by rewrite not_true_iff_false|done].
Qed.

(** What [slotContactInfoChanged] comes to. *)
Lemma slotContactInfoChanged_spec D B cache recipients m :
  deletesItsRow B → NoDup (id <$> rows m) → NoDup (eventContact <$> rows m) →
  let rows1 := filter (λ e, noLongerMatches D (addressFlags m) recipients e = false)
                      (rows m) in
  slotContactInfoChanged D B cache recipients m
  = Some (setRows (if excludeFavorites m
                   then filter (λ e, becameFavorite cache recipients e = false) rows1
                   else rows1) m,
          deletionsOf (noLongerMatches D (addressFlags m) recipients) (rows m)
          ++ (if excludeFavorites m
              then deletionsOf (becameFavorite cache recipients) rows1 else [])
          ++ [BaseContactInfoChanged recipients]).
Proof.
  intros HB Hnd Hnc rows1. unfold slotContactInfoChanged.
  pose proof (nonmatching_spec D B recipients m HB Hnd Hnc) as Hfirst.
  cbv zeta in Hfirst |- *. rewrite Hfirst. fold rows1.
  change (excludeFavorites (setRows rows1 m)) with (excludeFavorites m).
  destruct (excludeFavorites m); [|done].
  rewrite removeFavorites_spec; [done|done|].
  simpl. eapply sublist_NoDup; [exact Hnd|]. apply fmap_sublist, sublist_filter.
Qed.

(** Rows taken out of a model leave it bounded and distinct. *)
Lemma fewer_rows_inv m rs :
  rs `sublist_of` rows m →
  (bounded m → bounded (setRows rs m)) ∧ (distinct m → distinct (setRows rs m)).
Proof.
  intros Hsub. split.
  - unfold bounded. simpl. intros Hb Hlim. destruct (Hb Hlim) as [H1 H2].
    split; [done|]. apply sublist_length in Hsub. lia.
  - unfold distinct. simpl. intros (H1 & H2 & H3 & H4 & H5).
    repeat split; try done.
    + eapply sublist_NoDup; [exact H4|]. by apply fmap_sublist.
    + rewrite Forall_forall in H5 |- *. intros x Hx.
      apply H5. by eapply elem_of_sublist.
Qed.

(** *** A contact changed *)

(** X13.  When told that contacts changed, a model whose base class deletes the row
    of the id it is given, and whose rows have distinct event ids, is left
    with exactly its rows that still have contact recipients, in their order;
    it asks for the deletion of each of the others once, in row order, before
    it hands the recipients to its base class, and it stays bounded and
    distinct. *)
Theorem contact_changed_removes_contactless B recipients m :
  deletesItsRow B → NoDup (id <$> rows m) →
  ∃ m',
    slotContactChanged B recipients m
    = Some (m', deletionsOf (contactRecipientsIsEmpty B) (rows m)
                ++ [BaseContactChanged recipients])
    ∧ m' = setRows (filter (λ e, contactRecipientsIsEmpty B e = false) (rows m)) m
    ∧ (bounded m → bounded m') ∧ (distinct m → distinct m').
Proof.
  intros HB Hnd. eexists. split; [by apply slotContactChanged_spec|].
  split; [done|]. apply fewer_rows_inv, sublist_filter.
Qed.

Lemma contact_changed_removes_contactless_witness :
  ∃ m',
    slotContactChanged sampleBase changed lostContact
    = Some (m', [DeleteFromModel 2; BaseContactChanged changed])
    ∧ rows m' = [Samples.event 1 10 5; Samples.event 3 8 9].
Proof.
  destruct (contact_changed_removes_contactless sampleBase changed lostContact)
    as (m' & Hrun & Hm' & _).
  - apply deleteFirst_deletesItsRow.
  - apply (bool_decide_unpack _). vm_compute. reflexivity.
  - exists m'. split; [exact Hrun|]. rewrite Hm'. vm_compute. reflexivity.
Defined.

(** *** The details of a contact changed *)

(** X14.  When told that details of contacts changed, a model that excludes
    favorites (with a base class and rows as before) is left with its rows
    except those of a contact of one of the recipients that the cache holds as
    a favorite, and asks for the deletion of each of those once, in row order;
    a model that does not exclude favorites keeps all its rows and deletes
    nothing.  Either way the recipients go to the base class last, and the
    model stays bounded and distinct. *)
Theorem details_changed_removes_favorites B cache recipients m :
  deletesItsRow B → NoDup (id <$> rows m) →
  ∃ m',
    slotContactDetailsChanged B cache recipients m
    = Some (m', (if excludeFavorites m
                 then deletionsOf (becameFavorite cache recipients) (rows m) else [])
                ++ [BaseContactDetailsChanged recipients])
    ∧ m' = (if excludeFavorites m
            then setRows (filter (λ e, becameFavorite cache recipients e = false)
                                 (rows m)) m
            else m)
    ∧ (bounded m → bounded m') ∧ (distinct m → distinct m').
Proof.
  intros HB Hnd. eexists. split; [by apply slotContactDetailsChanged_spec|].
  split; [done|]. destruct (excludeFavorites m); [|done].
  apply fewer_rows_inv, sublist_filter.
Qed.

Lemma details_changed_removes_favorites_witness :
  ∃ m',
    slotContactDetailsChanged sampleBase favoritesCache changed threeRows
    = Some (m', [DeleteFromModel 2; BaseContactDetailsChanged changed])
    ∧ rows m' = [Samples.event 1 10 5; Samples.event 3 8 9].
Proof.
  destruct (details_changed_removes_favorites sampleBase favoritesCache changed threeRows)
    as (m' & Hrun & Hm' & _).
  - apply deleteFirst_deletesItsRow.
  - apply (bool_decide_unpack _). vm_compute. reflexivity.
  - exists m'. split; [exact Hrun|]. rewrite Hm'. vm_compute. reflexivity.
Defined.

(** *** The addresses of a contact changed *)

(** X15.  When told that the addresses of contacts changed, a model whose rows have
    distinct event ids and distinct contacts first loses every row of a
    contact of one of the recipients that does not match the address flags (if
    the flags are not [0]), then, if it excludes favorites, every remaining
    row of a contact of one of the recipients that is a favorite; each of
    those rows is deleted once, the first group before the second, each in row
    order, before the recipients go to the base class.  With no flags and
    favorites not excluded, the model is as it was.  The model stays bounded
    and distinct. *)
Theorem info_changed_removes_nonmatching D B cache recipients m :
  deletesItsRow B → NoDup (id <$> rows m) → NoDup (eventContact <$> rows m) →
  let rows1 := filter (λ e, noLongerMatches D (addressFlags m) recipients e = false)
                      (rows m) in
  ∃ m',
    slotContactInfoChanged D B cache recipients m
    = Some (m', deletionsOf (noLongerMatches D (addressFlags m) recipients) (rows m)
                ++ (if excludeFavorites m
                    then deletionsOf (becameFavorite cache recipients) rows1 else [])
                ++ [BaseContactInfoChanged recipients])
    ∧ m' = setRows (if excludeFavorites m
                    then filter (λ e, becameFavorite cache recipients e = false) rows1
                    else rows1) m
    ∧ (addressFlags m = 0 → excludeFavorites m = false → m' = m)
    ∧ (bounded m → bounded m') ∧ (distinct m → distinct m').
Proof.
  intros HB Hnd Hnc rows1. eexists.
  split; [by apply slotContactInfoChanged_spec|]. split; [done|]. split.
  - intros Hflags Hexcl. rewrite Hexcl. subst rows1.
    rewrite filter_all, setRows_same; [done|].
    intros e _. unfold noLongerMatches. by rewrite Hflags.
  - apply fewer_rows_inv. destruct (excludeFavorites m).
    + etrans; apply sublist_filter.
    + apply sublist_filter.
Qed.

Lemma info_changed_removes_nonmatching_witness :
  ∃ m',
    slotContactInfoChanged Samples.declarations sampleBase favoritesCache changed threeRows
    = Some (m', [DeleteFromModel 1; DeleteFromModel 2; BaseContactInfoChanged changed])
    ∧ rows m' = [Samples.event 3 8 9].
Proof.
  destruct (info_changed_removes_nonmatching Samples.declarations sampleBase
              favoritesCache changed threeRows)
    as (m' & Hrun & Hm' & _).
  - apply deleteFirst_deletesItsRow.
  - apply (bool_decide_unpack _). vm_compute. reflexivity.
  - apply (bool_decide_unpack _). vm_compute. reflexivity.
  - exists m'. split; [exact Hrun|]. rewrite Hm'. vm_compute. reflexivity.
Defined.

End SlotFacts.

(** * The model watcher *)

Module ModelWatcherFacts.

Import ModelWatcher.

Lemma processEvents_app w l1 l2 :
  processEvents w (l1 ++ l2) = processEvents (processEvents w l1) l2.
Proof. apply foldl_app. Qed.

Lemma turns_0 w sched : turns 0 w sched = w.
Proof. done. Qed.

Lemma qWait_turns k w sched :
  qWait (turns k w sched, drop k sched) = (turns (S k) w sched, drop (S k) sched).
Proof.
  unfold qWait, turns. simpl.
  destruct (drop k sched) as [|slots rest] eqn:Hd.
  - assert (Hlen : (length sched ≤ k)%nat).
    { destruct (decide (length sched ≤ k)%nat) as [|Hn]; [done|].
      assert (length (drop k sched) = 0%nat) as Hl by (by rewrite Hd).
      rewrite length_drop in Hl. lia. }
    rewrite !take_ge by lia. rewrite drop_ge by lia. done.
  - assert (Hk : sched !! k = Some slots).
    { pose proof (lookup_drop sched k 0) as Hl.
      rewrite Hd, Nat.add_0_r in Hl. done. }
    rewrite (take_S_r _ _ _ Hk), concat_app, processEvents_app. simpl.
    rewrite app_nil_r. f_equal.
    rewrite (drop_S _ _ _ Hk) in Hd. congruence.
Qed.

Lemma turns_turns k1 k2 w sched :
  turns k2 (turns k1 w sched) (drop k1 sched) = turns (k1 + k2) w sched.
Proof.
  unfold turns. rewrite <- processEvents_app, <- concat_app. do 2 f_equal.
  rewrite take_drop_commute. 
  rewrite <- (take_drop k1 (take (k1 + k2) sched)) at 2.
  f_equal. rewrite take_take. f_equal. lia.
Qed.

Lemma tryLoop_spec value expected : ∀ remaining k w sched,
  ∃ k', (k ≤ k' ≤ k + remaining)%nat
    ∧ tryLoop value expected remaining (turns k w sched, drop k sched)
      = (turns k' w sched, drop k' sched)
    ∧ (∀ j, (k ≤ j < k')%nat → value (turns j w sched) < expected)
    ∧ ((k' < k + remaining)%nat → expected ≤ value (turns k' w sched)).
Proof.
  induction remaining as [|n IH]; intros k w sched; simpl.
  { exists k. repeat split; (lia || done). }
  destruct (Z.ltb_spec (value (turns k w sched)) expected) as [Hlt|Hge].
  - rewrite qWait_turns.
    destruct (IH (S k) w sched) as (k' & Hk' & Hrun & Hbelow & Hstop).
    exists k'. split; [lia|]. split; [done|]. split.
    + intros j Hj. destruct (decide (j = k)) as [->|Hne]; [done|].
      apply Hbelow. lia.
    + intros Hlt'. apply Hstop. lia.
  - exists k. split; [lia|]. split; [done|]. split; [intros j Hj; lia|done].
Qed.

Lemma TRY_COUNT_spec value expected w sched re :
  ∃ k, (k ≤ 101)%nat
    ∧ TRY_COUNT value expected (w, sched, re)
      = (turns k w sched, drop k sched, re && (value (turns k w sched) =? expected))
    ∧ (∀ j, (j < k)%nat → value (turns j w sched) < expected)
    ∧ ((k < 101)%nat → expected ≤ value (turns k w sched)).
Proof.
  unfold TRY_COUNT. cbn [fst snd].
  destruct (Z.ltb_spec (value w) expected) as [Hlt|Hge].
  - pose proof (qWait_turns 0 w sched) as Hq. rewrite turns_0, drop_0 in Hq.
    destruct (tryLoop_spec value expected 100 1 w sched)
      as (k & Hk & Hrun & Hbelow & Hstop).
    exists k. split; [lia|]. rewrite Hq, Hrun. split; [done|]. split.
    + intros j Hj. destruct j as [|j]; [by rewrite turns_0|]. apply Hbelow. lia.
    + intros Hlt'. apply Hstop. lia.
  - exists 0%nat. rewrite turns_0, drop_0. split; [lia|]. split; [done|].
    split; [intros j Hj; lia|done].
Qed.

Lemma two_stage_spec value1 expected1 value2 expected2 w sched :
  ∃ k1 k2, (k1 ≤ 101)%nat ∧ (k2 ≤ 101)%nat
    ∧ finish (TRY_COUNT value2 expected2 (TRY_COUNT value1 expected1 (w, sched, true)))
      = ((value1 (turns k1 w sched) =? expected1)
         && (value2 (turns (k1 + k2) w sched) =? expected2),
         reset (turns (k1 + k2) w sched), drop (k1 + k2) sched)
    ∧ (∀ j, (j < k1)%nat → value1 (turns j w sched) < expected1)
    ∧ ((k1 < 101)%nat → expected1 ≤ value1 (turns k1 w sched))
    ∧ (∀ j, (j < k2)%nat → value2 (turns (k1 + j) w sched) < expected2)
    ∧ ((k2 < 101)%nat → expected2 ≤ value2 (turns (k1 + k2) w sched)).
Proof.
  destruct (TRY_COUNT_spec value1 expected1 w sched true)
    as (k1 & Hk1 & Hrun1 & Hbelow1 & Hstop1).
  destruct (TRY_COUNT_spec value2 expected2 (turns k1 w sched) (drop k1 sched)
              (true && (value1 (turns k1 w sched) =? expected1)))
    as (k2 & Hk2 & Hrun2 & Hbelow2 & Hstop2).
  exists k1, k2. rewrite Hrun1, Hrun2. rewrite turns_turns in *.
  rewrite drop_drop. simpl.
  repeat split; try done.
  intros j Hj. rewrite <- turns_turns. by apply Hbelow2.
Qed.

Lemma invoke_counters w s :
  m_addedCount (invoke w s) = m_addedCount w + addedBy s
  ∧ m_updatedCount (invoke w s) = m_updatedCount w + updatedBy s
  ∧ m_deletedCount (invoke w s) = m_deletedCount w + deletedBy s
  ∧ m_committedCount (invoke w s) = m_committedCount w + committedBy s
  ∧ m_dbusSignalReceived (invoke w s) = m_dbusSignalReceived w || isDBusSlot s
  ∧ m_eventsCommitted (invoke w s) = m_eventsCommitted w
  ∧ m_minCommitCount (invoke w s) = m_minCommitCount w
  ∧ m_minAddCount (invoke w s) = m_minAddCount w
  ∧ m_minDeleteCount (invoke w s) = m_minDeleteCount w.
Proof.
  destruct s as [events|events|i|events []]; simpl;
    rewrite ?orb_true_r, ?orb_false_r; repeat split; lia.
Qed.

Lemma processEvents_counters slots : ∀ w,
  m_addedCount (processEvents w slots) = m_addedCount w + total addedBy slots
  ∧ m_updatedCount (processEvents w slots) = m_updatedCount w + total updatedBy slots
  ∧ m_deletedCount (processEvents w slots) = m_deletedCount w + total deletedBy slots
  ∧ m_committedCount (processEvents w slots)
    = m_committedCount w + total committedBy slots
  ∧ m_dbusSignalReceived (processEvents w slots)
    = m_dbusSignalReceived w || existsb isDBusSlot slots
  ∧ m_eventsCommitted (processEvents w slots) = m_eventsCommitted w
  ∧ m_minCommitCount (processEvents w slots) = m_minCommitCount w
  ∧ m_minAddCount (processEvents w slots) = m_minAddCount w
  ∧ m_minDeleteCount (processEvents w slots) = m_minDeleteCount w.
Proof.
  induction slots as [|s slots IH]; intros w; simpl.
  { rewrite orb_false_r. repeat split; lia. }
  destruct (IH (invoke w s)) as (A & U & Dl & C & S & E & M1 & M2 & M3).
  destruct (invoke_counters w s) as (A' & U' & Dl' & C' & S' & E' & M1' & M2' & M3').
  unfold processEvents in *.
  rewrite A, U, Dl, C, S, E, M1, M2, M3, A', U', Dl', C', S', E', M1', M2', M3'.
  rewrite orb_assoc. repeat split; lia.
Qed.

(** *** Waiting for a count *)

(** X16.  A wait for committed or for deleted events turns the event loop until its
    counter has reached the count, at most [101] times and not at all if the
    counter is there already; its result is whether the counter then equals
    the count, so a counter that went past it fails the wait; and it hands
    back a watcher that is reset. *)
Theorem single_wait_stops_when_reached count w sched :
  (∃ k, (k ≤ 101)%nat
     ∧ waitForCommitted count w sched
       = (m_committedCount (turns k w sched) =? count,
          reset (turns k w sched), drop k sched)
     ∧ (∀ j, (j < k)%nat → m_committedCount (turns j w sched) < count)
     ∧ ((k < 101)%nat → count ≤ m_committedCount (turns k w sched)))
  ∧ (∃ k, (k ≤ 101)%nat
     ∧ waitForDeleted count w sched
       = (m_deletedCount (turns k w sched) =? count,
          reset (turns k w sched), drop k sched)
     ∧ (∀ j, (j < k)%nat → m_deletedCount (turns j w sched) < count)
     ∧ ((k < 101)%nat → count ≤ m_deletedCount (turns k w sched))).
Proof.
  split.
  - destruct (TRY_COUNT_spec m_committedCount count w sched true)
      as (k & Hk & Hrun & Hbelow & Hstop).
    exists k. unfold waitForCommitted. rewrite Hrun. by repeat split.
  - destruct (TRY_COUNT_spec m_deletedCount count w sched true)
      as (k & Hk & Hrun & Hbelow & Hstop).
    exists k. unfold waitForDeleted. rewrite Hrun. by repeat split.
Qed.

(** X17.  A wait for added events first waits for the added counter, then, from
    where that stopped, for the committed counter, which is awaited to reach
    the count itself when [committed] is negative; a wait for updated events
    does the same with the updated counter and the count.  The first counter
    is judged where the first wait stopped.  The result is the conjunction of
    the two equalities, and the watcher comes back reset. *)
Theorem double_wait_in_two_stages count committed w sched :
  let committed' := if committed <? 0 then count else committed in
  (∃ k1 k2, (k1 ≤ 101)%nat ∧ (k2 ≤ 101)%nat
     ∧ waitForAdded count committed w sched
       = ((m_addedCount (turns k1 w sched) =? count)
          && (m_committedCount (turns (k1 + k2) w sched) =? committed'),
          reset (turns (k1 + k2) w sched), drop (k1 + k2) sched)
     ∧ (∀ j, (j < k1)%nat → m_addedCount (turns j w sched) < count)
     ∧ ((k1 < 101)%nat → count ≤ m_addedCount (turns k1 w sched))
     ∧ (∀ j, (j < k2)%nat → m_committedCount (turns (k1 + j) w sched) < committed')
     ∧ ((k2 < 101)%nat → committed' ≤ m_committedCount (turns (k1 + k2) w sched)))
  ∧ (∃ k1 k2, (k1 ≤ 101)%nat ∧ (k2 ≤ 101)%nat
     ∧ waitForUpdated count w sched
       = ((m_updatedCount (turns k1 w sched) =? count)
          && (m_committedCount (turns (k1 + k2) w sched) =? count),
          reset (turns (k1 + k2) w sched), drop (k1 + k2) sched)
     ∧ (∀ j, (j < k1)%nat → m_updatedCount (turns j w sched) < count)
     ∧ ((k1 < 101)%nat → count ≤ m_updatedCount (turns k1 w sched))
     ∧ (∀ j, (j < k2)%nat → m_committedCount (turns (k1 + j) w sched) < count)
     ∧ ((k2 < 101)%nat → count ≤ m_committedCount (turns (k1 + k2) w sched))).
Proof.
  intros committed'. split.
  - apply (two_stage_spec m_addedCount count m_committedCount committed').
  - apply (two_stage_spec m_updatedCount count m_committedCount count).
Qed.

(** *** The counters *)

(** X18.  Whatever slots are invoked, in whatever order, each counter grows by what
    its own slots bring: the added and updated counters by the sizes of their
    lists, the deleted counter by one a call, the committed counter by the
    sizes of the lists committed with success.  A signal counts as received
    once a slot for added or updated events ran, not for a deletion or a
    commit.  No slot touches the minimum counts, and none sets
    [m_eventsCommitted]. *)
Theorem counters_are_totals w slots :
  let w' := processEvents w slots in
  m_addedCount w' = m_addedCount w + total addedBy slots
  ∧ m_updatedCount w' = m_updatedCount w + total updatedBy slots
  ∧ m_deletedCount w' = m_deletedCount w + total deletedBy slots
  ∧ m_committedCount w' = m_committedCount w + total committedBy slots
  ∧ m_dbusSignalReceived w' = m_dbusSignalReceived w || existsb isDBusSlot slots
  ∧ m_eventsCommitted w' = m_eventsCommitted w
  ∧ m_minCommitCount w' = m_minCommitCount w
  ∧ m_minAddCount w' = m_minAddCount w
  ∧ m_minDeleteCount w' = m_minDeleteCount w.
Proof. apply processEvents_counters. Qed.

(** *** Being finished *)

(** X19.  After a reset and any slots, the watcher is finished exactly when a slot
    for added or updated events ran, the events added and the deletions have
    reached their minimum counts, and, unless the minimum commit count is
    negative, at least one event was committed with success and the committed
    events have reached that count.  So deletions and commits alone never
    finish a watcher. *)
Theorem finished_after_reset w slots :
  isFinished (processEvents (reset w) slots) = true
  ↔ existsb isDBusSlot slots = true
    ∧ m_minAddCount w ≤ total addedBy slots
    ∧ m_minDeleteCount w ≤ total deletedBy slots
    ∧ (0 ≤ m_minCommitCount w →
       0 ≠ total committedBy slots ∧ m_minCommitCount w ≤ total committedBy slots).
Proof.
  destruct (processEvents_counters slots (reset w))
    as (A & U & Dl & C & S & E & M1 & M2 & M3).
  unfold isFinished. rewrite A, Dl, C, S, M1, M2, M3. simpl.
  rewrite !Z.add_0_l.
  destruct (existsb isDBusSlot slots); simpl.
  - destruct (Z.leb_spec 0 (m_minCommitCount w));
      destruct (Z.eqb_spec (total committedBy slots) 0);
      destruct (Z.ltb_spec (total committedBy slots) (m_minCommitCount w));
      destruct (Z.ltb_spec (total addedBy slots) (m_minAddCount w));
      destruct (Z.ltb_spec (total deletedBy slots) (m_minDeleteCount w));
      simpl;
      (split;
       [first [done|intros _; split; [done|lia]]
       |first [done|intros (_ & ? & ? & ?); lia]]).
  - repeat case_match; split; try done; by intros [? _].
Qed.

(** A run: two additions arrive in the second turn and the second commit in
    the third, so the wait for two added events takes all three turns. *)
Example wait_for_added_run :
  let '(re, w, sched) := waitForAdded 2 (-1) (construct 0 true) threeTurns in
  re = true ∧ sched = [] ∧ m_addedCount w = 0 ∧ m_lastDeleted w = 3.
Proof. vm_compute. done. Qed.

End ModelWatcherFacts.
